(** * TCLTL: the adapter between a zone graph and a Kripke structure

    A shallow embedding of [src/tcltl.cc]: the pooled, reference-counted
    state handle [tcltl_state], the successor iterator, the Kripke adapter
    [tcltl_kripke], the atomic-proposition compiler [convert_aps] and the
    command-line driver [main], followed by the properties of the
    specification that were checked against them. *)

From Stdlib Require Import ZArith NArith String Ascii List Lia.
From stdpp Require Import base option list gmap strings fin_maps.

Local Open Scope Z_scope.

(** ** Machine integers *)

(** [unsigned] is 32 bits wide: arithmetic on it wraps around. *)
Definition wrap32 (x : Z) : Z := x mod 2 ^ 32.

(** Conversion to [int] (32 bits, two's complement). *)
Definition to_int (x : Z) : Z := (x + 2 ^ 31) mod 2 ^ 32 - 2 ^ 31.

Definition LONG_MAX : Z := 2 ^ 63 - 1.
Definition LONG_MIN : Z := - 2 ^ 63.

(** ** Exceptions *)

Inductive result (A : Type) : Type :=
| Ok (a : A)
| Throw (what : string).
Arguments Ok {A} a.
Arguments Throw {A} what.

(** ** Boolean functions

    The adapter only ever builds conjunctions of literals out of
    [bddtrue], [bddfalse], [bdd_ithvar], [bdd_nithvar] and [&].  A BDD is a
    canonical form, and so is the representation chosen here for that
    fragment: [None] is the constant false, [Some m] the conjunction of the
    literals of the finite map [m] (variable to polarity). *)

Abbreviation bdd := (option (gmap nat bool)).

Definition bddtrue : bdd := Some ∅.
Definition bddfalse : bdd := None.
Definition bdd_ithvar (v : nat) : bdd := Some {[ v := true ]}.
Definition bdd_nithvar (v : nat) : bdd := Some {[ v := false ]}.

Definition bdd_and (a b : bdd) : bdd :=
  match a, b with
  | Some m1, Some m2 =>
      if decide (map_agree m1 m2) then Some (m1 ∪ m2) else None
  | _, _ => None
  end.

(** Truth value of a function under an assignment of the variables. *)
Definition bdd_eval (rho : nat → bool) (a : bdd) : bool :=
  match a with
  | None => false
  | Some m => bool_decide (map_Forall (λ v b, rho v = b) m)
  end.

(** [bdd_implies a b]: every assignment satisfying [a] satisfies [b]; on
    canonical forms this is [a & b == a]. *)
Definition bdd_implies (a b : bdd) : Prop := bdd_and a b = a.

(** ** Zone-graph states (external)

    A state of the zone graph is an immutable value: the tuple of current
    locations (one location id per process), the valuation of the integer
    variables and the zone.  [shared_state_ptr_t] is an intrusive shared
    pointer: it has an identity and a pointee that is never written. *)

Record zg_state : Type := {
  vloc : list nat;
  intvars_valuation : list Z;
  zone : list Z
}.

Global Instance zg_state_eq_dec : EqDecision zg_state.
Proof. solve_decision. Defined.

Record shared_state_ptr_t : Type := {
  zg_id : nat;
  zg_obj : zg_state
}.

(** ** The pooled state handle *)

Record tcltl_state : Type := {
  hash_val_ : Z;                    (* unsigned *)
  count_ : Z;                       (* mutable unsigned *)
  zg_state_ : shared_state_ptr_t
}.

(** The successor iterator: the callback context it owns (the list of
    destination handles), the condition of its edges, and the cursor. *)
Record tcltl_succ_iterator : Type := {
  cc_transitions : list nat;
  cond_ : bdd;
  it_ : nat
}.

(** The mutable part of a [tcltl_kripke]: [statepool_] (a
    [spot::fixed_size_pool]: cells handed out from a free list first, then
    from fresh memory) with the objects constructed in its cells, the
    reference counts of the zone-graph states, and [iter_cache_]. *)
Record world : Type := {
  cells : gmap nat tcltl_state;
  free_list : list nat;
  next_cell : nat;
  zg_refs : gmap nat Z;
  iter_cache_ : option tcltl_succ_iterator
}.

Definition set_cells (f : gmap nat tcltl_state → gmap nat tcltl_state)
    (w : world) : world :=
  {| cells := f (cells w); free_list := free_list w;
     next_cell := next_cell w; zg_refs := zg_refs w;
     iter_cache_ := iter_cache_ w |}.

Definition set_zg_refs (f : gmap nat Z → gmap nat Z) (w : world) : world :=
  {| cells := cells w; free_list := free_list w;
     next_cell := next_cell w; zg_refs := f (zg_refs w);
     iter_cache_ := iter_cache_ w |}.

Definition set_iter_cache (c : option tcltl_succ_iterator) (w : world)
    : world :=
  {| cells := cells w; free_list := free_list w;
     next_cell := next_cell w; zg_refs := zg_refs w;
     iter_cache_ := c |}.

(** [fixed_size_pool::allocate] *)
Definition pool_allocate (w : world) : nat * world :=
  match free_list w with
  | a :: fl =>
      (a, {| cells := cells w; free_list := fl; next_cell := next_cell w;
             zg_refs := zg_refs w; iter_cache_ := iter_cache_ w |})
  | [] =>
      (next_cell w,
       {| cells := cells w; free_list := []; next_cell := S (next_cell w);
          zg_refs := zg_refs w; iter_cache_ := iter_cache_ w |})
  end.

(** [fixed_size_pool::deallocate] *)
Definition pool_deallocate (a : nat) (w : world) : world :=
  {| cells := cells w; free_list := a :: free_list w;
     next_cell := next_cell w; zg_refs := zg_refs w;
     iter_cache_ := iter_cache_ w |}.

Definition zg_count (w : world) (z : shared_state_ptr_t) : Z :=
  default 0 (zg_refs w !! zg_id z).

(** Copying, resp. destroying, a [shared_state_ptr_t]. *)
Definition zg_acquire (z : shared_state_ptr_t) (w : world) : world :=
  set_zg_refs (λ r, <[ zg_id z := default 0 (r !! zg_id z) + 1 ]> r) w.

Definition zg_release (z : shared_state_ptr_t) (w : world) : world :=
  set_zg_refs (λ r, <[ zg_id z := default 0 (r !! zg_id z) - 1 ]> r) w.

Definition set_count (c : Z) (s : tcltl_state) : tcltl_state :=
  {| hash_val_ := hash_val_ s; count_ := c; zg_state_ := zg_state_ s |}.

(** [tcltl_state::clone]: [++count_], and the same handle is returned. *)
Definition clone (a : nat) (w : world) : nat * world :=
  (a, set_cells (alter (λ s, set_count (wrap32 (count_ s + 1)) s) a) w).

(** [tcltl_state::destroy]: [--count_]; when it reaches zero the object
    is destructed (which destroys [zg_state_]) and its cell goes back to
    the pool.  Destroying what is not a live handle is undefined in the
    source and changes nothing here. *)
Definition destroy (a : nat) (w : world) : world :=
  match cells w !! a with
  | None => w
  | Some s =>
      let c := wrap32 (count_ s - 1) in
      if decide (c ≠ 0)
      then set_cells (insert a (set_count c s)) w
      else pool_deallocate a
             (zg_release (zg_state_ s) (set_cells (delete a) w))
  end.

(** [tcltl_state::hash] *)
Definition hash (a : nat) (w : world) : option Z :=
  hash_val_ <$> cells w !! a.

(** [tcltl_state::compare] *)
Definition compare (this other : nat) (w : world) : option Z :=
  if decide (this = other) then Some 0
  else
    s ← cells w !! this;
    o ← cells w !! other;
    Some (if decide (hash_val_ s < hash_val_ o) then -1
          else if decide (hash_val_ s > hash_val_ o) then 1
          else if decide (zg_obj (zg_state_ s) ≠ zg_obj (zg_state_ o))
               then 1 else 0).

(** ** Formulas and the shared dictionary (external: Spot)

    Of a [spot::formula] the adapter looks at three things: whether it
    is the constant false, the constant true, or an atomic proposition (and
    then its name).  [f_other] stands for every other formula. *)

Inductive formula : Type :=
| f_ff
| f_tt
| f_ap (name : string)
| f_other (id : nat).

Global Instance formula_eq_dec : EqDecision formula.
Proof. solve_decision. Defined.

Definition formula_encode (f : formula) : (bool + string) + nat :=
  match f with
  | f_ff => inl (inl false)
  | f_tt => inl (inl true)
  | f_ap n => inl (inr n)
  | f_other i => inr i
  end.

Definition formula_decode (x : (bool + string) + nat) : formula :=
  match x with
  | inl (inl false) => f_ff
  | inl (inl true) => f_tt
  | inl (inr n) => f_ap n
  | inr i => f_other i
  end.

Lemma formula_decode_encode (f : formula) :
  formula_decode (formula_encode f) = f.
Proof. by destruct f. Qed.

Global Instance formula_countable : Countable formula :=
  inj_countable' formula_encode formula_decode formula_decode_encode.

(** [spot::bdd_dict]: every registered formula has one BDD variable and
    the set of the owners that registered it (owners are addresses). *)
Abbreviation bdd_dict := (gmap formula (nat * gset nat)).

(** The variables in use. *)
Definition dict_vars (d : bdd_dict) : gset nat := map_img (fst <$> d).

(** [bdd_dict::register_proposition(f, for_me)]: the variable of [f],
    taken from the unused ones when [f] is not registered yet; [for_me]
    joins the owners of that variable. *)
Definition register_proposition (f : formula) (for_me : nat) (d : bdd_dict)
    : nat * bdd_dict :=
  match d !! f with
  | Some (v, refs) => (v, <[ f := (v, {[ for_me ]} ∪ refs) ]> d)
  | None =>
      let v := fresh (dict_vars d) in
      (v, <[ f := (v, {[ for_me ]}) ]> d)
  end.

(** [bdd_dict::unregister_all_my_variables(me)]: [me] leaves the owners
    of every variable it owns; a variable left without owner is freed. *)
Definition unregister_all_my_variables (me : nat) (d : bdd_dict)
    : bdd_dict :=
  omap (λ e : nat * gset nat,
          if decide (me ∈ e.2) then
            if decide (e.2 ∖ {[ me ]} = ∅) then None
            else Some (e.1, e.2 ∖ {[ me ]})
          else Some e) d.

(** ** Compiled atomic propositions *)

Inductive relop : Type :=
| OP_EQ | OP_NE | OP_LT | OP_GT | OP_LE | OP_GE | OP_AT.

Global Instance relop_eq_dec : EqDecision relop.
Proof. solve_decision. Defined.

Record one_prop : Type := {
  var_num : nat;
  op : relop;
  val : Z;
  bddvar : nat          (* if "var_num op val" is true, output bddvar,
                           else its negation *)
}.

Global Instance one_prop_eq_dec : EqDecision one_prop.
Proof. solve_decision. Defined.

Abbreviation prop_list := (list one_prop).

(** ** The Kripke adapter *)

(** The transition system built by tchecker: the range of initial states
    and the range of the successors of a state. *)
Record zg_ts : Type := {
  initial : list shared_state_ptr_t;
  outgoing : zg_state → list shared_state_ptr_t
}.

Record tcltl_kripke : Type := {
  ts_ : zg_ts;
  ps_ : prop_list;
  alive_prop : bdd;
  dead_prop : bdd
}.

(** The constructor of [tcltl_kripke]; [this] is the address of the
    object, the owner of the dead proposition in the dictionary. *)
Definition new_tcltl_kripke (ts : zg_ts) (d : bdd_dict) (ps : prop_list)
    (dead : formula) (this : nat) : bdd_dict * tcltl_kripke :=
  match dead with
  | f_ff =>
      (d, {| ts_ := ts; ps_ := ps;
             alive_prop := bddtrue; dead_prop := bddfalse |})
  | f_tt =>
      (d, {| ts_ := ts; ps_ := ps;
             alive_prop := bddtrue; dead_prop := bddtrue |})
  | _ =>
      let '(var, d') := register_proposition dead this d in
      (d', {| ts_ := ts; ps_ := ps;
              alive_prop := bdd_nithvar var; dead_prop := bdd_ithvar var |})
  end.

(** The truth value of one compiled proposition in a state.  Reading
    [vloc] or the valuation out of range is undefined in the source; the
    tables of a loaded model never do, and the embedding answers [false]
    (resp.  reads [0]) there. *)
Definition prop_holds (zs : zg_state) (prop : one_prop) : bool :=
  match op prop with
  | OP_AT =>
      match vloc zs !! var_num prop with
      | Some id => bool_decide (Z.of_nat id = wrap32 (val prop))
      | None => false
      end
  | o =>
      let ref := val prop in
      let val := default 0 (intvars_valuation zs !! var_num prop) in
      match o with
      | OP_EQ => bool_decide (val = ref)
      | OP_NE => bool_decide (val ≠ ref)
      | OP_LT => bool_decide (val < ref)
      | OP_GT => bool_decide (val > ref)
      | OP_LE => bool_decide (val <= ref)
      | OP_GE => bool_decide (val >= ref)
      | OP_AT => false
      end
  end.

(** [tcltl_kripke::state_condition] *)
Definition state_condition (k : tcltl_kripke) (zs : zg_state) : bdd :=
  fold_left
    (λ cond prop,
       bdd_and cond
         ((if prop_holds zs prop then bdd_ithvar else bdd_nithvar)
            (bddvar prop)))
    (ps_ k) bddtrue.

Section Handle.

(** The structural hash of tchecker ([size_t hash_value(state const &)]). *)
Variable hash_value : zg_state → Z.

(** [new(statepool_.allocate()) tcltl_state(&statepool_, zg)] *)
Definition new_tcltl_state (zg : shared_state_ptr_t) (w : world)
    : nat * world :=
  let '(a, w1) := pool_allocate w in
  let obj := {| hash_val_ := wrap32 (hash_value (zg_obj zg));
                count_ := 1;
                zg_state_ := zg |} in
  (a, zg_acquire zg (set_cells (insert a obj) w1)).

(** The loop of [get_init_state]. *)
Fixpoint get_init_state_loop (range : list shared_state_ptr_t)
    (first : bool) (res : option nat) (w : world)
    : world * result (option nat) :=
  match range with
  | [] => (w, Ok res)
  | st :: range' =>
      if first then
        let '(a, w') := new_tcltl_state st w in
        get_init_state_loop range' false (Some a) w'
      else
        (w, Throw "multiple initial states not supported")
  end.

(** [tcltl_kripke::get_init_state]; [None] is the null pointer. *)
Definition get_init_state (k : tcltl_kripke) (w : world)
    : world * result (option nat) :=
  get_init_state_loop (initial (ts_ k)) true None w.

(** The first loop of [succ_iter]: one fresh handle per successor, in
    order. *)
Fixpoint succ_iter_loop (range : list shared_state_ptr_t)
    (transitions : list nat) (w : world) : list nat * world :=
  match range with
  | [] => (transitions, w)
  | st :: range' =>
      let '(res, w') := new_tcltl_state st w in
      succ_iter_loop range' (transitions ++ [res]) w'
  end.

(** [~callback_context]: every handle of the batch is released. *)
Definition delete_cc (transitions : list nat) (w : world) : world :=
  fold_left (λ w t, destroy t w) transitions w.

(** [tcltl_kripke::succ_iter]; [None] when [st] is not a live handle
    (undefined in the source). *)
Definition succ_iter (k : tcltl_kripke) (st : nat) (w : world)
    : option (tcltl_succ_iterator * world) :=
  zs ← cells w !! st;
  let z := zg_state_ zs in
  let '(transitions, w1) := succ_iter_loop (outgoing (ts_ k) (zg_obj z)) [] w in
  let scond := state_condition k (zg_obj z) in
  let '(scond, transitions, w2) :=
    if negb (bool_decide (transitions = [])) then
      (bdd_and scond (alive_prop k), transitions, w1)
    else
      let scond := bdd_and scond (dead_prop k) in
      (* Add a self-loop to dead-states if we care about these. *)
      if decide (scond ≠ bddfalse) then
        let '(c, w') := clone st w1 in (scond, transitions ++ [c], w')
      else (scond, transitions, w1) in
  match iter_cache_ w2 with
  | Some it =>
      (* recycle *)
      let w3 := set_iter_cache None (delete_cc (cc_transitions it) w2) in
      Some ({| cc_transitions := transitions; cond_ := scond;
               it_ := it_ it |}, w3)
  | None =>
      Some ({| cc_transitions := transitions; cond_ := scond; it_ := 0 |},
            w2)
  end.

End Handle.

(** The iteration protocol. *)
Definition first (i : tcltl_succ_iterator) : bool * tcltl_succ_iterator :=
  (negb (bool_decide (cc_transitions i = [])),
   {| cc_transitions := cc_transitions i; cond_ := cond_ i; it_ := 0 |}).

Definition next (i : tcltl_succ_iterator) : bool * tcltl_succ_iterator :=
  (bool_decide (S (it_ i) ≠ length (cc_transitions i)),
   {| cc_transitions := cc_transitions i; cond_ := cond_ i;
      it_ := S (it_ i) |}).

Definition done (i : tcltl_succ_iterator) : bool :=
  bool_decide (it_ i = length (cc_transitions i)).

Definition dst (i : tcltl_succ_iterator) (w : world)
    : option (nat * world) :=
  t ← cc_transitions i !! it_ i;
  Some (clone t w).

(** ** The proposition compiler *)

(** What [convert_aps] reads of the model: the index of the integer
    variables, the index of the processes, and the locations by process
    name and location name.  A lookup that throws [std::invalid_argument]
    in the source is [None] here.  The identifiers are small indices, so
    their conversion to [int] is the identity and only the [-1] of the
    [catch] clauses is negative. *)
Record model_t : Type := {
  intvars_index : gmap string nat;
  processes : gmap string nat;
  locations : gmap (string * string) nat;
  model_ts : zg_ts
}.

Definition nl : string := String "010"%char EmptyString.

Definition is_blank (c : ascii) : bool :=
  (c =? " ")%char || (c =? "009")%char.

(** [std::string::c_str] read as a C string: it ends at the first NUL. *)
Fixpoint c_str (s : string) : string :=
  match s with
  | EmptyString => EmptyString
  | String c s' =>
      if (c =? "000")%char then EmptyString else String c (c_str s')
  end.

(** [while ( *s && ( *s == ' ' || *s == '\t')) ++s;] *)
Fixpoint skip_blanks (s : string) : string :=
  match s with
  | EmptyString => EmptyString
  | String c s' => if is_blank c then skip_blanks s' else s
  end.

Definition is_relop_start (c : ascii) : bool :=
  (c =? "=")%char || (c =? "<")%char || (c =? "!")%char || (c =? ">")%char.

(** The loop copying the name: blanks are dropped, the position of the
    last dot in the copy is remembered, and the scan stops at the first
    character that can start a comparator.  The result is the copied name,
    the position of its last dot and the rest of the input. *)
Fixpoint scan_name (s name : string) (lastdot : option nat)
    : string * option nat * string :=
  match s with
  | EmptyString => (name, lastdot, s)
  | String c s' =>
      if is_relop_start c then (name, lastdot, s)
      else if is_blank c then scan_name s' name lastdot
      else
        scan_name s' (name +:+ String c EmptyString)
          (if (c =? ".")%char then Some (String.length name) else lastdot)
  end.

(** The [switch] on the comparator; [None] is [report_error]. *)
Definition parse_relop (s : string) : option (relop * string) :=
  match s with
  | EmptyString => None
  | String c s1 =>
      let next_is_eq :=
        match s1 with
        | String c1 _ => (c1 =? "=")%char
        | EmptyString => false
        end in
      let s2 := match s1 with String _ r => r | EmptyString => s1 end in
      if (c =? "!")%char then
        if next_is_eq then Some (OP_NE, s2) else None
      else if (c =? "=")%char then
        if next_is_eq then Some (OP_EQ, s2) else None
      else if (c =? "<")%char then
        if next_is_eq then Some (OP_LE, s2) else Some (OP_LT, s1)
      else if (c =? ">")%char then
        if next_is_eq then Some (OP_GE, s2) else Some (OP_GT, s1)
      else None
  end.

(** [strtol(s, &s_end, 10)] of the C library: white space, an optional
    sign, decimal digits; the value saturates at the bounds of [long];
    without a digit nothing is consumed. *)
Definition isspace (c : ascii) : bool :=
  let n := nat_of_ascii c in
  ((9 <=? n)%nat && (n <=? 13)%nat) || (n =? 32)%nat.

Definition digit_val (c : ascii) : option Z :=
  let n := nat_of_ascii c in
  if ((48 <=? n)%nat && (n <=? 57)%nat)%bool
  then Some (Z.of_nat n - 48) else None.

Fixpoint skip_space (s : string) : string :=
  match s with
  | EmptyString => EmptyString
  | String c s' => if isspace c then skip_space s' else s
  end.

Definition clamp_long (x : Z) : Z := Z.max LONG_MIN (Z.min LONG_MAX x).

Fixpoint strtol_digits (s : string) (neg : bool) (acc : Z) : Z * string :=
  match s with
  | EmptyString => (acc, s)
  | String c s' =>
      match digit_val c with
      | Some d =>
          strtol_digits s' neg
            (clamp_long (if neg then acc * 10 - d else acc * 10 + d))
      | None => (acc, s)
      end
  end.

Definition strtol (s : string) : Z * string :=
  let s1 := skip_space s in
  let '(neg, s2) :=
    match s1 with
    | String c r =>
        if (c =? "-")%char then (true, r)
        else if (c =? "+")%char then (false, r)
        else (false, s1)
    | EmptyString => (false, s1)
    end in
  match s2 with
  | String c _ =>
      if digit_val c is Some _ then strtol_digits s2 neg 0 else (0, s)
  | EmptyString => (0, s)
  end.

(** The outcome of one turn of the loop of [convert_aps], before the
    registration in the dictionary: the rule to record, or the message
    appended to [err]. *)
Inductive compiled : Type :=
| Rule (var_num : nat) (op : relop) (val : Z)
| Error (msg : string).

Definition is_empty (s : string) : bool :=
  match s with EmptyString => true | _ => false end.

(** The body of the loop of [convert_aps] for the proposition named
    [str]. *)
Definition convert_ap (model : model_t) (str : string) : compiled :=
  let s := skip_blanks (c_str str) in
  if is_empty s then
    Error ("Proposition `" +:+ str +:+ "' cannot be parsed." +:+ nl)
  else
  let '(name, lastdot, s) := scan_name s EmptyString None in
  if is_empty name then
    Error ("Proposition `" +:+ str +:+ "' cannot be parsed." +:+ nl)
  else
  match intvars_index model !! name with
  | None =>
      (* We may have a name such as X.Y.Z *)
      let name' :=
        match lastdot with
        | Some i => substring 0 i name
        | None => name
        end in
      let procid :=
        match lastdot with
        | Some _ => processes model !! name'
        | None => None
        end in
      match procid, lastdot with
      | Some procid, Some i =>
          let lastdot := substring (S i) (String.length name - S i) name in
          match locations model !! (name', lastdot) with
          | None =>
              Error ("No location `" +:+ lastdot
                     +:+ "' known for process `" +:+ name' +:+ "'." +:+ nl)
          | Some varid =>
              if negb (is_empty s) then
                Error ("Trailing garbage `" +:+ s
                       +:+ "' at end of proposition `" +:+ str
                       +:+ "'." +:+ nl)
              else Rule procid OP_AT (Z.of_nat varid)
          end
      | _, _ =>
          Error ("No variable or process `" +:+ name'
                 +:+ "' found in model (for proposition `" +:+ str
                 +:+ "')." +:+ nl)
      end
  | Some varid =>
      if is_empty s then Rule varid OP_NE 0   (* No operator?  Assume "!= 0". *)
      else
      match parse_relop s with
      | None =>
          Error ("Unexpected `" +:+ s
                 +:+ "' while parsing atomic proposition `" +:+ str
                 +:+ "'." +:+ nl)
      | Some (op, s) =>
          let s := skip_blanks s in
          let '(val, s_end) := strtol s in
          if decide (s = s_end) then
            Error ("Failed to parse `" +:+ s +:+ "' as an integer." +:+ nl)
          else
          let s := skip_blanks s_end in
          if negb (is_empty s) then
            Error ("Unexpected `" +:+ s
                   +:+ "' while parsing atomic proposition `" +:+ str
                   +:+ "'." +:+ nl)
          else Rule varid op (to_int val)
      end
  end.

(** The loop of [convert_aps] over the set of propositions (in the order
    of the set); [out_owner] is the address of [out], the owner of the
    registrations.  [errors] is an [int] incremented once per message; a
    set of propositions is far from holding 2^31 of them, and overflowing
    a signed integer is undefined, so it is counted in [Z]. *)
Fixpoint convert_aps_loop (model : model_t) (aps : list string)
    (dead : formula) (out_owner : nat) (d : bdd_dict) (out : prop_list)
    (errors : Z) (err : string)
    : bdd_dict * prop_list * Z * string :=
  match aps with
  | [] => (d, out, errors, err)
  | ap :: aps' =>
      if decide (f_ap ap = dead) then
        convert_aps_loop model aps' dead out_owner d out errors err
      else
        match convert_ap model ap with
        | Error msg =>
            convert_aps_loop model aps' dead out_owner d out
              (errors + 1) (err +:+ msg)
        | Rule var_num op val =>
            let '(v, d') := register_proposition (f_ap ap) out_owner d in
            let p := {| var_num := var_num; op := op; val := val;
                        bddvar := v |} in
            convert_aps_loop model aps' dead out_owner d' (out ++ [p])
              errors err
        end
  end.

(** [convert_aps]: the dictionary and [out] after the call, and whether
    it threw.  The text of a thrown error is what its handlers read, the C
    string [what()]: of [std::runtime_error(err.str())] that is [err] up to
    its first NUL. *)
Definition convert_aps (aps : list string) (model : model_t)
    (d : bdd_dict) (dead : formula) (out_owner : nat) (out : prop_list)
    : bdd_dict * prop_list * result unit :=
  let '(d', out', errors, err) :=
    convert_aps_loop model aps dead out_owner d out 0 EmptyString in
  if decide (errors ≠ 0) then (d', out', Throw (c_str err))
  else (d', out', Ok tt).

(** [tc_model::kripke]; [ps] is the address of the new [prop_list] and
    [this] the address of the new [tcltl_kripke]. *)
Definition tc_model_kripke (model : model_t) (to_observe : list string)
    (d : bdd_dict) (dead : formula) (ps this : nat)
    : bdd_dict * result tcltl_kripke :=
  let '(d1, out, r) := convert_aps to_observe model d dead ps [] in
  match r with
  | Throw what => (unregister_all_my_variables ps d1, Throw what)
  | Ok _ =>
      let '(d2, res) := new_tcltl_kripke (model_ts model) d1 out dead this in
      let d3 :=
        fold_left (λ d ap, (register_proposition (f_ap ap) this d).2)
          to_observe d2 in
      let d4 :=
        match dead with
        | f_ap _ => (register_proposition dead this d3).2
        | _ => d3
        end in
      (d4, Ok res)
  end.

(** ** The command-line driver *)

(** What the driver gets from Spot and tchecker: the formula parser (did
    it report errors; the atomic propositions of the negated formula), the
    loader of models, the default value of the parameter [dead] of
    [tc_model::kripke] (declared in [tcltl.hh]), and the algorithms that
    explore the Kripke structure, any of which may throw. *)
Record driver_env : Type := {
  format_errors : string → bool;
  atomic_prop_collect : string → list string;
  load : string → result model_t;
  default_dead : formula;
  make_twa_graph : tcltl_kripke → result unit;
  intersecting_run : tcltl_kripke → string → result bool;
  print_dot : tcltl_kripke → result unit
}.

(** What the driver writes. *)
Inductive output : Type :=
| Usage
| FormulaErrors
| Violated
| CounterexampleDot
| Verified
| StructureDot
| ModelInfo
| LogError (what : string).

(** The owners that the driver's objects are for the dictionary: the
    automaton of the formula, the proposition list and the Kripke
    structure. *)
Definition af_owner : nat := 0.
Definition ps_owner : nat := 1.
Definition kripke_owner : nat := 2.

(** The [try] block of [main]. *)
Definition main_body (env : driver_env) (filename : string)
    (f : option string) (dot : bool) : result (Z * list output) :=
  match load env filename with
  | Throw what => Throw what
  | Ok m =>
      match f with
      | Some orig_formula =>
          let ap := atomic_prop_collect env orig_formula in
          let dict :=
            fold_left (λ d a, (register_proposition (f_ap a) af_owner d).2)
              ap (∅ : bdd_dict) in
          match tc_model_kripke m ap dict (default_dead env)
                  ps_owner kripke_owner with
          | (_, Throw what) => Throw what
          | (_, Ok k) =>
              match (if dot then make_twa_graph env k else Ok tt) with
              | Throw what => Throw what
              | Ok _ =>
                  match intersecting_run env k orig_formula with
                  | Throw what => Throw what
                  | Ok true =>
                      if negb dot then Ok (1, [Violated])
                      else
                        match print_dot env k with
                        | Throw what => Throw what
                        | Ok _ => Ok (1, [CounterexampleDot])
                        end
                  | Ok false => Ok (0, [Verified])
                  end
              end
          end
      | None =>
          if dot then
            match tc_model_kripke m [] ∅ (default_dead env)
                    ps_owner kripke_owner with
            | (_, Throw what) => Throw what
            | (_, Ok k) =>
                match print_dot env k with
                | Throw what => Throw what
                | Ok _ => Ok (0, [StructureDot])
                end
            end
          else Ok (0, [ModelInfo])
      end
  end.

(** [main]: the exit code and what was written. *)
Definition main (env : driver_env) (argv : list string)
    : Z * list output :=
  let argc := Z.of_nat (length argv) in
  if decide (argc < 2 ∨ argc > 4) then (1, [Usage])
  else
    let dot :=
      bool_decide (argc > 1 ∧ argv !! Z.to_nat (argc - 1) = Some "-D"%string) in
    let argc := if dot then argc - 1 else argc in
    let parsed :=
      if decide (argc >= 3) then
        let orig_formula := default EmptyString (argv !! 2%nat) in
        if format_errors env orig_formula then None
        else Some (Some orig_formula)
      else Some None in
    match parsed with
    | None => (1, [FormulaErrors])
    | Some f =>
        match main_body env (default EmptyString (argv !! 1%nat)) f dot with
        | Throw what => (2, [LogError what])
        | Ok r => r
        end
    end.


(** ** Sample data *)

Definition empty_world : world :=
  {| cells := ∅; free_list := []; next_cell := 0%nat; zg_refs := ∅;
     iter_cache_ := None |}.

(** A hash that only looks at the sum of the integer variables: states
    that differ elsewhere collide. *)
Definition sum_hash (z : zg_state) : Z :=
  fold_right Z.add 0 (intvars_valuation z).

Definition zg_a : shared_state_ptr_t :=
  {| zg_id := 10; zg_obj := {| vloc := [0%nat]; intvars_valuation := [1; 2];
                               zone := [] |} |}.
Definition zg_b : shared_state_ptr_t :=
  {| zg_id := 11; zg_obj := {| vloc := [1%nat]; intvars_valuation := [2; 1];
                               zone := [] |} |}.
Definition zg_c : shared_state_ptr_t :=
  {| zg_id := 12; zg_obj := {| vloc := [1%nat]; intvars_valuation := [5; 0];
                               zone := [] |} |}.

(** A pool with one handle for each of [zg_a], [zg_b] and [zg_c], at the
    cells 0, 1 and 2. *)
Definition world_abc : world :=
  (new_tcltl_state sum_hash zg_c
     (new_tcltl_state sum_hash zg_b
        (new_tcltl_state sum_hash zg_a empty_world).2).2).2.

(** The pool hands out cells that hold no object: the cells of the free
    list and the cells never handed out are empty, and no cell is twice in
    the free list. *)
Definition pool_wf (w : world) : Prop :=
  NoDup (free_list w) ∧
  (∀ a, a ∈ free_list w → cells w !! a = None) ∧
  (∀ a, (next_cell w ≤ a)%nat → cells w !! a = None) ∧
  (∀ a, a ∈ free_list w → (a < next_cell w)%nat).


(** [k] calls of [clone], resp. [j] calls of [destroy], on the handle
    [a]. *)
Definition clone_n (a : nat) (k : N) (w : world) : world :=
  N.iter k (λ w, (clone a w).2) w.

Definition destroy_n (a : nat) (j : N) (w : world) : world :=
  N.iter j (destroy a) w.

(** A handle allocated for [zg] in [w] and cloned [k] times is live after
    each of the first [k] calls of [destroy] and destructed by the next
    one. *)
Definition survives_releases (hash_value : zg_state → Z)
    (zg : shared_state_ptr_t) (w : world) (k : N) : Prop :=
  let a := (new_tcltl_state hash_value zg w).1 in
  let w1 := clone_n a k (new_tcltl_state hash_value zg w).2 in
  (∀ j, (j <= k)%N → is_Some (cells (destroy_n a j w1) !! a)) ∧
  cells (destroy_n a (k + 1) w1) !! a = None.

(** The operations on handles, to speak of the lifetime of one of them. *)
Inductive handle_op : Type :=
| op_clone (a : nat)
| op_destroy (a : nat)
| op_new (zg : shared_state_ptr_t).

Definition apply_op (hash_value : zg_state → Z) (o : handle_op)
    (w : world) : world :=
  match o with
  | op_clone a => (clone a w).2
  | op_destroy a => destroy a w
  | op_new zg => (new_tcltl_state hash_value zg w).2
  end.

Definition run_ops (hash_value : zg_state → Z) (ops : list handle_op)
    (w : world) : world :=
  fold_left (λ w o, apply_op hash_value o w) ops w.

(** The handle [a] is live after every operation of [ops]. *)
Fixpoint live_through (hash_value : zg_state → Z) (a : nat)
    (ops : list handle_op) (w : world) : Prop :=
  match ops with
  | [] => True
  | o :: ops' =>
      is_Some (cells (apply_op hash_value o w) !! a) ∧
      live_through hash_value a ops' (apply_op hash_value o w)
  end.

(** The number of calls of [destroy] that a counter of value [c] stands
    for: the counter reaches zero again after that many decrements. *)
Definition releases_left (c : Z) : Z := if decide (c = 0) then 2 ^ 32 else c.

(** Transition systems with two, resp. no, initial states, and one where
    [zg_a] has the successors [zg_b] and [zg_c] and these have none. *)
Definition ts_two_init : zg_ts :=
  {| initial := [zg_a; zg_b]; outgoing := λ _, [] |}.

Definition ts_no_init : zg_ts :=
  {| initial := []; outgoing := λ _, [] |}.

Definition ts_fork : zg_ts :=
  {| initial := [zg_a];
     outgoing := λ z, if decide (z = zg_obj zg_a) then [zg_b; zg_c] else [] |}.

(** Adapters over these, with no observed proposition and the dead
    formula [true]. *)
Definition kripke_two_init : tcltl_kripke :=
  (new_tcltl_kripke ts_two_init ∅ [] f_tt kripke_owner).2.

Definition kripke_no_init : tcltl_kripke :=
  (new_tcltl_kripke ts_no_init ∅ [] f_tt kripke_owner).2.

(** ** Invariants of the dictionary and of the adapter *)

(** Distinct formulas have distinct variables. *)
Definition dict_wf (d : bdd_dict) : Prop :=
  ∀ f1 f2 v r1 r2,
    d !! f1 = Some (v, r1) → d !! f2 = Some (v, r2) → f1 = f2.

(** Every formula registered in [d] is registered in [d'], with the same
    variable. *)
Definition dict_le (d d' : bdd_dict) : Prop :=
  ∀ f v r, d !! f = Some (v, r) → ∃ r', d' !! f = Some (v, r').

(** The entry [p] of a proposition list is what [convert_aps] records for
    some proposition, other than [dead], whose variable in [d] is
    [bddvar p]. *)
Definition registered_in (model : model_t) (dead : formula) (d : bdd_dict)
    (p : one_prop) : Prop :=
  ∃ str r,
    f_ap str ≠ dead ∧
    convert_ap model str = Rule (var_num p) (op p) (val p) ∧
    d !! f_ap str = Some (bddvar p, r).

(** What the construction by [tc_model::kripke] guarantees: two entries
    of the proposition list with the same variable are the same rule, the
    pair (alive, dead) is one of the three of the constructor, and the
    variable of the dead proposition is not a variable of the list. *)
Definition kripke_wf (dead : formula) (k : tcltl_kripke) : Prop :=
  (∀ p q, p ∈ ps_ k → q ∈ ps_ k → bddvar p = bddvar q →
          var_num p = var_num q ∧ op p = op q ∧ val p = val q) ∧
  match dead with
  | f_ff => alive_prop k = bddtrue ∧ dead_prop k = bddfalse
  | f_tt => alive_prop k = bddtrue ∧ dead_prop k = bddtrue
  | _ => ∃ var, alive_prop k = bdd_nithvar var ∧
                dead_prop k = bdd_ithvar var ∧
                ∀ p, p ∈ ps_ k → bddvar p ≠ var
  end.

(** An edge label carries exactly one of the two markers. *)
Definition exactly_one_marker (k : tcltl_kripke) (label : bdd) : Prop :=
  (bdd_implies label (alive_prop k) ∧ ¬ bdd_implies label (dead_prop k)) ∨
  (¬ bdd_implies label (alive_prop k) ∧ bdd_implies label (dead_prop k)).

(** A model over [ts_fork]: two integer variables, one process with two
    locations. *)
Definition model_fork : model_t :=
  {| intvars_index := {[ "x"%string := 0%nat; "y"%string := 1%nat ]};
     processes := {[ "P"%string := 0%nat ]};
     locations := {[ ("P"%string, "idle"%string) := 0%nat;
                     ("P"%string, "busy"%string) := 1%nat ]};
     model_ts := ts_fork |}.

Definition observed : list string :=
  [ "P.idle"; "dead"; "x"; "y<2" ]%string.

Definition kripke_or (r : result tcltl_kripke) : tcltl_kripke :=
  match r with Ok k => k | Throw _ => kripke_no_init end.

(** The adapters for [model_fork] whose dead formula is the proposition
    [dead], resp. [true]. *)
Definition kripke_fork_dead : tcltl_kripke :=
  kripke_or (tc_model_kripke model_fork observed ∅ (f_ap "dead")
               ps_owner kripke_owner).2.

Definition kripke_fork_tt : tcltl_kripke :=
  kripke_or (tc_model_kripke model_fork [ "P.idle"; "x" ]%string ∅ f_tt
               ps_owner kripke_owner).2.

(** A driver environment: the formula [G(] does not parse, the model file
    [fork] loads as [model_fork] and no other file loads, and the
    emptiness check finds a run against [G(P.idle)] only. *)
Definition sample_env : driver_env :=
  {| format_errors := λ f, bool_decide (f = "G("%string);
     atomic_prop_collect :=
       λ f, if decide (f = "G(P.idle)"%string) then [ "P.idle"%string ]
            else [];
     load :=
       λ file, if decide (file = "fork"%string) then Ok model_fork
               else Throw "system declaration could not be built";
     default_dead := f_tt;
     make_twa_graph := λ _, Ok tt;
     intersecting_run := λ _ f, Ok (bool_decide (f = "G(P.idle)"%string));
     print_dot := λ _, Ok tt |}.

(** ** The parts of a scanned name *)

(** The name of the process: what precedes the last dot of the name (the
    whole name when it has no dot). *)
Definition process_part (name : string) (lastdot : option nat) : string :=
  match lastdot with
  | Some i => substring 0 i name
  | None => name
  end.

(** The name of the location: what follows the last dot, if any. *)
Definition location_part (name : string) (lastdot : option nat)
    : option string :=
  match lastdot with
  | Some i => Some (substring (S i) (String.length name - S i) name)
  | None => None
  end.

(** A text without blank, without character that starts a comparator and
    without NUL: an identifier, possibly with dots. *)
Fixpoint plain (s : string) : bool :=
  match s with
  | EmptyString => true
  | String c s' =>
      negb (is_blank c) && negb (is_relop_start c)
      && negb (c =? "000")%char && plain s'
  end.

(** [needle] occurs in [s]. *)
Definition occurs_in (needle s : string) : Prop :=
  ∃ before after, s = before +:+ needle +:+ after.

(** The decision of [occurs_in]. *)
Fixpoint is_prefix (p s : string) : bool :=
  match p, s with
  | EmptyString, _ => true
  | String a p', String b s' => (a =? b)%char && is_prefix p' s'
  | String _ _, EmptyString => false
  end.

Fixpoint contains (needle s : string) : bool :=
  is_prefix needle s ||
  match s with
  | EmptyString => false
  | String _ s' => contains needle s'
  end.

(** ** Batches of propositions *)

(** The propositions of a batch that [convert_aps] compiles: all but the
    dead one. *)
Definition attempted (dead : formula) (aps : list string) : list string :=
  filter (λ ap, f_ap ap ≠ dead) aps.

(** The message of a proposition that does not compile. *)
Definition diagnostic (model : model_t) (ap : string) : option string :=
  match convert_ap model ap with
  | Error msg => Some msg
  | Rule _ _ _ => None
  end.

(** The messages of a batch, in order, and the propositions of the batch
    that compile. *)
Definition diagnostics (model : model_t) (dead : formula)
    (aps : list string) : list string :=
  omap (diagnostic model) (attempted dead aps).

Definition well_formed_props (model : model_t) (dead : formula)
    (aps : list string) : list string :=
  filter (λ ap, diagnostic model ap = None) (attempted dead aps).

Definition concat_messages (msgs : list string) : string :=
  foldr String.append EmptyString msgs.

(** The dictionary after [o] registered the propositions [aps]. *)
Definition register_all (o : nat) (aps : list string) (d : bdd_dict)
    : bdd_dict :=
  fold_left (λ d ap, (register_proposition (f_ap ap) o d).2) aps d.

(** In [d] the formula [f] has the variable [v], and [o] is one of its
    owners. *)
Definition owns_var (o : nat) (d : bdd_dict) (f : formula) (v : nat)
    : Prop :=
  ∃ r, d !! f = Some (v, r) ∧ o ∈ r.

(** The entry [p] is the rule of the proposition [ap], with the variable
    that [o] owns for it in [d]. *)
Definition entry_of (model : model_t) (o : nat) (d : bdd_dict)
    (ap : string) (p : one_prop) : Prop :=
  convert_ap model ap = Rule (var_num p) (op p) (val p) ∧
  owns_var o d (f_ap ap) (bddvar p).

(** A batch of five propositions: the second names nothing in
    [model_fork], the fifth lacks its integer, the fourth is the dead
    proposition. *)
Definition batch : list string :=
  [ "x"; "foo"; "P.idle"; "dead"; "y<" ]%string.

(** ** Traversals, batches and reference counts *)

(** The loop of a consumer over an iterator:
    [for (it->first(); !it->done(); it->next()) ... it->dst() ...],
    collecting the handles that [dst] returns.  [fuel] bounds the number of
    turns. *)
Fixpoint visit (fuel : nat) (i : tcltl_succ_iterator) (w : world)
    (seen : list nat) : list nat * world :=
  if done i then (seen, w)
  else
    match fuel with
    | O => (seen, w)
    | S fuel' =>
        match dst i w with
        | Some (t, w') => visit fuel' (next i).2 w' (seen ++ [t])
        | None => (seen, w)
        end
    end.

Definition traverse (fuel : nat) (i : tcltl_succ_iterator) (w : world)
    : list nat * world :=
  visit fuel (first i).2 w [].

(** One more reference on each handle of a list, in order. *)
Definition clone_all (ts : list nat) (w : world) : world :=
  fold_left (λ w t, (clone t w).2) ts w.

(** The number of pointers of [zs] to the zone-graph state [z]. *)
Definition zg_occurrences (z : shared_state_ptr_t)
    (zs : list shared_state_ptr_t) : Z :=
  Z.of_nat (length (filter (λ z', zg_id z' = zg_id z) zs)).

(** The handle at [a] is freshly constructed for [z]: one reference, the
    hash of [z] truncated to [unsigned]. *)
Definition fresh_handle_for (hash_value : zg_state → Z) (w : world)
    (z : shared_state_ptr_t) (a : nat) : Prop :=
  cells w !! a
  = Some {| hash_val_ := wrap32 (hash_value (zg_obj z)); count_ := 1;
            zg_state_ := z |}.

(** ** Texts of comparisons *)

(** The decimal digit [d], the text of a list of digits and its value. *)
Definition digit_char (d : nat) : ascii := ascii_of_nat (48 + d).

Fixpoint digits_string (ds : list nat) : string :=
  match ds with
  | [] => EmptyString
  | d :: ds' => String (digit_char d) (digits_string ds')
  end.

Definition horner (acc : Z) (ds : list nat) : Z :=
  fold_left (λ a d, a * 10 + Z.of_nat d) ds acc.

Definition digits_value (ds : list nat) : Z := horner 0 ds.

(** The text of a comparator. *)
Definition relop_text (o : relop) : string :=
  match o with
  | OP_EQ => "=="
  | OP_NE => "!="
  | OP_LT => "<"
  | OP_GT => ">"
  | OP_LE => "<="
  | OP_GE => ">="
  | OP_AT => EmptyString
  end.

Definition sign_text (neg : bool) : string :=
  if neg then "-"%string else EmptyString.

(** A text without NUL. *)
Fixpoint no_nul (s : string) : bool :=
  match s with
  | EmptyString => true
  | String c s' => negb (c =? "000")%char && no_nul s'
  end.

(** A text without dot. *)
Fixpoint no_dot (s : string) : bool :=
  match s with
  | EmptyString => true
  | String c s' => negb (c =? ".")%char && no_dot s'
  end.

(** A text of blanks only. *)
Fixpoint blanks (s : string) : bool :=
  match s with
  | EmptyString => true
  | String c s' => is_blank c && blanks s'
  end.

(** ** The parts of a proposition, in the words of the specification *)

(** The text before the first character that can start a comparator, and
    the text from that character on. *)
Fixpoint before_comparator (s : string) : string :=
  match s with
  | EmptyString => EmptyString
  | String c s' =>
      if is_relop_start c then EmptyString
      else String c (before_comparator s')
  end.

Fixpoint from_comparator (s : string) : string :=
  match s with
  | EmptyString => EmptyString
  | String c s' => if is_relop_start c then s else from_comparator s'
  end.

Fixpoint remove_blanks (s : string) : string :=
  match s with
  | EmptyString => EmptyString
  | String c s' =>
      if is_blank c then remove_blanks s' else String c (remove_blanks s')
  end.

(** The name of a proposition: what precedes its first comparator
    character, blanks removed; and what follows the name. *)
Definition proposition_name (str : string) : string :=
  remove_blanks (before_comparator (c_str str)).

Definition proposition_rest (str : string) : string :=
  from_comparator (c_str str).

(** A name split at its last dot, if it has one. *)
Fixpoint split_last_dot (s : string) : option (string * string) :=
  match s with
  | EmptyString => None
  | String c s' =>
      match split_last_dot s' with
      | Some (p, l) => Some (String c p, l)
      | None => if (c =? ".")%char then Some (EmptyString, s') else None
      end
  end.

(** [lastdot] is the position of the last dot of [name]. *)
Definition dot_at (name : string) (lastdot : option nat) : Prop :=
  match lastdot with
  | None => no_dot name = true
  | Some i =>
      ∃ p l, name = p +:+ "." +:+ l ∧ no_dot l = true ∧ String.length p = i
  end.

(** ** The command line, in the words of the usage message *)

(** [filename [formula] [-D]]: the file, the formula if any, and whether
    [-D] ends the line.  [-D] alone is both the file and the option; a
    fourth argument that is not [-D] comes after the formula. *)
Inductive command_line
    : list string → string → option string → bool → Prop :=
| cl_file (prog file : string) :
    file ≠ "-D"%string → command_line [prog; file] file None false
| cl_dot_alone (prog : string) :
    command_line [prog; "-D"%string] "-D" None true
| cl_file_dot (prog file : string) :
    command_line [prog; file; "-D"%string] file None true
| cl_formula (prog file f : string) :
    f ≠ "-D"%string → command_line [prog; file; f] file (Some f) false
| cl_formula_dot (prog file f : string) :
    command_line [prog; file; f; "-D"%string] file (Some f) true
| cl_formula_more (prog file f x : string) :
    x ≠ "-D"%string → command_line [prog; file; f; x] file (Some f) false.

(** ** Live batches and the meaning of rules *)

(** The handles of [ts] are distinct and live: each call of [destroy]
    that deleting the batch makes is on a live handle. *)
Definition live_batch (ts : list nat) (w : world) : Prop :=
  NoDup ts ∧ ∀ t, t ∈ ts → is_Some (cells w !! t).

(** What a comparator says of two integers. *)
Definition relop_holds (o : relop) (x y : Z) : Prop :=
  match o with
  | OP_EQ => x = y
  | OP_NE => x ≠ y
  | OP_LT => x < y
  | OP_GT => x > y
  | OP_LE => x <= y
  | OP_GE => x >= y
  | OP_AT => False
  end.

(** What a rule says of a state, in the words of the specification: the
    process of an at-location rule is at the location of the rule; the
    variable of a comparison has a value that compares with the constant
    as the comparator says. *)
Definition rule_true (zs : zg_state) (p : one_prop) : Prop :=
  match op p with
  | OP_AT => ∃ id, vloc zs !! var_num p = Some id ∧ Z.of_nat id = val p
  | o =>
      ∃ x, intvars_valuation zs !! var_num p = Some x ∧
           relop_holds o x (val p)
  end.

(** The rule reads a process, resp. a variable, that the state has, and
    the location of an at-location rule is an [unsigned]. *)
Definition rule_in_range (zs : zg_state) (p : one_prop) : Prop :=
  match op p with
  | OP_AT => (var_num p < length (vloc zs))%nat ∧ 0 <= val p < 2 ^ 32
  | _ => (var_num p < length (intvars_valuation zs))%nat
  end.

(** A batch of two propositions that do not compile, the first with a NUL
    in its name. *)
Definition batch_nul : list string :=
  [ String "000"%char EmptyString; "foo"%string ].
(** * Boolean functions *)

Lemma bdd_and_true_r (a : bdd) : bdd_and a bddtrue = a.
Proof.
  destruct a as [m|]; [|done]. unfold bdd_and, bddtrue.
  rewrite decide_True by apply map_agree_empty_r.
  by rewrite (right_id_L ∅ (∪)).
Qed.

Lemma bdd_and_lit (m : gmap nat bool) (v : nat) (b : bool) :
  bdd_and (Some m) (Some {[ v := b ]})
  = match m !! v with
    | None => Some (<[ v := b ]> m)
    | Some b' => if decide (b' = b) then Some m else None
    end.
Proof.
  unfold bdd_and. destruct (m !! v) as [b'|] eqn:E.
  - destruct (decide (b' = b)) as [->|Hb].
    + rewrite decide_True.
      * f_equal. apply map_eq. intros i.
        destruct (decide (i = v)) as [->|Hne].
        -- rewrite lookup_union_l'; by rewrite E.
        -- rewrite lookup_union_l; [done|]. by rewrite lookup_singleton_ne.
      * apply map_agree_spec. intros i x y Hx Hy.
        apply lookup_singleton_Some in Hy as [-> ->]. congruence.
    + rewrite decide_False; [done|].
      rewrite map_agree_spec. intros H. apply Hb.
      apply (H v); [done|]. apply lookup_singleton_eq.
  - rewrite decide_True.
    + f_equal. apply map_eq. intros i. rewrite lookup_union, lookup_insert.
      case_decide.
      * subst. by rewrite E, lookup_singleton_eq.
      * rewrite lookup_singleton_ne by done. by destruct (m !! i).
    + apply map_agree_spec. intros i x y Hx Hy.
      apply lookup_singleton_Some in Hy as [-> ->]. congruence.
Qed.

Lemma bdd_eval_and (rho : nat → bool) (a b : bdd) :
  bdd_eval rho (bdd_and a b) = bdd_eval rho a && bdd_eval rho b.
Proof.
  destruct a as [m1|], b as [m2|]; simpl; try done.
  - case_decide as Hag; simpl.
    + rewrite <- bool_decide_and. apply bool_decide_ext.
      rewrite !map_Forall_lookup. split.
      * intros H. split; intros i x Hx; apply H.
        -- by apply lookup_union_Some_l.
        -- apply lookup_union_Some_raw.
           destruct (m1 !! i) as [y|] eqn:Hy; [|by right].
           left. f_equal. rewrite map_agree_spec in Hag. by apply (Hag i).
      * intros [H1 H2] i x [Hx|[_ Hx]]%lookup_union_Some_raw; eauto.
    + symmetry. apply andb_false_iff.
      destruct (proj1 (map_not_agree m1 m2) Hag)
        as (i & x1 & x2 & H1 & H2 & Hne).
      destruct (decide (rho i = x1)) as [E|E].
      * right. apply bool_decide_eq_false. rewrite map_Forall_lookup.
        intros H. apply Hne. by rewrite <- E, (H i x2 H2).
      * left. apply bool_decide_eq_false. rewrite map_Forall_lookup.
        intros H. apply E. by apply H.
  - by rewrite andb_false_r.
Qed.

(** The canonical assignment of a conjunction of literals. *)
Lemma bdd_eval_self (m : gmap nat bool) (rho : nat → bool) :
  bdd_eval (λ v, default (rho v) (m !! v)) (Some m) = true.
Proof.
  simpl. apply bool_decide_eq_true. rewrite map_Forall_lookup.
  intros i x Hx. by rewrite Hx.
Qed.

Lemma bdd_false_unsat (a : bdd) :
  a = bddfalse ↔ ∀ rho, bdd_eval rho a = false.
Proof.
  split; [by intros ->|]. intros H. destruct a as [m|]; [|done].
  specialize (H (λ v, default false (m !! v))).
  by rewrite bdd_eval_self in H.
Qed.

(** [bdd_implies] is implication. *)
Lemma bdd_implies_sem (a b : bdd) :
  bdd_implies a b ↔ ∀ rho, bdd_eval rho a = true → bdd_eval rho b = true.
Proof.
  unfold bdd_implies. split.
  - intros H rho Ha. rewrite <- H, bdd_eval_and in Ha.
    by apply andb_true_iff in Ha as [_ Hb].
  - intros H. destruct a as [m1|]; [|done].
    destruct b as [m2|].
    + assert (m2 ⊆ m1) as Hsub.
      { apply map_subseteq_spec. intros i x Hx.
        destruct (m1 !! i) as [y|] eqn:Hy.
        - specialize (H _ (bdd_eval_self m1 (λ _, false))). simpl in H.
          apply bool_decide_eq_true in H. rewrite map_Forall_lookup in H.
          specialize (H i x Hx). simpl in H. rewrite Hy in H. by subst.
        - exfalso.
          specialize (H (λ v, default (negb x) (m1 !! v))
                        (bdd_eval_self m1 (λ _, negb x))).
          simpl in H. apply bool_decide_eq_true in H.
          rewrite map_Forall_lookup in H.
          specialize (H i x Hx). simpl in H. rewrite Hy in H. simpl in H.
          by destruct x. }
      unfold bdd_and. rewrite decide_True.
      * f_equal. apply map_eq. intros i. rewrite lookup_union.
        destruct (m1 !! i) as [x|] eqn:Hx, (m2 !! i) as [y|] eqn:Hy; try done.
        eapply lookup_weaken in Hy; [|done]. congruence.
      * apply map_agree_spec. intros i x y Hx Hy.
        eapply lookup_weaken in Hy; [|done]. congruence.
    + specialize (H _ (bdd_eval_self m1 (λ _, false))). done.
Qed.

(** * The dictionary *)

Lemma dict_le_refl (d : bdd_dict) : dict_le d d.
Proof. intros f v r H. eauto. Qed.

Lemma dict_le_trans (d1 d2 d3 : bdd_dict) :
  dict_le d1 d2 → dict_le d2 d3 → dict_le d1 d3.
Proof.
  intros H1 H2 f v r H. apply H1 in H as [r' H]. by apply H2 in H.
Qed.

Lemma dict_vars_spec (d : bdd_dict) (v : nat) :
  v ∈ dict_vars d ↔ ∃ f r, d !! f = Some (v, r).
Proof.
  unfold dict_vars. rewrite elem_of_map_img. split.
  - intros [f H]. rewrite lookup_fmap in H.
    destruct (d !! f) as [[v' r]|] eqn:E; [|done].
    simpl in H. injection H as <-. eauto.
  - intros (f & r & H). exists f. by rewrite lookup_fmap, H.
Qed.

Lemma register_proposition_spec (f : formula) (o : nat) (d : bdd_dict) :
  dict_wf d →
  dict_wf (register_proposition f o d).2 ∧
  dict_le d (register_proposition f o d).2 ∧
  (∃ r, (register_proposition f o d).2 !! f
        = Some ((register_proposition f o d).1, r) ∧ o ∈ r) ∧
  (∀ g, g ≠ f → (register_proposition f o d).2 !! g = d !! g).
Proof.
  intros Hwf. unfold register_proposition.
  destruct (d !! f) as [[v refs]|] eqn:E; simpl.
  - repeat split.
    + intros f1 f2 v' r1 r2. rewrite !lookup_insert.
      repeat case_decide; subst; intros H1 H2;
        try injection H1 as <- <-; try injection H2 as <- <-; eauto.
    + intros g v' r. rewrite lookup_insert. case_decide; subst; eauto.
      rewrite E. intros [= <- <-]. eauto.
    + exists ({[o]} ∪ refs). rewrite lookup_insert_eq. split; [done|].
      set_solver.
    + intros g Hg. by rewrite lookup_insert_ne.
  - pose proof (is_fresh (dict_vars d)) as Hfresh.
    repeat split.
    + intros f1 f2 v' r1 r2. rewrite !lookup_insert.
      repeat case_decide; subst; intros H1 H2;
        try injection H1 as <- <-; try injection H2 as <- <-; eauto;
        exfalso; apply Hfresh; apply dict_vars_spec; eauto.
    + intros g v' r. rewrite lookup_insert. case_decide; subst; eauto.
      by rewrite E.
    + exists {[o]}. rewrite lookup_insert_eq. split; [done|]. set_solver.
    + intros g Hg. by rewrite lookup_insert_ne.
Qed.

(** * The adapter *)

Lemma prop_holds_rule (zs : zg_state) (p q : one_prop) :
  var_num p = var_num q → op p = op q → val p = val q →
  prop_holds zs p = prop_holds zs q.
Proof. intros H1 H2 H3. unfold prop_holds. by rewrite H1, H2, H3. Qed.

(** The label of a state is the conjunction of one literal per entry of
    the proposition list; it is not false when entries that share a
    variable are the same rule. *)
Lemma state_condition_fold (zs : zg_state) (ps : prop_list)
    (m0 : gmap nat bool) :
  (∀ p q, p ∈ ps → q ∈ ps → bddvar p = bddvar q →
          prop_holds zs p = prop_holds zs q) →
  (∀ p b, p ∈ ps → m0 !! bddvar p = Some b → b = prop_holds zs p) →
  ∃ m,
    fold_left
      (λ cond prop,
         bdd_and cond
           ((if prop_holds zs prop then bdd_ithvar else bdd_nithvar)
              (bddvar prop)))
      ps (Some m0) = Some m ∧
    ∀ v b, m !! v = Some b ↔
           (m0 !! v = Some b ∨
            ∃ p, p ∈ ps ∧ bddvar p = v ∧ prop_holds zs p = b).
Proof.
  revert m0. induction ps as [|p ps IH]; intros m0 Hco Hm0.
  - exists m0. split; [done|]. intros v b. split; [by left|].
    intros [H|(p & Hp & _)]; [done|]. by apply elem_of_nil in Hp.
  - cbn [fold_left].
    assert ((if prop_holds zs p then bdd_ithvar else bdd_nithvar) (bddvar p)
            = Some {[ bddvar p := prop_holds zs p ]}) as ->
      by by destruct (prop_holds zs p).
    rewrite bdd_and_lit.
    assert (∃ m1, match m0 !! bddvar p with
                  | Some b' =>
                      if decide (b' = prop_holds zs p) then Some m0 else None
                  | None => Some (<[bddvar p:=prop_holds zs p]> m0)
                  end = Some m1 ∧
                  ∀ v b, m1 !! v = Some b ↔
                         (m0 !! v = Some b ∨
                          (bddvar p = v ∧ prop_holds zs p = b)))
      as (m1 & -> & Hm1).
    { destruct (m0 !! bddvar p) as [b'|] eqn:E.
      - rewrite decide_True by (apply Hm0; [by left|done]).
        exists m0. split; [done|]. intros v b. split; [by left|].
        intros [H|[<- <-]]; [done|].
        rewrite E. f_equal. apply Hm0; [by left|done].
      - eexists. split; [done|]. intros v b. rewrite lookup_insert.
        case_decide as Hv.
        + subst v. rewrite E. split.
          * intros [= <-]. by right.
          * intros [H|[_ <-]]; done.
        + split; [by left|]. intros [H|[H _]]; done. }
    destruct (IH m1) as (m & Hfold & Hm).
    + intros p1 p2 H1 H2. apply Hco; by right.
    + intros q b Hq Hb. apply Hm1 in Hb as [Hb|[Hv <-]].
      * apply Hm0; [by right|done].
      * apply Hco; [by left|by right|done].
    + exists m. split; [done|]. intros v b. rewrite Hm, Hm1. split.
      * intros [[H|[H1 H2]]|(q & Hq & H)]; eauto.
        -- right. exists p. split; [by left|done].
        -- right. exists q. split; [by right|done].
      * intros [H|(q & [->|Hq]%elem_of_cons & H)]; eauto.
Qed.

Lemma state_condition_cube (dead : formula) (k : tcltl_kripke)
    (zs : zg_state) :
  kripke_wf dead k →
  ∃ m, state_condition k zs = Some m ∧
       ∀ v b, m !! v = Some b ↔
              ∃ p, p ∈ ps_ k ∧ bddvar p = v ∧ prop_holds zs p = b.
Proof.
  intros [Hco _]. unfold state_condition, bddtrue.
  destruct (state_condition_fold zs (ps_ k) ∅) as (m & Hm & Hspec).
  - intros p q Hp Hq Hv. destruct (Hco p q Hp Hq Hv) as (H1 & H2 & H3).
    by apply prop_holds_rule.
  - intros p b _ H. by rewrite lookup_empty in H.
  - exists m. split; [done|]. intros v b. rewrite Hspec, lookup_empty.
    split; [intros [H|H]; done|by right].
Qed.

(** The label of a live state, resp. of a dead state of an adapter that
    cares about dead states, is not false. *)
Lemma alive_label_not_false (dead : formula) (k : tcltl_kripke)
    (zs : zg_state) :
  kripke_wf dead k →
  bdd_and (state_condition k zs) (alive_prop k) ≠ bddfalse.
Proof.
  intros Hwf. destruct (state_condition_cube dead k zs Hwf) as (m & -> & Hm).
  destruct Hwf as [_ Hmark]. unfold bddfalse.
  destruct dead; simpl in Hmark.
  - destruct Hmark as [-> _]. by rewrite bdd_and_true_r.
  - destruct Hmark as [-> _]. by rewrite bdd_and_true_r.
  - destruct Hmark as (var & -> & _ & Hfresh). unfold bdd_nithvar.
    rewrite bdd_and_lit.
    destruct (m !! var) as [b|] eqn:E; [|done].
    apply Hm in E as (p & Hp & Hv & _). by apply Hfresh in Hp.
  - destruct Hmark as (var & -> & _ & Hfresh). unfold bdd_nithvar.
    rewrite bdd_and_lit.
    destruct (m !! var) as [b|] eqn:E; [|done].
    apply Hm in E as (p & Hp & Hv & _). by apply Hfresh in Hp.
Qed.

Lemma dead_label_not_false (dead : formula) (k : tcltl_kripke)
    (zs : zg_state) :
  kripke_wf dead k → dead_prop k ≠ bddfalse →
  bdd_and (state_condition k zs) (dead_prop k) ≠ bddfalse.
Proof.
  intros Hwf Hd. destruct (state_condition_cube dead k zs Hwf) as (m & -> & Hm).
  destruct Hwf as [_ Hmark]. unfold bddfalse in *.
  destruct dead; simpl in Hmark.
  - destruct Hmark as [_ E]. by rewrite E in Hd.
  - destruct Hmark as [_ ->]. by rewrite bdd_and_true_r.
  - destruct Hmark as (var & _ & -> & Hfresh). unfold bdd_ithvar.
    rewrite bdd_and_lit.
    destruct (m !! var) as [b|] eqn:E; [|done].
    apply Hm in E as (p & Hp & Hv & _). by apply Hfresh in Hp.
  - destruct Hmark as (var & _ & -> & Hfresh). unfold bdd_ithvar.
    rewrite bdd_and_lit.
    destruct (m !! var) as [b|] eqn:E; [|done].
    apply Hm in E as (p & Hp & Hv & _). by apply Hfresh in Hp.
Qed.

(** The loop of [convert_aps] keeps the dictionary well formed, only adds
    to it, and records entries registered in it. *)
Lemma convert_aps_loop_inv (model : model_t) (dead : formula) (o : nat)
    (aps : list string) (d : bdd_dict) (out : prop_list) (errors : Z)
    (err : string) :
  dict_wf d → Forall (registered_in model dead d) out →
  let r := convert_aps_loop model aps dead o d out errors err in
  dict_wf r.1.1.1 ∧ dict_le d r.1.1.1 ∧
  Forall (registered_in model dead r.1.1.1) r.1.1.2.
Proof.
  revert d out errors err.
  induction aps as [|ap aps IH]; intros d out errors err Hwf Hout; simpl.
  - split; [done|split; [apply dict_le_refl|done]].
  - case_decide as Hdead; [by apply IH|].
    destruct (convert_ap model ap) as [vn o' v|msg] eqn:Hc; [|by apply IH].
    destruct (register_proposition_spec (f_ap ap) o d Hwf)
      as (Hwf' & Hle & (r & Hr & _) & _).
    destruct (register_proposition (f_ap ap) o d) as [bv d'] eqn:Hreg.
    simpl in *.
    edestruct (IH d' (out ++ [{| var_num := vn; op := o'; val := v;
                                bddvar := bv |}]) errors err Hwf')
      as (H1 & H2 & H3).
    + apply Forall_app. split.
      * eapply Forall_impl; [exact Hout|].
        intros p (str & r' & Hne & Hconv & Hl). apply Hle in Hl as [r'' Hl].
        by exists str, r''.
      * constructor; [|constructor]. by exists ap, r.
    + split; [done|split; [|done]]. by eapply dict_le_trans.
Qed.

Lemma fold_register_spec (o : nat) (aps : list string) (d : bdd_dict) :
  dict_wf d →
  let d' := fold_left (λ d ap, (register_proposition (f_ap ap) o d).2)
              aps d in
  dict_wf d' ∧ dict_le d d'.
Proof.
  revert d. induction aps as [|ap aps IH]; intros d Hwf; simpl.
  - split; [done|apply dict_le_refl].
  - destruct (register_proposition_spec (f_ap ap) o d Hwf)
      as (Hwf' & Hle & _).
    destruct (IH _ Hwf') as [H1 H2].
    split; [done|]. by eapply dict_le_trans.
Qed.

(** An adapter built by [tc_model::kripke] over a well-formed dictionary
    is well formed. *)
Lemma tc_model_kripke_wf (model : model_t) (to_observe : list string)
    (d d' : bdd_dict) (dead : formula) (ps this : nat) (k : tcltl_kripke) :
  dict_wf d →
  tc_model_kripke model to_observe d dead ps this = (d', Ok k) →
  kripke_wf dead k ∧ ts_ k = model_ts model.
Proof.
  intros Hwf. unfold tc_model_kripke, convert_aps.
  pose proof (convert_aps_loop_inv model dead ps to_observe d [] 0
                EmptyString Hwf (List.Forall_nil _)) as Hinv.
  destruct (convert_aps_loop model to_observe dead ps d [] 0 EmptyString)
    as [[[d1 out] errors] err].
  simpl in Hinv. destruct Hinv as (Hwf1 & Hle1 & Hout).
  case_decide; [done|].
  assert (∀ p q, p ∈ out → q ∈ out → bddvar p = bddvar q →
                 var_num p = var_num q ∧ op p = op q ∧ val p = val q)
    as Hco.
  { intros p q Hp Hq Hv. rewrite Forall_forall in Hout.
    destruct (Hout p Hp) as (sp & rp & _ & Hcp & Hlp).
    destruct (Hout q Hq) as (sq & rq & _ & Hcq & Hlq).
    rewrite Hv in Hlp.
    assert (f_ap sp = f_ap sq) as [= ->] by by eapply Hwf1.
    rewrite Hcp in Hcq. by injection Hcq as -> -> ->. }
  assert (∀ var d2, register_proposition dead this d1 = (var, d2) →
                    ∀ p, p ∈ out → bddvar p ≠ var) as Hfresh.
  { intros var d2 Hreg p Hp Hv. rewrite Forall_forall in Hout.
    destruct (Hout p Hp) as (sp & rp & Hne & _ & Hlp).
    destruct (register_proposition_spec dead this d1 Hwf1)
      as (Hwf2 & Hle2 & (r & Hr & _) & _).
    rewrite Hreg in *. simpl in *.
    apply Hle2 in Hlp as [r' Hlp]. rewrite Hv in Hlp.
    apply Hne. by eapply Hwf2. }
  unfold new_tcltl_kripke.
  destruct dead; simpl.
  - intros [= _ <-]. split; [split|]; done.
  - intros [= _ <-]. split; [split|]; done.
  - destruct (register_proposition (f_ap name) this d1) as [var d2] eqn:Hreg.
    intros [= _ <-]. split; [split|]; simpl; [done| |done].
    exists var. repeat split. by eapply Hfresh.
  - destruct (register_proposition (f_other id) this d1) as [var d2] eqn:Hreg.
    intros [= _ <-]. split; [split|]; simpl; [done| |done].
    exists var. repeat split. by eapply Hfresh.
Qed.

(** * Properties of the handle *)

Section HandleProperties.

Variable hash_value : zg_state → Z.

Lemma wrap32_range (x : Z) : 0 <= wrap32 x < 2 ^ 32.
Proof. unfold wrap32. apply Z.mod_pos_bound. lia. Qed.

Lemma wrap32_small (x : Z) : 0 <= x < 2 ^ 32 → wrap32 x = x.
Proof. intros H. unfold wrap32. by apply Z.mod_small. Qed.

Lemma pool_allocate_cells (w : world) :
  cells (pool_allocate w).2 = cells w.
Proof. unfold pool_allocate. by destruct (free_list w). Qed.

Lemma pool_allocate_fresh (w : world) :
  pool_wf w → cells w !! (pool_allocate w).1 = None.
Proof.
  intros (Hnd & Hfree & Hnext & Hlt). unfold pool_allocate.
  destruct (free_list w) as [|a fl] eqn:E; simpl.
  - apply Hnext. lia.
  - apply Hfree. by left.
Qed.

Lemma pool_allocate_wf (w : world) (obj : tcltl_state) :
  pool_wf w →
  pool_wf (set_cells (insert (pool_allocate w).1 obj) (pool_allocate w).2).
Proof.
  intros (Hnd & Hfree & Hnext & Hlt). unfold pool_allocate.
  destruct (free_list w) as [|a fl] eqn:E; simpl.
  - repeat split; simpl.
    + constructor.
    + intros a Ha. by apply elem_of_nil in Ha.
    + intros a Ha. rewrite lookup_insert_ne by lia. apply Hnext. lia.
    + intros a Ha. by apply elem_of_nil in Ha.
  - apply NoDup_cons in Hnd as [Hna Hnd].
    repeat split; simpl.
    + done.
    + intros b Hb. rewrite lookup_insert_ne.
      * apply Hfree. by right.
      * intros Heq. by rewrite Heq in Hna.
    + intros b Hb. rewrite lookup_insert_ne.
      * by apply Hnext.
      * intros Heq. assert (a < next_cell w)%nat by (apply Hlt; by left).
        lia.
    + intros b Hb. apply Hlt. by right.
Qed.

Lemma new_tcltl_state_wf (zg : shared_state_ptr_t) (w : world) :
  pool_wf w → pool_wf (new_tcltl_state hash_value zg w).2.
Proof.
  intros Hwf. unfold new_tcltl_state.
  destruct (pool_allocate w) as [a w1] eqn:E. simpl.
  pose proof (pool_allocate_wf w
    {| hash_val_ := wrap32 (hash_value (zg_obj zg)); count_ := 1;
       zg_state_ := zg |} Hwf) as H.
  rewrite E in H. simpl in H. exact H.
Qed.

Lemma new_tcltl_state_lookup (zg : shared_state_ptr_t) (w : world) :
  cells (new_tcltl_state hash_value zg w).2
    !! (new_tcltl_state hash_value zg w).1
  = Some {| hash_val_ := wrap32 (hash_value (zg_obj zg)); count_ := 1;
            zg_state_ := zg |}.
Proof.
  unfold new_tcltl_state. destruct (pool_allocate w) as [a w1]. simpl.
  apply lookup_insert_eq.
Qed.

Lemma new_tcltl_state_other (zg : shared_state_ptr_t) (w : world) (b : nat) :
  pool_wf w → is_Some (cells w !! b) →
  cells (new_tcltl_state hash_value zg w).2 !! b = cells w !! b.
Proof.
  intros Hwf Hb. pose proof (pool_allocate_fresh w Hwf) as Hf.
  pose proof (pool_allocate_cells w) as Hc.
  unfold new_tcltl_state. destruct (pool_allocate w) as [a w1]. simpl in *.
  rewrite lookup_insert_ne, Hc; [done|].
  intros Heq. rewrite <- Heq, Hf in Hb. by destruct Hb.
Qed.

Lemma destroy_wf (a : nat) (w : world) : pool_wf w → pool_wf (destroy a w).
Proof.
  intros Hwf. unfold destroy. destruct (cells w !! a) as [s|] eqn:E; [|done].
  destruct Hwf as (Hnd & Hfree & Hnext & Hlt).
  case_decide.
  - repeat split; simpl; try done.
    + intros b Hb. rewrite lookup_insert_ne; [by apply Hfree|].
      intros Heq. rewrite Heq, (Hfree b Hb) in E. done.
    + intros b Hb. rewrite lookup_insert_ne; [by apply Hnext|].
      intros Heq. rewrite Heq, (Hnext b Hb) in E. done.
  - repeat split; simpl.
    + apply NoDup_cons. split; [|done].
      intros Ha. rewrite (Hfree a Ha) in E. done.
    + intros b [Heq|Hb]%elem_of_cons.
      * rewrite Heq. apply lookup_delete_eq.
      * rewrite lookup_delete_ne; [by apply Hfree|].
        intros Heq. rewrite Heq, (Hfree b Hb) in E. done.
    + intros b Hb. destruct (decide (a = b)) as [->|Hne].
      * apply lookup_delete_eq.
      * rewrite lookup_delete_ne by done. by apply Hnext.
    + intros b [Heq|Hb]%elem_of_cons; [|by apply Hlt].
      destruct (decide (next_cell w ≤ a)%nat) as [Hle|]; [|lia].
      rewrite (Hnext a Hle) in E. done.
Qed.

Lemma clone_wf (a : nat) (w : world) : pool_wf w → pool_wf (clone a w).2.
Proof.
  intros (Hnd & Hfree & Hnext & Hlt). repeat split; simpl; try done.
  - intros b Hb. rewrite lookup_alter. case_decide; [|by apply Hfree].
    subst. by rewrite (Hfree b Hb).
  - intros b Hb. rewrite lookup_alter. case_decide; [|by apply Hnext].
    subst. by rewrite (Hnext b Hb).
Qed.

Lemma set_cells_id (w : world) (f : gmap nat tcltl_state → gmap nat tcltl_state) :
  f (cells w) = cells w → set_cells f w = w.
Proof. intros H. destruct w. unfold set_cells. simpl in *. by rewrite H. Qed.

Lemma set_cells_insert_insert (w : world) (a : nat) (x y : tcltl_state) :
  set_cells (insert a x) (set_cells (insert a y) w) = set_cells (insert a x) w.
Proof. unfold set_cells. simpl. by rewrite insert_insert_eq. Qed.

Lemma set_cells_delete_insert (w : world) (a : nat) (x : tcltl_state) :
  set_cells (delete a) (set_cells (insert a x) w) = set_cells (delete a) w.
Proof. unfold set_cells. simpl. by rewrite delete_insert_eq. Qed.

Lemma set_count_id (s : tcltl_state) : set_count (count_ s) s = s.
Proof. by destruct s. Qed.

Lemma wrap32_add_l (x y : Z) : wrap32 (wrap32 x + y) = wrap32 (x + y).
Proof. unfold wrap32. by rewrite Zplus_mod_idemp_l. Qed.

Lemma wrap32_sub_l (x y : Z) : wrap32 (wrap32 x - y) = wrap32 (x - y).
Proof. unfold wrap32. by rewrite Zminus_mod_idemp_l. Qed.

Lemma clone_live (a : nat) (s : tcltl_state) (w : world) :
  cells w !! a = Some s →
  (clone a w).2 = set_cells (insert a (set_count (wrap32 (count_ s + 1)) s)) w.
Proof.
  intros Hs. unfold clone, set_cells. simpl. f_equal.
  apply map_eq. intros i. rewrite lookup_alter, lookup_insert.
  case_decide; [subst; by rewrite Hs|done].
Qed.

Lemma destroy_keeps (a : nat) (s : tcltl_state) (w : world) :
  cells w !! a = Some s → wrap32 (count_ s - 1) ≠ 0 →
  destroy a w = set_cells (insert a (set_count (wrap32 (count_ s - 1)) s)) w.
Proof. intros Hs Hc. unfold destroy. rewrite Hs. by rewrite decide_True. Qed.

Lemma destroy_last (a : nat) (s : tcltl_state) (w : world) :
  cells w !! a = Some s → wrap32 (count_ s - 1) = 0 →
  destroy a w
  = pool_deallocate a (zg_release (zg_state_ s) (set_cells (delete a) w)).
Proof.
  intros Hs Hc. unfold destroy. rewrite Hs. rewrite decide_False; [done|].
  intros H. by apply H.
Qed.

(** [n] clones add [n] to the counter, modulo 2^32, and touch nothing
    else. *)
Lemma clone_n_spec (a : nat) (s : tcltl_state) (n : N) (w : world) :
  cells w !! a = Some s → 0 <= count_ s < 2 ^ 32 →
  clone_n a n w
  = set_cells (insert a (set_count (wrap32 (count_ s + Z.of_N n)) s)) w.
Proof.
  intros Hs Hr. induction n as [|n IH] using N.peano_ind.
  - unfold clone_n. simpl. rewrite Z.add_0_r, wrap32_small, set_count_id by done.
    symmetry. apply set_cells_id. by apply insert_id.
  - unfold clone_n in *. rewrite N.iter_succ, IH.
    erewrite clone_live; [|apply lookup_insert_eq].
    rewrite set_cells_insert_insert. simpl.
    rewrite wrap32_add_l. unfold set_count. simpl.
    replace (count_ s + Z.of_N n + 1) with (count_ s + Z.of_N (N.succ n)) by lia.
    done.
Qed.

Lemma destroy_n_live (a : nat) (s : tcltl_state) (j : N) (w : world) :
  cells w !! a = Some s → 0 <= count_ s < 2 ^ 32 →
  Z.of_N j < releases_left (count_ s) →
  destroy_n a j w
  = set_cells (insert a (set_count (wrap32 (count_ s - Z.of_N j)) s)) w.
Proof.
  intros Hs Hr. induction j as [|j IH] using N.peano_ind; intros Hj.
  - unfold destroy_n. simpl. rewrite Z.sub_0_r, wrap32_small, set_count_id by done.
    symmetry. apply set_cells_id. by apply insert_id.
  - unfold destroy_n in *. rewrite N.iter_succ, IH by lia.
    assert (wrap32 (count_ s - Z.of_N (N.succ j)) ≠ 0) as Hnz.
    { unfold releases_left in Hj. unfold wrap32. case_decide as Hc.
      - rewrite Hc.
        replace (0 - Z.of_N (N.succ j)) with (2 ^ 32 - Z.of_N (N.succ j) + (-1) * 2 ^ 32) by lia.
        rewrite Z_mod_plus_full, Z.mod_small; lia.
      - rewrite Z.mod_small; lia. }
    erewrite destroy_keeps; [|apply lookup_insert_eq|]; simpl.
    + rewrite set_cells_insert_insert, wrap32_sub_l. unfold set_count. simpl.
      replace (count_ s - Z.of_N j - 1) with (count_ s - Z.of_N (N.succ j)) by lia.
      done.
    + rewrite wrap32_sub_l. by replace (count_ s - Z.of_N j - 1)
        with (count_ s - Z.of_N (N.succ j)) by lia.
Qed.

Lemma destroy_n_last (a : nat) (s : tcltl_state) (j : N) (w : world) :
  cells w !! a = Some s → 0 <= count_ s < 2 ^ 32 →
  Z.of_N j = releases_left (count_ s) →
  destroy_n a j w
  = pool_deallocate a (zg_release (zg_state_ s) (set_cells (delete a) w)).
Proof.
  intros Hs Hr Hj.
  assert (∃ j', j = N.succ j') as [j' ->].
  { exists (N.pred j). unfold releases_left in Hj. case_decide; lia. }
  unfold destroy_n. rewrite N.iter_succ.
  fold (destroy_n a j' w).
  rewrite (destroy_n_live a s) by (try done; lia).
  erewrite destroy_last; [|apply lookup_insert_eq|]; simpl.
  - by rewrite set_cells_delete_insert.
  - rewrite wrap32_sub_l. unfold releases_left in Hj. unfold wrap32.
    case_decide as Hc.
    + rewrite Hc. replace (0 - Z.of_N j' - 1) with ((-1) * 2 ^ 32) by lia.
      apply Z_mod_mult.
    + replace (count_ s - Z.of_N j' - 1) with 0 by lia. done.
Qed.


Lemma apply_op_wf (o : handle_op) (w : world) :
  pool_wf w → pool_wf (apply_op hash_value o w).
Proof.
  intros Hwf. destruct o; simpl.
  - by apply clone_wf.
  - by apply destroy_wf.
  - by apply new_tcltl_state_wf.
Qed.

Lemma apply_op_hash (o : handle_op) (a : nat) (h : Z) (w : world) :
  pool_wf w → hash a w = Some h →
  is_Some (cells (apply_op hash_value o w) !! a) →
  hash a (apply_op hash_value o w) = Some h.
Proof.
  unfold hash. intros Hwf Hh Hlive.
  destruct (cells w !! a) as [s|] eqn:Hs; [|done].
  destruct o as [b|b|zg]; simpl in *.
  - rewrite lookup_alter. case_decide; [subst; by rewrite Hs|by rewrite Hs].
  - unfold destroy in *. destruct (cells w !! b) as [s'|] eqn:Hb.
    + case_decide; simpl in *.
      * rewrite lookup_insert. case_decide; [|by rewrite Hs].
        subst. rewrite Hs in Hb. by injection Hb as <-.
      * rewrite lookup_delete in *. case_decide; [by destruct Hlive|].
        by rewrite Hs.
    + by rewrite Hs.
  - rewrite new_tcltl_state_other by (rewrite ?Hs; eauto). by rewrite Hs.
Qed.

(** C9.  The hash of a handle is the hash of its zone-graph state, taken
    once by the constructor and truncated to [unsigned]: [hash] answers
    that value for as long as the handle lives, whatever is cloned,
    destroyed or allocated meanwhile, and two handles built from
    structurally equal zone-graph states have the same hash. *)
Theorem hash_cached_and_structural (w : world)
    (z1 z2 : shared_state_ptr_t) (ops : list handle_op) :
  pool_wf w →
  let a1 := (new_tcltl_state hash_value z1 w).1 in
  let w1 := (new_tcltl_state hash_value z1 w).2 in
  let a2 := (new_tcltl_state hash_value z2 w1).1 in
  let w2 := (new_tcltl_state hash_value z2 w1).2 in
  hash a1 w1 = Some (wrap32 (hash_value (zg_obj z1))) ∧
  (live_through hash_value a1 ops w1 →
   hash a1 (run_ops hash_value ops w1) = hash a1 w1) ∧
  (zg_obj z1 = zg_obj z2 →
   a1 ≠ a2 ∧ hash a1 w2 = hash a2 w2 ∧ is_Some (hash a1 w2)).
Proof.
  intros Hwf a1 w1 a2 w2.
  assert (hash a1 w1 = Some (wrap32 (hash_value (zg_obj z1)))) as H1.
  { unfold hash, a1, w1. by rewrite new_tcltl_state_lookup. }
  assert (pool_wf w1) as Hwf1 by by apply new_tcltl_state_wf.
  split; [done|split].
  - rewrite H1. clear a2 w2. generalize dependent w1.
    induction ops as [|o ops IH]; intros w1 H1 Hwf1 Hlive; [done|].
    destruct Hlive as [Hl Hlive]. simpl. apply IH; [|by apply apply_op_wf|done].
    by apply apply_op_hash.
  - intros Heq.
    assert (is_Some (cells w1 !! a1)) as Hl1.
    { unfold a1, w1. rewrite new_tcltl_state_lookup. eauto. }
    assert (a1 ≠ a2) as Hne.
    { intros E. pose proof (pool_allocate_fresh w1 Hwf1) as Hf.
      unfold a2, new_tcltl_state in E.
      destruct (pool_allocate w1) as [a w'] eqn:Ea. simpl in *. subst a.
      rewrite Hf in Hl1. by destruct Hl1. }
    split; [done|].
    assert (hash a1 w2 = hash a1 w1) as ->.
    { unfold hash, w2. by rewrite new_tcltl_state_other. }
    rewrite H1. split; [|eauto].
    unfold hash, a2, w2. rewrite new_tcltl_state_lookup. simpl.
    by rewrite Heq.
Qed.

(** C4.  [compare] answers 0 for one and the same handle; for two handles
    it orders by the cached hashes, and on equal hashes it answers 0 when
    the zone-graph states are structurally equal and 1 when they are not --
    in both directions, so it is not an order on colliding states. *)
Theorem compare_hash_then_equality (w : world) (a b : nat)
    (s o : tcltl_state) :
  cells w !! a = Some s → cells w !! b = Some o →
  compare a a w = Some 0 ∧
  (a ≠ b → hash_val_ s < hash_val_ o → compare a b w = Some (-1)) ∧
  (a ≠ b → hash_val_ s > hash_val_ o → compare a b w = Some 1) ∧
  (a ≠ b → hash_val_ s = hash_val_ o →
   zg_obj (zg_state_ s) = zg_obj (zg_state_ o) → compare a b w = Some 0) ∧
  (a ≠ b → hash_val_ s = hash_val_ o →
   zg_obj (zg_state_ s) ≠ zg_obj (zg_state_ o) →
   compare a b w = Some 1 ∧ compare b a w = Some 1).
Proof.
  intros Ha Hb. unfold compare.
  split; [by rewrite decide_True|].
  assert (∀ x y : nat, x ≠ y → y ≠ x) as Hsym by (intros x y H E; by apply H).
  repeat split; intros; rewrite ?decide_False by auto;
    rewrite ?Ha, ?Hb; simpl; repeat case_decide; congruence || lia.
Qed.

(** C5 (as amended).  A handle is allocated with one reference; after [k]
    clones, [k] below 2^32 (the counter is an [unsigned]), each of the
    first [k] calls of [destroy] leaves the handle live, holding its
    zone-graph state, with nothing given back to the pool; the call after
    them destructs it: the reference to the zone-graph state taken by the
    constructor is released and the cell is put on the free list.  A call
    of [destroy] reclaims the cell exactly when it takes the counter to
    zero. *)
Theorem refcount_release_after_clones (zg : shared_state_ptr_t)
    (w : world) (k : N) :
  (k < 2 ^ 32)%N →
  let a := (new_tcltl_state hash_value zg w).1 in
  let w0 := (new_tcltl_state hash_value zg w).2 in
  let w1 := clone_n a k w0 in
  (count_ <$> cells w0 !! a = Some 1 ∧ zg_count w0 zg = zg_count w zg + 1) ∧
  (∀ j, (j <= k)%N →
     (∃ s, cells (destroy_n a j w1) !! a = Some s ∧ zg_state_ s = zg) ∧
     free_list (destroy_n a j w1) = free_list w0 ∧
     zg_refs (destroy_n a j w1) = zg_refs w0) ∧
  (destroy_n a (k + 1) w1
   = pool_deallocate a (zg_release zg (set_cells (delete a) w0)) ∧
   cells (destroy_n a (k + 1) w1) !! a = None ∧
   free_list (destroy_n a (k + 1) w1) = a :: free_list w0 ∧
   zg_count (destroy_n a (k + 1) w1) zg = zg_count w zg) ∧
  (∀ (w' : world) (b : nat) (s : tcltl_state),
     cells w' !! b = Some s →
     (cells (destroy b w') !! b = None ↔ wrap32 (count_ s - 1) = 0)).
Proof.
  intros Hk a w0 w1.
  pose proof (new_tcltl_state_lookup zg w) as Hs. fold a w0 in Hs.
  set (s0 := {| hash_val_ := wrap32 (hash_value (zg_obj zg)); count_ := 1;
                zg_state_ := zg |}) in *.
  assert (zg_count w0 zg = zg_count w zg + 1) as Hzg.
  { unfold w0, new_tcltl_state, zg_count, zg_acquire.
    pose proof (pool_allocate_cells w) as Hc.
    assert (zg_refs (pool_allocate w).2 = zg_refs w) as Hz
      by (unfold pool_allocate; by destruct (free_list w)).
    destruct (pool_allocate w) as [a' w']. simpl in *.
    by rewrite lookup_insert_eq, Hz. }
  assert (w1 = set_cells (insert a (set_count (wrap32 (1 + Z.of_N k)) s0)) w0)
    as Hw1.
  { unfold w1. by rewrite (clone_n_spec a s0). }
  assert (releases_left (wrap32 (1 + Z.of_N k)) = 1 + Z.of_N k) as Hrl.
  { unfold releases_left, wrap32. case_decide as Hc.
    - destruct (decide (1 + Z.of_N k = 2 ^ 32)) as [->|]; [done|].
      rewrite Z.mod_small in Hc; lia.
    - destruct (decide (1 + Z.of_N k = 2 ^ 32)) as [E|].
      + rewrite E, Z_mod_same_full in Hc. done.
      + rewrite Z.mod_small; lia. }
  assert (cells w1 !! a
          = Some (set_count (wrap32 (1 + Z.of_N k)) s0)) as Hl1.
  { rewrite Hw1. simpl. apply lookup_insert_eq. }
  split; [split; [by rewrite Hs|done]|].
  split; [|split].
  - intros j Hj.
    rewrite (destroy_n_live a _ j w1 Hl1) by
      (simpl; try apply wrap32_range; rewrite Hrl; lia).
    rewrite Hw1. simpl. rewrite lookup_insert_eq. eauto.
  - assert (destroy_n a (k + 1) w1
            = pool_deallocate a (zg_release zg (set_cells (delete a) w0)))
      as Hfin.
    { rewrite (destroy_n_last a _ (k + 1) w1 Hl1) by
        (simpl; try apply wrap32_range; rewrite Hrl; lia).
      simpl. rewrite Hw1. by rewrite set_cells_delete_insert. }
    rewrite Hfin. split; [done|]. simpl. rewrite lookup_delete_eq.
    split; [done|split; [done|]].
    unfold zg_count in *. simpl. rewrite lookup_insert_eq. simpl. lia.
  - intros w' b s Hb. unfold destroy. rewrite Hb. case_decide as Hc; simpl.
    + rewrite lookup_insert_eq. split; [done|]. intros E. by rewrite E in Hc.
    + rewrite lookup_delete_eq. split; [|done]. intros _.
      destruct (decide (wrap32 (count_ s - 1) = 0)); [done|]. by elim Hc.
Qed.

(** C3, on the code: with two or more initial states [get_init_state]
    throws, and the world it leaves behind is the world right after the
    allocation of the handle of the first one; that handle is still
    constructed in its cell, with its one reference, it still holds its
    zone-graph state, and its cell is not on the free list. *)
Theorem get_init_state_multiple (k : tcltl_kripke) (w : world)
    (z1 z2 : shared_state_ptr_t) (rest : list shared_state_ptr_t) :
  initial (ts_ k) = z1 :: z2 :: rest →
  let a := (new_tcltl_state hash_value z1 w).1 in
  let w' := (new_tcltl_state hash_value z1 w).2 in
  get_init_state hash_value k w
  = (w', Throw "multiple initial states not supported"%string) ∧
  cells w' !! a
  = Some {| hash_val_ := wrap32 (hash_value (zg_obj z1)); count_ := 1;
            zg_state_ := z1 |} ∧
  (pool_wf w → a ∉ free_list w').
Proof.
  intros Hinit a w'. unfold get_init_state. rewrite Hinit. simpl.
  fold a w'. destruct (new_tcltl_state hash_value z1 w) as [a0 w0] eqn:E.
  pose proof (new_tcltl_state_lookup z1 w) as Hl.
  pose proof (new_tcltl_state_wf z1 w) as Hwf.
  rewrite E in Hl, Hwf. simpl in *. subst a w'.
  split; [done|split; [done|]].
  intros Hw Hin. destruct (Hwf Hw) as (_ & Hfree & _).
  rewrite (Hfree a0 Hin) in Hl. done.
Qed.

(** C10.  Without initial state [get_init_state] returns the null
    pointer: nothing is thrown and the pool is left as it was. *)
Theorem get_init_state_empty (k : tcltl_kripke) (w : world) :
  initial (ts_ k) = [] →
  get_init_state hash_value k w = (w, Ok None).
Proof. intros Hinit. unfold get_init_state. by rewrite Hinit. Qed.

End HandleProperties.

Section AdapterProperties.

Variable hash_value : zg_state → Z.

Lemma succ_iter_loop_length (range : list shared_state_ptr_t)
    (acc : list nat) (w : world) :
  length (succ_iter_loop hash_value range acc w).1
  = (length acc + length range)%nat.
Proof.
  revert acc w. induction range as [|z range IH]; intros acc w; simpl.
  - lia.
  - destruct (new_tcltl_state hash_value z w) as [a w'].
    rewrite IH, length_app. simpl. lia.
Qed.

Lemma succ_iter_loop_nonempty (range : list shared_state_ptr_t) (w : world) :
  range ≠ [] → (succ_iter_loop hash_value range [] w).1 ≠ [].
Proof.
  intros Hne E. apply (f_equal length) in E.
  rewrite succ_iter_loop_length in E. destruct range; [done|simpl in E; lia].
Qed.

(** What [succ_iter] returns, by the two cases of its [if]. *)
Lemma succ_iter_live (k : tcltl_kripke) (st : nat) (zs : tcltl_state)
    (w : world) :
  cells w !! st = Some zs →
  outgoing (ts_ k) (zg_obj (zg_state_ zs)) ≠ [] →
  ∃ it w', succ_iter hash_value k st w = Some (it, w') ∧
    cc_transitions it
    = (succ_iter_loop hash_value
         (outgoing (ts_ k) (zg_obj (zg_state_ zs))) [] w).1 ∧
    cc_transitions it ≠ [] ∧
    cond_ it = bdd_and (state_condition k (zg_obj (zg_state_ zs)))
                 (alive_prop k).
Proof.
  intros Hst Hout. unfold succ_iter. rewrite Hst. cbn [mbind option_bind].
  pose proof (succ_iter_loop_nonempty _ w Hout) as Hne.
  destruct (succ_iter_loop hash_value _ [] w) as [tr w1]. cbn [fst] in *.
  rewrite bool_decide_eq_false_2 by done. cbn [negb].
  destruct (iter_cache_ w1); eexists _, _; (split; [reflexivity|]);
    cbn [cond_ cc_transitions]; done.
Qed.

Lemma succ_iter_dead (k : tcltl_kripke) (st : nat) (zs : tcltl_state)
    (w : world) :
  cells w !! st = Some zs →
  outgoing (ts_ k) (zg_obj (zg_state_ zs)) = [] →
  ∃ it w', succ_iter hash_value k st w = Some (it, w') ∧
    cond_ it = bdd_and (state_condition k (zg_obj (zg_state_ zs)))
                 (dead_prop k) ∧
    cc_transitions it = (if decide (cond_ it ≠ bddfalse) then [st] else []).
Proof.
  intros Hst Hout. unfold succ_iter. rewrite Hst. cbn [mbind option_bind].
  rewrite Hout. cbn [succ_iter_loop].
  rewrite bool_decide_eq_true_2 by done. cbn [negb].
  destruct (decide (bdd_and (state_condition k (zg_obj (zg_state_ zs)))
                      (dead_prop k) ≠ bddfalse)) as [Hd|Hd];
    unfold clone; lazy beta iota zeta;
    destruct (iter_cache_ _); eexists _, _; (split; [reflexivity|]);
    cbn [cond_ cc_transitions]; (split; [reflexivity|]).
  1,2: by rewrite decide_True.
  all: by rewrite decide_False.
Qed.

(** C1.  For an adapter built by [tc_model::kripke] whose dead condition
    is not false, and a state without successor in the zone graph, the
    iterator of [succ_iter] holds exactly one transition, to the source
    state itself, and its condition is the label of the state conjoined
    with the dead condition. *)
Theorem succ_iter_dead_state (model : model_t) (to_observe : list string)
    (d d' : bdd_dict) (dead : formula) (ps this : nat) (k : tcltl_kripke)
    (w : world) (st : nat) (zs : tcltl_state) :
  dict_wf d →
  tc_model_kripke model to_observe d dead ps this = (d', Ok k) →
  cells w !! st = Some zs →
  outgoing (ts_ k) (zg_obj (zg_state_ zs)) = [] →
  dead_prop k ≠ bddfalse →
  ∃ it w', succ_iter hash_value k st w = Some (it, w') ∧
    cc_transitions it = [st] ∧
    cond_ it = bdd_and (state_condition k (zg_obj (zg_state_ zs)))
                 (dead_prop k) ∧
    (first it).1 = true ∧
    fst <$> dst (first it).2 w' = Some st ∧
    (next (first it).2).1 = false.
Proof.
  intros Hwf Hk Hst Hout Hdead.
  apply tc_model_kripke_wf in Hk as [Hkwf _]; [|done].
  destruct (succ_iter_dead k st zs w Hst Hout) as (it & w' & Hsucc & Hc & Ht).
  rewrite decide_True in Ht
    by (rewrite Hc; by eapply dead_label_not_false).
  exists it, w'. split; [done|]. split; [done|]. split; [done|].
  unfold first, next, dst. simpl. rewrite Ht. done.
Qed.

Lemma bdd_implies_and_r (a b : bdd) : bdd_implies (bdd_and a b) b.
Proof.
  apply bdd_implies_sem. intros rho. rewrite bdd_eval_and.
  by intros [_ H]%andb_true_iff.
Qed.

Lemma bdd_not_implies_opposite (a : bdd) (v : nat) (b : bool) :
  bdd_and a (Some {[ v := b ]}) ≠ bddfalse →
  ¬ bdd_implies (bdd_and a (Some {[ v := b ]})) (Some {[ v := negb b ]}).
Proof.
  intros Hne Himp. rewrite bdd_implies_sem in Himp.
  destruct (bdd_and a (Some {[ v := b ]})) as [m|] eqn:E; [|done].
  pose proof (bdd_eval_self m (λ _, false)) as Hm.
  pose proof (Himp _ Hm) as H2.
  rewrite <- E, bdd_eval_and in Hm. apply andb_true_iff in Hm as [_ H1].
  simpl in H1, H2. apply bool_decide_eq_true in H1, H2.
  rewrite map_Forall_lookup in H1, H2.
  specialize (H1 v b (lookup_singleton_eq _ _)).
  specialize (H2 v (negb b) (lookup_singleton_eq _ _)).
  simpl in *. rewrite H1 in H2. by destruct b.
Qed.

Lemma bdd_not_implies_false (a : bdd) : a ≠ bddfalse → ¬ bdd_implies a bddfalse.
Proof. intros Hne H. apply Hne. unfold bdd_implies in H. by destruct a. Qed.

(** C2 (as amended).  For an adapter built by [tc_model::kripke], the
    condition of the edges leaving a state is its label conjoined with
    the alive condition when the state has a successor in the zone graph,
    and with the dead condition when it has none.  When the dead formula
    is [false] or a proposition, the condition of every edge includes
    exactly one of the two, and never the dead condition for a state that
    has a successor; when the dead formula is [true], both conditions are
    the constant true and every edge condition includes both. *)
Theorem edge_label_marker (model : model_t) (to_observe : list string)
    (d d' : bdd_dict) (dead : formula) (ps this : nat) (k : tcltl_kripke)
    (w w' : world) (st : nat) (zs : tcltl_state)
    (it : tcltl_succ_iterator) :
  dict_wf d →
  tc_model_kripke model to_observe d dead ps this = (d', Ok k) →
  cells w !! st = Some zs →
  succ_iter hash_value k st w = Some (it, w') →
  cc_transitions it ≠ [] →
  let z := zg_obj (zg_state_ zs) in
  (outgoing (ts_ k) z ≠ [] →
   cond_ it = bdd_and (state_condition k z) (alive_prop k) ∧
   bdd_implies (cond_ it) (alive_prop k)) ∧
  (outgoing (ts_ k) z = [] →
   cond_ it = bdd_and (state_condition k z) (dead_prop k) ∧
   bdd_implies (cond_ it) (dead_prop k)) ∧
  (dead ≠ f_tt →
   exactly_one_marker k (cond_ it) ∧
   (outgoing (ts_ k) z ≠ [] → ¬ bdd_implies (cond_ it) (dead_prop k))) ∧
  (dead = f_tt →
   alive_prop k = bddtrue ∧ dead_prop k = bddtrue ∧
   bdd_implies (cond_ it) (alive_prop k) ∧
   bdd_implies (cond_ it) (dead_prop k)).
Proof.
  intros Hwf Hk Hst Hsucc Hne z.
  apply tc_model_kripke_wf in Hk as [Hkwf _]; [|done].
  assert (outgoing (ts_ k) z ≠ [] →
          cond_ it = bdd_and (state_condition k z) (alive_prop k)) as Hlive.
  { intros Hout.
    destruct (succ_iter_live k st zs w Hst Hout) as (it0 & w0 & E & _ & _ & Hc).
    rewrite Hsucc in E. by injection E as <- <-. }
  assert (outgoing (ts_ k) z = [] →
          cond_ it = bdd_and (state_condition k z) (dead_prop k) ∧
          cond_ it ≠ bddfalse) as Hdead.
  { intros Hout.
    destruct (succ_iter_dead k st zs w Hst Hout) as (it0 & w0 & E & Hc & Ht).
    rewrite Hsucc in E. injection E as <- <-. split; [done|].
    intros Hf. rewrite decide_False in Ht; [done|]. intros H. by apply H. }
  split; [|split; [|split]].
  - intros Hout. rewrite (Hlive Hout). split; [done|apply bdd_implies_and_r].
  - intros Hout. destruct (Hdead Hout) as [-> _].
    split; [done|apply bdd_implies_and_r].
  - intros Htt.
    assert (outgoing (ts_ k) z ≠ [] → ¬ bdd_implies (cond_ it) (dead_prop k))
      as Hnd.
    { intros Hout. rewrite (Hlive Hout).
      pose proof (alive_label_not_false dead k z Hkwf) as Hnf.
      destruct Hkwf as [_ Hmark]. destruct dead; simpl in Hmark; [|done| |].
      - destruct Hmark as [_ ->]. by apply bdd_not_implies_false.
      - destruct Hmark as (var & Ha & -> & _). rewrite Ha in *.
        by apply (bdd_not_implies_opposite _ var false).
      - destruct Hmark as (var & Ha & -> & _). rewrite Ha in *.
        by apply (bdd_not_implies_opposite _ var false). }
    split; [|done].
    destruct (decide (outgoing (ts_ k) z = [])) as [Hout|Hout].
    + right. destruct (Hdead Hout) as [Hc Hnf]. rewrite Hc in *.
      split; [|apply bdd_implies_and_r].
      destruct Hkwf as [_ Hmark]. destruct dead; simpl in Hmark; [|done| |].
      * destruct Hmark as [_ Hd]. rewrite Hd in Hnf.
        by destruct (state_condition k z).
      * destruct Hmark as (var & -> & Hd & _). rewrite Hd in *.
        by apply (bdd_not_implies_opposite _ var true).
      * destruct Hmark as (var & -> & Hd & _). rewrite Hd in *.
        by apply (bdd_not_implies_opposite _ var true).
    + left. split; [|by apply Hnd].
      rewrite (Hlive Hout). apply bdd_implies_and_r.
  - intros ->. destruct Hkwf as [_ [Ha Hd]]. rewrite Ha, Hd.
    split; [done|split; [done|]].
    assert (bdd_implies (cond_ it) bddtrue) as H.
    { unfold bdd_implies. apply bdd_and_true_r. }
    done.
Qed.

End AdapterProperties.

(** * The driver *)

Lemma main_body_outputs (env : driver_env) (filename : string)
    (f : option string) (dot : bool) (code : Z) (out : list output) :
  main_body env filename f dot = Ok (code, out) →
  (code = 1 ∧ (out = [Violated] ∨ out = [CounterexampleDot])) ∨
  (code = 0 ∧ (out = [Verified] ∨ out = [StructureDot] ∨ out = [ModelInfo])).
Proof.
  unfold main_body. intros H.
  repeat match type of H with
         | context [match ?x with _ => _ end] => destruct x eqn:?
         end; simplify_eq; intuition.
Qed.

(** * The proposition compiler *)

Lemma convert_ap_scanned (model : model_t) (str name rest : string)
    (lastdot : option nat) :
  scan_name (skip_blanks (c_str str)) EmptyString None
  = (name, lastdot, rest) →
  name ≠ EmptyString →
  convert_ap model str
  = match intvars_index model !! name with
    | None =>
        match processes model !! process_part name lastdot,
              location_part name lastdot with
        | Some procid, Some l =>
            match locations model !! (process_part name lastdot, l) with
            | None =>
                Error ("No location `" +:+ l +:+ "' known for process `"
                       +:+ process_part name lastdot +:+ "'." +:+ nl)
            | Some varid =>
                if negb (is_empty rest) then
                  Error ("Trailing garbage `" +:+ rest
                         +:+ "' at end of proposition `" +:+ str
                         +:+ "'." +:+ nl)
                else Rule procid OP_AT (Z.of_nat varid)
            end
        | _, _ =>
            Error ("No variable or process `" +:+ process_part name lastdot
                   +:+ "' found in model (for proposition `" +:+ str
                   +:+ "')." +:+ nl)
        end
    | Some varid =>
        if is_empty rest then Rule varid OP_NE 0
        else
          match parse_relop rest with
          | None =>
              Error ("Unexpected `" +:+ rest
                     +:+ "' while parsing atomic proposition `" +:+ str
                     +:+ "'." +:+ nl)
          | Some (op, s) =>
              if decide (skip_blanks s = (strtol (skip_blanks s)).2) then
                Error ("Failed to parse `" +:+ skip_blanks s
                       +:+ "' as an integer." +:+ nl)
              else if negb (is_empty (skip_blanks (strtol (skip_blanks s)).2))
              then
                Error ("Unexpected `"
                       +:+ skip_blanks (strtol (skip_blanks s)).2
                       +:+ "' while parsing atomic proposition `" +:+ str
                       +:+ "'." +:+ nl)
              else Rule varid op (to_int (strtol (skip_blanks s)).1)
          end
    end.
Proof.
  intros Hscan Hname. unfold convert_ap.
  destruct (skip_blanks (c_str str)) as [|c s] eqn:Es.
  { simpl in Hscan. by injection Hscan as <- _ _. }
  cbn [is_empty]. rewrite Hscan.
  destruct name as [|c0 name0]; [done|]. cbn [is_empty].
  destruct (intvars_index model !! String c0 name0) as [varid|].
  - destruct (is_empty rest); [done|].
    destruct (parse_relop rest) as [[o s']|]; [|done].
    by destruct (strtol (skip_blanks s')) as [v s_end].
  - unfold process_part, location_part.
    destruct lastdot as [i|];
      by destruct (processes model !! _).
Qed.

Lemma append_cons (c : ascii) (s t : string) :
  String c s +:+ t = String c (s +:+ t).
Proof. reflexivity. Qed.

Lemma append_nil_l (s : string) : EmptyString +:+ s = s.
Proof. reflexivity. Qed.

Lemma append_nil_r (s : string) : s +:+ EmptyString = s.
Proof. induction s as [|c s IH]; [done|]. by rewrite append_cons, IH. Qed.

Lemma append_assoc (s t u : string) : (s +:+ t) +:+ u = s +:+ (t +:+ u).
Proof.
  induction s as [|c s IH]; [done|]. by rewrite !append_cons, IH.
Qed.

Lemma plain_cons (c : ascii) (s : string) :
  plain (String c s) = true →
  is_blank c = false ∧ is_relop_start c = false ∧
  (c =? "000")%char = false ∧ plain s = true.
Proof.
  simpl. rewrite !andb_true_iff, !negb_true_iff. tauto.
Qed.

Lemma c_str_plain (s t : string) :
  plain s = true → c_str (s +:+ t) = s +:+ c_str t.
Proof.
  induction s as [|c s IH]; [done|].
  intros (_ & _ & Hz & Hs)%plain_cons. rewrite !append_cons.
  cbn [c_str]. rewrite Hz. by rewrite IH.
Qed.

Lemma skip_blanks_plain (s t : string) :
  plain s = true → s ≠ EmptyString → skip_blanks (s +:+ t) = s +:+ t.
Proof.
  destruct s as [|c s]; [done|].
  intros (Hb & _)%plain_cons _. rewrite append_cons. cbn [skip_blanks].
  by rewrite Hb.
Qed.

Lemma scan_name_plain (s t name : string) (ld : option nat) :
  plain s = true →
  ∃ ld', scan_name (s +:+ t) name ld = scan_name t (name +:+ s) ld'.
Proof.
  revert name ld. induction s as [|c s IH]; intros name ld.
  - intros _. exists ld. by rewrite append_nil_l, append_nil_r.
  - intros (Hb & Hr & _ & Hs)%plain_cons. rewrite append_cons.
    cbn [scan_name]. rewrite Hr, Hb.
    destruct (IH (name +:+ String c EmptyString)
                (if (c =? ".")%char then Some (String.length name) else ld)
                Hs) as [ld' ->].
    exists ld'. by rewrite append_assoc, append_cons, append_nil_l.
Qed.

(** The two forms of the specification, for a variable whose name is an
    identifier. *)
Lemma convert_ap_variable_texts (model : model_t) (V : string) (v : nat) :
  plain V = true → V ≠ EmptyString →
  intvars_index model !! V = Some v →
  convert_ap model V = Rule v OP_NE 0 ∧
  convert_ap model (V +:+ "==3") = Rule v OP_EQ 3.
Proof.
  intros Hp Hne Hv. split.
  - destruct (scan_name_plain V EmptyString EmptyString None Hp) as [ld Hs].
    rewrite append_nil_l in Hs. cbn [scan_name] in Hs.
    rewrite append_nil_r in Hs.
    rewrite (convert_ap_scanned model V V EmptyString ld); [by rewrite Hv|
                                                            |done].
    rewrite <- (append_nil_r V) at 1.
    rewrite c_str_plain, skip_blanks_plain by done. cbn [c_str].
    by rewrite append_nil_r.
  - destruct (scan_name_plain V "==3" EmptyString None Hp) as [ld Hs].
    rewrite append_nil_l in Hs.
    rewrite (convert_ap_scanned model (V +:+ "==3") V "==3" ld);
      [by rewrite Hv| |done].
    rewrite c_str_plain, skip_blanks_plain by done. exact Hs.
Qed.

Lemma occurs_in_contains (needle s : string) :
  occurs_in needle s → contains needle s = true.
Proof.
  intros (before & after & ->). induction before as [|c before IH].
  - rewrite append_nil_l. clear.
    assert (is_prefix needle (needle +:+ after) = true) as H.
    { induction needle as [|a needle IH]; [done|].
      rewrite append_cons. cbn [is_prefix]. by rewrite Ascii.eqb_refl, IH. }
    destruct (needle +:+ after); cbn [contains]; by rewrite H.
  - rewrite append_cons. cbn [contains]. rewrite IH. apply orb_true_r.
Qed.

(** * Batches *)

Lemma register_owns_var_keep (o o' : nat) (d : bdd_dict) (f g : formula)
    (v : nat) :
  owns_var o d g v → owns_var o (register_proposition f o' d).2 g v.
Proof.
  intros (r & Hg & Ho). unfold register_proposition.
  destruct (d !! f) as [[v' r']|] eqn:E; simpl.
  - destruct (decide (f = g)) as [->|Hne].
    + rewrite Hg in E. injection E as <- <-.
      exists ({[o']} ∪ r). rewrite lookup_insert_eq. split; [done|set_solver].
    + exists r. by rewrite lookup_insert_ne.
  - destruct (decide (f = g)) as [->|Hne]; [congruence|].
    exists r. by rewrite lookup_insert_ne.
Qed.

Lemma register_owns_var_new (o : nat) (d : bdd_dict) (f : formula) :
  owns_var o (register_proposition f o d).2 f (register_proposition f o d).1.
Proof.
  unfold register_proposition. destruct (d !! f) as [[v r]|]; simpl.
  - exists ({[o]} ∪ r). rewrite lookup_insert_eq. split; [done|set_solver].
  - exists {[o]}. rewrite lookup_insert_eq. split; [done|set_solver].
Qed.

Lemma register_all_owns_var_keep (o o' : nat) (aps : list string)
    (d : bdd_dict) (g : formula) (v : nat) :
  owns_var o d g v → owns_var o (register_all o' aps d) g v.
Proof.
  revert d. induction aps as [|ap aps IH]; intros d H; [done|].
  apply IH. by apply register_owns_var_keep.
Qed.

Lemma register_all_other (o : nat) (aps : list string) (d : bdd_dict)
    (f : formula) :
  (∀ ap, ap ∈ aps → f_ap ap ≠ f) → register_all o aps d !! f = d !! f.
Proof.
  revert d. induction aps as [|ap aps IH]; intros d H; [done|].
  simpl. rewrite IH by (intros a Ha; apply H; by right).
  unfold register_proposition.
  assert (f_ap ap ≠ f) by (apply H; by left).
  destruct (d !! f_ap ap) as [[v r]|]; simpl; by rewrite lookup_insert_ne.
Qed.

(** What [o] registered shows in the dictionary as [o] among the owners
    of a formula that was registered already, or as a new formula owned by
    [o] alone. *)
Lemma register_all_shape (o : nat) (aps : list string) (d : bdd_dict)
    (f : formula) :
  register_all o aps d !! f = d !! f ∨
  (∃ v r, d !! f = Some (v, r) ∧
          register_all o aps d !! f = Some (v, {[o]} ∪ r)) ∨
  (∃ v, d !! f = None ∧ register_all o aps d !! f = Some (v, {[o]})).
Proof.
  induction aps as [|ap aps IH] using rev_ind; [by left|].
  unfold register_all in *. rewrite fold_left_app. simpl.
  set (dk := fold_left _ aps d) in *.
  unfold register_proposition.
  destruct (decide (f_ap ap = f)) as [<-|Hne].
  - destruct (dk !! f_ap ap) as [[v r]|] eqn:E; simpl;
      rewrite lookup_insert_eq.
    + destruct IH as [IH|[(v' & r' & Hd & IH)|(v' & Hd & IH)]].
      * right. left. exists v, r. by rewrite <- IH.
      * right. left. exists v', r'. split; [done|].
        injection IH as -> ->. do 2 f_equal.
        by rewrite (assoc_L (∪)), (idemp_L (∪)).
      * right. right. exists v'. split; [done|].
        injection IH as -> ->. do 2 f_equal. by rewrite (idemp_L (∪)).
    + destruct IH as [IH|[(v' & r' & Hd & IH)|(v' & Hd & IH)]];
        try done.
      right. right. eexists. by rewrite <- IH.
  - destruct (dk !! f_ap ap) as [[v r]|]; simpl;
      by rewrite lookup_insert_ne.
Qed.

Lemma unregister_register_all (o : nat) (aps : list string) (d : bdd_dict) :
  (∀ f v r, d !! f = Some (v, r) → (o ∉ r) ∧ (r ≠ ∅)) →
  unregister_all_my_variables o (register_all o aps d) = d.
Proof.
  intros Hfresh. apply map_eq. intros f.
  unfold unregister_all_my_variables. rewrite lookup_omap.
  destruct (register_all_shape o aps d f)
    as [->|[(v & r & Hd & ->)|(v & Hd & ->)]].
  - destruct (d !! f) as [[v r]|] eqn:E; [|done]. simpl.
    destruct (Hfresh f v r E) as [Ho _]. by rewrite decide_False.
  - simpl. destruct (Hfresh f v r Hd) as [Ho Hne].
    rewrite decide_True by (by apply elem_of_union_l, elem_of_singleton).
    assert (({[o]} ∪ r) ∖ {[o]} = r) as Hset.
    { apply set_eq. intros x.
      rewrite elem_of_difference, elem_of_union, elem_of_singleton.
      split; [intros [[->|H] Hn]; done|].
      intros H. split; [by right|]. by intros ->. }
    rewrite Hset. by rewrite decide_False, Hd.
  - simpl. rewrite decide_True by (by apply elem_of_singleton).
    rewrite decide_True by apply difference_diag_L. done.
Qed.

Lemma unregister_not_owner (o : nat) (d : bdd_dict) (f : formula)
    (v : nat) (r : gset nat) :
  unregister_all_my_variables o d !! f = Some (v, r) → o ∉ r.
Proof.
  unfold unregister_all_my_variables. rewrite lookup_omap.
  destruct (d !! f) as [[v' r']|]; [|done]. simpl.
  repeat case_decide; intros [= <- <-]; [|done].
  rewrite elem_of_difference, elem_of_singleton. intros [_ Hn]. by apply Hn.
Qed.

Lemma diagnostics_cons (model : model_t) (dead : formula) (ap : string)
    (aps : list string) :
  diagnostics model dead (ap :: aps)
  = (if decide (f_ap ap = dead) then []
     else match convert_ap model ap with
          | Error msg => [msg]
          | Rule _ _ _ => []
          end) ++ diagnostics model dead aps.
Proof.
  unfold diagnostics, attempted. rewrite filter_cons.
  destruct (decide (f_ap ap = dead)) as [E|E].
  - by rewrite decide_False by (intros H; by apply H).
  - rewrite decide_True by done. simpl. unfold diagnostic at 1.
    by destruct (convert_ap model ap).
Qed.

Lemma well_formed_props_cons (model : model_t) (dead : formula)
    (ap : string) (aps : list string) :
  well_formed_props model dead (ap :: aps)
  = (if decide (f_ap ap = dead) then []
     else match convert_ap model ap with
          | Error msg => []
          | Rule _ _ _ => [ap]
          end) ++ well_formed_props model dead aps.
Proof.
  unfold well_formed_props, attempted. rewrite filter_cons.
  destruct (decide (f_ap ap = dead)) as [E|E].
  - by rewrite decide_False by (intros H; by apply H).
  - rewrite decide_True by done. rewrite filter_cons.
    destruct (decide (diagnostic model ap = None)) as [H|H];
      unfold diagnostic in H; by destruct (convert_ap model ap).
Qed.

(** The loop of [convert_aps], in one equation: the dictionary gets the
    registrations of the propositions that compile, [out] their rules,
    [err] the messages of the others, and [errors] counts these. *)
Lemma convert_aps_loop_spec (model : model_t) (dead : formula) (o : nat)
    (aps : list string) (d : bdd_dict) (out : prop_list) (errors : Z)
    (err : string) :
  ∃ new,
    convert_aps_loop model aps dead o d out errors err
    = (register_all o (well_formed_props model dead aps) d, out ++ new,
       errors + Z.of_nat (length (diagnostics model dead aps)),
       err +:+ concat_messages (diagnostics model dead aps)) ∧
    Forall2 (entry_of model o
               (register_all o (well_formed_props model dead aps) d))
      (well_formed_props model dead aps) new.
Proof.
  revert d out errors err.
  induction aps as [|ap aps IH]; intros d out errors err.
  - exists []. simpl. rewrite app_nil_r, Z.add_0_r, append_nil_r.
    split; [done|constructor].
  - cbn [convert_aps_loop].
    rewrite diagnostics_cons, well_formed_props_cons.
    destruct (decide (f_ap ap = dead)) as [E|E]; [apply IH|].
    destruct (convert_ap model ap) as [vn o' v|msg] eqn:Hc.
    + destruct (register_proposition (f_ap ap) o d) as [bv d'] eqn:Hreg.
      destruct (IH d' (out ++ [{| var_num := vn; op := o'; val := v;
                                  bddvar := bv |}]) errors err)
        as (new & -> & Hnew).
      exists ({| var_num := vn; op := o'; val := v; bddvar := bv |} :: new).
      assert (d' = (register_proposition (f_ap ap) o d).2) as Hd'
        by by rewrite Hreg.
      simpl. rewrite <- Hd', <- app_assoc. split; [done|].
      constructor; [|done]. split; [done|]. simpl.
      apply register_all_owns_var_keep. rewrite Hd'.
      replace bv with (register_proposition (f_ap ap) o d).1
        by by rewrite Hreg.
      apply register_owns_var_new.
    + destruct (IH d out (errors + 1) (err +:+ msg)) as (new & -> & Hnew).
      exists new. split; [|done]. simpl. rewrite append_assoc.
      do 2 f_equal. lia.
Qed.

(** * More on the handle *)

Lemma world_eq (w w' : world) :
  cells w = cells w' → free_list w = free_list w' →
  next_cell w = next_cell w' → zg_refs w = zg_refs w' →
  iter_cache_ w = iter_cache_ w' → w = w'.
Proof. destruct w, w'. simpl. by intros -> -> -> -> ->. Qed.

(** X1.  A clone followed by a release leaves everything as it was, also when
    the counter wraps around in between. *)
Theorem clone_destroy_round_trip (a : nat) (s : tcltl_state) (w : world) :
  cells w !! a = Some s → 0 < count_ s < 2 ^ 32 →
  destroy a (clone a w).2 = w.
Proof.
  intros Hs Hc. rewrite (clone_live a s w Hs).
  assert (wrap32 (wrap32 (count_ s + 1) - 1) = count_ s) as Hw.
  { rewrite wrap32_sub_l. replace (count_ s + 1 - 1) with (count_ s) by lia.
    apply wrap32_small. lia. }
  erewrite destroy_keeps; [|apply lookup_insert_eq|]; simpl.
  - rewrite set_cells_insert_insert, Hw.
    apply set_cells_id. apply insert_id. rewrite Hs. by destruct s.
  - rewrite Hw. lia.
Qed.

(** X2.  Handles that compare equal have the same hash; comparing equal is
    symmetric and means being the same handle or wrapping structurally
    equal states with the same hash; and on different hashes the two
    directions of [compare] are opposite. *)
Theorem compare_agrees_with_hash (w : world) (a b : nat)
    (s o : tcltl_state) :
  cells w !! a = Some s → cells w !! b = Some o →
  (compare a b w = Some 0 ↔
   a = b ∨ (hash_val_ s = hash_val_ o ∧
            zg_obj (zg_state_ s) = zg_obj (zg_state_ o))) ∧
  (compare a b w = Some 0 → hash a w = hash b w) ∧
  (compare a b w = Some 0 ↔ compare b a w = Some 0) ∧
  (hash_val_ s ≠ hash_val_ o →
   ∃ c, (c = 1 ∨ c = -1) ∧ compare a b w = Some c ∧
        compare b a w = Some (- c)).
Proof.
  intros Ha Hb. unfold hash. rewrite Ha, Hb. simpl.
  destruct (decide (a = b)) as [->|Hne].
  - rewrite Ha in Hb. injection Hb as <-. unfold compare.
    rewrite decide_True by done.
    split; [split; auto|]. split; [done|]. split; [done|]. by intros H.
  - assert (b ≠ a) as Hne' by (intros E; by apply Hne).
    assert (∃ cab cba,
              compare a b w = Some cab ∧ compare b a w = Some cba ∧
              ((hash_val_ s < hash_val_ o ∧ cab = -1 ∧ cba = 1) ∨
               (hash_val_ s > hash_val_ o ∧ cab = 1 ∧ cba = -1) ∨
               (hash_val_ s = hash_val_ o ∧
                zg_obj (zg_state_ s) = zg_obj (zg_state_ o) ∧
                cab = 0 ∧ cba = 0) ∨
               (hash_val_ s = hash_val_ o ∧
                zg_obj (zg_state_ s) ≠ zg_obj (zg_state_ o) ∧
                cab = 1 ∧ cba = 1))) as (cab & cba & -> & -> & Hv).
    { unfold compare. rewrite !decide_False by done.
      rewrite Ha, Hb. simpl. eexists _, _. split; [done|]. split; [done|].
      destruct (Z.lt_trichotomy (hash_val_ s) (hash_val_ o))
        as [Hlt|[Heq|Hgt]];
        destruct (decide (zg_obj (zg_state_ s) = zg_obj (zg_state_ o)))
          as [Hz|Hz];
        repeat (case_decide; try lia; try congruence);
        auto 10 with lia. }
    destruct Hv as [(H1 & -> & ->)|[(H1 & -> & ->)|[(H1 & H2 & -> & ->)
                   |(H1 & H2 & -> & ->)]]].
    + split; [split; [intros [=]|intros [?|[? ?]]; [done|lia]]|].
      split; [intros [=]|]. split; [split; intros [=]|].
      intros _. exists (-1). auto.
    + split; [split; [intros [=]|intros [?|[? ?]]; [done|lia]]|].
      split; [intros [=]|]. split; [split; intros [=]|].
      intros _. exists 1. auto.
    + split; [split; [auto|done]|].
      split; [intros _; by rewrite H1|]. split; [done|]. done.
    + split; [split; [intros [=]|intros [?|[? ?]]; done]|].
      split; [intros [=]|]. split; [split; intros [=]|]. done.
Qed.
Section MoreAdapter.

Variable hash_value : zg_state → Z.

Lemma delete_cc_wf (ts : list nat) (w : world) :
  pool_wf w → pool_wf (delete_cc ts w).
Proof.
  revert w. induction ts as [|t ts IH]; intros w Hwf; [done|].
  apply IH. by apply destroy_wf.
Qed.

Lemma succ_iter_loop_wf (range : list shared_state_ptr_t) (acc : list nat)
    (w : world) :
  pool_wf w → pool_wf (succ_iter_loop hash_value range acc w).2.
Proof.
  revert acc w. induction range as [|z range IH]; intros acc w Hwf; [done|].
  simpl. pose proof (new_tcltl_state_wf hash_value z w Hwf) as H.
  destruct (new_tcltl_state hash_value z w) as [a w']. by apply IH.
Qed.

Lemma get_init_state_loop_wf (range : list shared_state_ptr_t) (b : bool)
    (res : option nat) (w : world) :
  pool_wf w → pool_wf (get_init_state_loop hash_value range b res w).1.
Proof.
  revert b res w. induction range as [|z range IH]; intros b res w Hwf;
    [done|].
  simpl. destruct b; [|done].
  pose proof (new_tcltl_state_wf hash_value z w Hwf) as H.
  destruct (new_tcltl_state hash_value z w) as [a w']. by apply IH.
Qed.

(** X3.  The pool stays well formed: whatever the adapter does to live
    handles, the cells on the free list and the cells never handed out
    hold no object, so that an allocation never lands on a live handle.
    The state given to [succ_iter] is live, the batch of a cached iterator
    and a batch that is deleted are made of distinct live handles, and the
    handle under the cursor of [dst] is live. *)
Theorem adapter_keeps_pool_wf (k : tcltl_kripke) (w : world) :
  pool_wf w →
  pool_wf (get_init_state hash_value k w).1 ∧
  (∀ st it w',
     is_Some (cells w !! st) →
     (∀ old, iter_cache_ w = Some old → live_batch (cc_transitions old) w) →
     succ_iter hash_value k st w = Some (it, w') → pool_wf w') ∧
  (∀ i t w',
     (∀ a, cc_transitions i !! it_ i = Some a → is_Some (cells w !! a)) →
     dst i w = Some (t, w') → pool_wf w') ∧
  (∀ ts, live_batch ts w → pool_wf (delete_cc ts w)).
Proof.
  intros Hwf. split; [by apply get_init_state_loop_wf|]. split; [|split].
  - intros st it w' _ _. unfold succ_iter.
    destruct (cells w !! st) as [zs|]; [|done]. cbn [mbind option_bind].
    pose proof (succ_iter_loop_wf
                  (outgoing (ts_ k) (zg_obj (zg_state_ zs)))
                  [] w Hwf) as H1.
    destruct (succ_iter_loop hash_value _ [] w) as [tr w1]. simpl in H1.
    assert (∀ sc tr2 w2,
              pool_wf w2 →
              match iter_cache_ w2 with
              | Some it0 =>
                  Some ({| cc_transitions := tr2; cond_ := sc;
                           it_ := it_ it0 |},
                        set_iter_cache None
                          (delete_cc (cc_transitions it0) w2))
              | None =>
                  Some ({| cc_transitions := tr2; cond_ := sc; it_ := 0%nat |},
                        w2)
              end = Some (it, w') → pool_wf w') as Hend.
    { intros sc tr2 w2 H2. destruct (iter_cache_ w2) as [it0|].
      - intros [= _ <-]. by apply (delete_cc_wf (cc_transitions it0)) in H2.
      - by intros [= _ <-]. }
    destruct (negb (bool_decide (tr = []))); [by apply Hend|].
    case_decide; [|by apply Hend].
    apply Hend. by apply clone_wf.
  - intros i t w' _. unfold dst.
    destruct (cc_transitions i !! it_ i) as [a|]; [|done]. simpl.
    intros [= _ <-]. by apply clone_wf.
  - intros ts _. by apply delete_cc_wf.
Qed.

Lemma new_tcltl_state_cells (z : shared_state_ptr_t) (w : world) :
  cells (new_tcltl_state hash_value z w).2
  = <[ (new_tcltl_state hash_value z w).1 :=
         {| hash_val_ := wrap32 (hash_value (zg_obj z)); count_ := 1;
            zg_state_ := z |} ]> (cells w).
Proof.
  unfold new_tcltl_state. pose proof (pool_allocate_cells w) as H.
  destruct (pool_allocate w) as [a w1]. simpl in *. by rewrite H.
Qed.

Lemma new_tcltl_state_zg_count (z z' : shared_state_ptr_t) (w : world) :
  zg_count (new_tcltl_state hash_value z w).2 z'
  = zg_count w z' + zg_occurrences z' [z].
Proof.
  unfold new_tcltl_state, zg_count, zg_occurrences.
  assert (zg_refs (pool_allocate w).2 = zg_refs w) as Hz
    by (unfold pool_allocate; by destruct (free_list w)).
  destruct (pool_allocate w) as [a w1]. simpl in *. rewrite Hz.
  rewrite filter_cons, filter_nil. rewrite lookup_insert.
  destruct (decide (zg_id z = zg_id z')) as [E|E]; simpl.
  - by rewrite E.
  - lia.
Qed.

Lemma new_tcltl_state_iter_cache (z : shared_state_ptr_t) (w : world) :
  iter_cache_ (new_tcltl_state hash_value z w).2 = iter_cache_ w.
Proof. unfold new_tcltl_state, pool_allocate. by destruct (free_list w). Qed.

Lemma zg_occurrences_cons (z z' : shared_state_ptr_t)
    (zs : list shared_state_ptr_t) :
  zg_occurrences z (z' :: zs) = zg_occurrences z [z'] + zg_occurrences z zs.
Proof.
  unfold zg_occurrences. rewrite !filter_cons, filter_nil.
  destruct (decide (zg_id z' = zg_id z)); simpl; lia.
Qed.

(** What the first loop of [succ_iter] allocates. *)
Lemma succ_iter_loop_spec (range : list shared_state_ptr_t)
    (acc : list nat) (w : world) :
  pool_wf w →
  ∃ new,
    (succ_iter_loop hash_value range acc w).1 = acc ++ new ∧
    Forall2 (fresh_handle_for hash_value
               (succ_iter_loop hash_value range acc w).2) range new ∧
    NoDup new ∧
    (∀ a, a ∈ new → cells w !! a = None) ∧
    (∀ b, b ∉ new →
          cells (succ_iter_loop hash_value range acc w).2 !! b
          = cells w !! b) ∧
    iter_cache_ (succ_iter_loop hash_value range acc w).2 = iter_cache_ w ∧
    (∀ z, zg_count (succ_iter_loop hash_value range acc w).2 z
          = zg_count w z + zg_occurrences z range).
Proof.
  revert acc w. induction range as [|z range IH]; intros acc w Hwf.
  - exists []. simpl. rewrite app_nil_r.
    split; [done|]. split; [constructor|]. split; [constructor|].
    split; [intros a Ha; by apply elem_of_nil in Ha|].
    split; [done|]. split; [done|].
    intros z. unfold zg_occurrences. simpl. lia.
  - simpl.
    pose proof (new_tcltl_state_wf hash_value z w Hwf) as Hwf'.
    pose proof (new_tcltl_state_lookup hash_value z w) as Hl.
    pose proof (new_tcltl_state_cells z w) as Hcells.
    pose proof (new_tcltl_state_iter_cache z w) as Hic.
    pose proof (λ z', new_tcltl_state_zg_count z z' w) as Hzg.
    pose proof (pool_allocate_fresh w Hwf) as Hf.
    assert ((new_tcltl_state hash_value z w).1 = (pool_allocate w).1) as Ha1
      by (unfold new_tcltl_state; by destruct (pool_allocate w)).
    rewrite <- Ha1 in Hf.
    destruct (new_tcltl_state hash_value z w) as [a w0]. simpl in *.
    destruct (IH (acc ++ [a]) w0 Hwf')
      as (new & Htr & Hall & Hnd & Hfresh & Hkeep & Hc & Hcount).
    assert (a ∉ new) as Hanew.
    { intros Hin. apply Hfresh in Hin. by rewrite Hl in Hin. }
    exists (a :: new). rewrite Htr, <- app_assoc. simpl.
    split; [done|]. split; [|split; [|split; [|split; [|split]]]].
    + constructor; [|done]. unfold fresh_handle_for.
      by rewrite Hkeep.
    + by constructor.
    + intros b [->|Hb]%elem_of_cons; [done|].
      apply Hfresh in Hb. rewrite Hcells in Hb.
      rewrite lookup_insert_ne in Hb; [done|].
      intros ->. by rewrite lookup_insert_eq in Hb.
    + intros b Hb. apply not_elem_of_cons in Hb as [Hba Hb].
      rewrite Hkeep, Hcells by done. by rewrite lookup_insert_ne.
    + by rewrite Hc.
    + intros z'. rewrite Hcount, Hzg, (zg_occurrences_cons z' z range). lia.
Qed.

(** X4.  For a state with successors, [succ_iter] allocates one handle per
    successor, in the order of the zone graph: distinct cells that held no
    object, each with one reference and the hash of its state; the handles
    that were live before are left as they were. *)
Theorem succ_iter_allocates_successors (k : tcltl_kripke) (st : nat)
    (zs : tcltl_state) (w : world) :
  pool_wf w → cells w !! st = Some zs → iter_cache_ w = None →
  outgoing (ts_ k) (zg_obj (zg_state_ zs)) ≠ [] →
  ∃ it w',
    succ_iter hash_value k st w = Some (it, w') ∧
    Forall2 (fresh_handle_for hash_value w')
      (outgoing (ts_ k) (zg_obj (zg_state_ zs))) (cc_transitions it) ∧
    NoDup (cc_transitions it) ∧
    (∀ a, a ∈ cc_transitions it → cells w !! a = None) ∧
    (∀ b, is_Some (cells w !! b) → cells w' !! b = cells w !! b).
Proof.
  intros Hwf Hst Hic Hout. unfold succ_iter. rewrite Hst.
  cbn [mbind option_bind].
  pose proof (succ_iter_loop_nonempty hash_value _ w Hout) as Hne.
  destruct (succ_iter_loop_spec
              (outgoing (ts_ k) (zg_obj (zg_state_ zs))) [] w Hwf)
    as (new & Htr & Hall & Hnd & Hfresh & Hkeep & Hc & _).
  destruct (succ_iter_loop hash_value _ [] w) as [tr w1]. simpl in *.
  subst tr. rewrite bool_decide_eq_false_2 by done. cbn [negb].
  rewrite Hc, Hic. eexists _, _. split; [done|]. simpl.
  split; [done|]. split; [done|]. split; [done|].
  intros b Hb. apply Hkeep. intros Hin. apply Hfresh in Hin.
  rewrite Hin in Hb. by destruct Hb.
Qed.

(** X5.  When the adapter does not care about dead states (its dead condition
    is false), a state without successor gets an iterator without
    transition, whose traversal is over before it starts, and -- unless an
    iterator is recycled -- nothing changes in the pool: no handle is
    allocated and the state is not cloned. *)
Theorem succ_iter_dead_state_ignored (k : tcltl_kripke) (st : nat)
    (zs : tcltl_state) (w : world) :
  cells w !! st = Some zs →
  outgoing (ts_ k) (zg_obj (zg_state_ zs)) = [] →
  dead_prop k = bddfalse →
  ∃ it w',
    succ_iter hash_value k st w = Some (it, w') ∧
    cc_transitions it = [] ∧ cond_ it = bddfalse ∧
    (first it).1 = false ∧ done (first it).2 = true ∧
    (iter_cache_ w = None → w' = w).
Proof.
  intros Hst Hout Hd.
  destruct (succ_iter_dead hash_value k st zs w Hst Hout)
    as (it & w' & Hs & Hc & Ht).
  assert (cond_ it = bddfalse) as Hf.
  { rewrite Hc, Hd. by destruct (state_condition k _). }
  rewrite decide_False in Ht by (intros H; by apply H).
  exists it, w'. split; [done|]. split; [done|]. split; [done|].
  unfold first, done. rewrite Ht. simpl. split; [done|]. split; [done|].
  intros Hic. revert Hs. unfold succ_iter. rewrite Hst.
  cbn [mbind option_bind]. rewrite Hout. cbn [succ_iter_loop].
  rewrite bool_decide_eq_true_2 by done. cbn [negb].
  rewrite <- Hc, Hf. rewrite decide_False by (intros H; by apply H).
  rewrite Hic. by intros [= _ <-].
Qed.

Lemma Forall2_impl_elem {A B} (P Q : A → B → Prop) (l : list A)
    (k : list B) :
  Forall2 P l k → (∀ x y, y ∈ k → P x y → Q x y) → Forall2 Q l k.
Proof.
  induction 1 as [|x y l k Hxy Hall IH]; intros Himp; constructor.
  - apply Himp; [by left|done].
  - apply IH. intros x' y' Hy'. apply Himp. by right.
Qed.

(** Releasing handles that hold one reference each. *)
Lemma delete_cc_single_refs (zs : list shared_state_ptr_t) (ts : list nat)
    (w : world) :
  NoDup ts →
  Forall2 (fresh_handle_for hash_value w) zs ts →
  (∀ b, cells (delete_cc ts w) !! b
        = if decide (b ∈ ts) then None else cells w !! b) ∧
  (∀ z, zg_count (delete_cc ts w) z = zg_count w z - zg_occurrences z zs) ∧
  free_list (delete_cc ts w) = reverse ts ++ free_list w.
Proof.
  intros Hnd Hall. revert ts w Hall Hnd.
  induction zs as [|z0 zs IH]; intros ts w Hall Hnd.
  - apply Forall2_nil_inv_l in Hall as ->. simpl.
    split; [|split; [|done]].
    + intros b. by destruct (decide (b ∈ [])) as [H%elem_of_nil|].
    + intros z. unfold zg_occurrences. simpl. lia.
  - apply Forall2_cons_inv_l in Hall as (a & ts' & Ha & Hall & ->).
    apply NoDup_cons in Hnd as [Hna Hnd]. simpl.
    assert (destroy a w
            = pool_deallocate a (zg_release z0 (set_cells (delete a) w)))
      as Hd by (apply (destroy_last a _ w Ha); reflexivity).
    destruct (IH ts' (destroy a w)) as (Hc & Hz & Hfl); [|done|].
    + eapply Forall2_impl_elem; [exact Hall|].
      intros z b Hbin Hb. unfold fresh_handle_for in *.
      rewrite Hd. simpl. rewrite lookup_delete_ne; [done|].
      intros ->. done.
    + split; [|split].
      * intros b. rewrite Hc, Hd. simpl.
        destruct (decide (b = a)) as [->|Hne].
        -- rewrite decide_False by done. rewrite lookup_delete_eq.
           rewrite decide_True; [done|by left].
        -- rewrite lookup_delete_ne by done.
           destruct (decide (b ∈ ts')) as [Hin|Hin].
           ++ rewrite decide_True; [done|by right].
           ++ rewrite decide_False; [done|].
              by intros [?|?]%elem_of_cons.
      * intros z. rewrite Hz, Hd, (zg_occurrences_cons z z0 zs).
        unfold zg_count, zg_occurrences. simpl.
        rewrite filter_cons, filter_nil, lookup_insert.
        destruct (decide (zg_id z0 = zg_id z)) as [E|E]; simpl.
        -- rewrite E. lia.
        -- lia.
      * rewrite Hfl, Hd. simpl. by rewrite reverse_cons, <- app_assoc.
Qed.

(** X6.  No leak on the regular path: when the batch that the loop of
    [succ_iter] allocated is released (the iterator is destroyed or
    recycled before anybody cloned a destination), every cell of the batch
    is back in the pool, the objects of the pool are those from before the
    call, and every zone-graph state has the number of references it had
    before. *)
Theorem fresh_batch_is_released (range : list shared_state_ptr_t)
    (w : world) :
  pool_wf w →
  let tr := (succ_iter_loop hash_value range [] w).1 in
  let w1 := (succ_iter_loop hash_value range [] w).2 in
  length tr = length range ∧
  cells (delete_cc tr w1) = cells w ∧
  (∀ z, zg_count (delete_cc tr w1) z = zg_count w z) ∧
  (∀ a, a ∈ tr → a ∈ free_list (delete_cc tr w1)) ∧
  pool_wf (delete_cc tr w1).
Proof.
  intros Hwf tr w1.
  destruct (succ_iter_loop_spec range [] w Hwf)
    as (new & Htr & Hall & Hnd & Hfresh & Hkeep & _ & Hcount).
  fold tr w1 in Htr, Hall, Hkeep, Hcount. simpl in Htr. rewrite Htr in *.
  destruct (delete_cc_single_refs range new w1 Hnd Hall) as (Hc & Hz & Hfl).
  split; [symmetry; by eapply Forall2_length|].
  split; [|split; [|split]].
  - apply map_eq. intros b. rewrite Hc. case_decide as Hb.
    + symmetry. by apply Hfresh.
    + by apply Hkeep.
  - intros z. rewrite Hz, Hcount. lia.
  - intros a Ha. rewrite Hfl. apply elem_of_app. left.
    by apply elem_of_reverse.
  - apply delete_cc_wf. by apply succ_iter_loop_wf.
Qed.

(** X7.  The first state handed out by two adapters over structurally equal
    initial states: two distinct handles of the same pool that compare
    equal and have the same hash. *)
Theorem get_init_state_twice (k1 k2 : tcltl_kripke)
    (z1 z2 : shared_state_ptr_t) (w : world) :
  pool_wf w →
  initial (ts_ k1) = [z1] → initial (ts_ k2) = [z2] →
  zg_obj z1 = zg_obj z2 →
  ∃ a1 a2 w1 w2,
    get_init_state hash_value k1 w = (w1, Ok (Some a1)) ∧
    get_init_state hash_value k2 w1 = (w2, Ok (Some a2)) ∧
    fresh_handle_for hash_value w1 z1 a1 ∧
    fresh_handle_for hash_value w2 z1 a1 ∧
    fresh_handle_for hash_value w2 z2 a2 ∧
    a1 ≠ a2 ∧
    compare a1 a2 w2 = Some 0 ∧
    hash a1 w2 = hash a2 w2.
Proof.
  intros Hwf H1 H2 Hz. unfold get_init_state. rewrite H1, H2. simpl.
  pose proof (new_tcltl_state_lookup hash_value z1 w) as Hl1.
  pose proof (new_tcltl_state_wf hash_value z1 w Hwf) as Hwf1.
  destruct (new_tcltl_state hash_value z1 w) as [a1 w1]. simpl in *.
  pose proof (new_tcltl_state_lookup hash_value z2 w1) as Hl2.
  pose proof (new_tcltl_state_other hash_value z2 w1 a1 Hwf1) as Ho.
  pose proof (pool_allocate_fresh w1 Hwf1) as Hf.
  assert ((new_tcltl_state hash_value z2 w1).1 = (pool_allocate w1).1) as Ha
    by (unfold new_tcltl_state; by destruct (pool_allocate w1)).
  rewrite <- Ha in Hf. clear Ha.
  exists a1, (new_tcltl_state hash_value z2 w1).1, w1,
    (new_tcltl_state hash_value z2 w1).2.
  destruct (new_tcltl_state hash_value z2 w1) as [a2 w2]. simpl in *.
  rewrite Hl1 in Ho. specialize (Ho ltac:(eauto)).
  assert (a1 ≠ a2) as Hne.
  { intros E. rewrite E in Hl1. by rewrite Hf in Hl1. }
  unfold fresh_handle_for.
  split; [done|]. split; [done|]. split; [done|]. split; [done|].
  split; [done|]. split; [done|].
  unfold compare, hash. rewrite decide_False by done.
  rewrite Ho, Hl2. simpl. rewrite Hz.
  split; [|done].
  rewrite decide_False by lia. rewrite decide_False by lia.
  rewrite decide_False; [done|]. intros H. by apply H.
Qed.

(** The loop, started anywhere in the batch, returns what is left of
    it. *)
Lemma visit_spec (fuel : nat) (i : tcltl_succ_iterator) (w : world)
    (seen : list nat) :
  (it_ i ≤ length (cc_transitions i))%nat →
  (length (cc_transitions i) - it_ i ≤ fuel)%nat →
  visit fuel i w seen
  = (seen ++ drop (it_ i) (cc_transitions i),
     clone_all (drop (it_ i) (cc_transitions i)) w).
Proof.
  revert i w seen. induction fuel as [|fuel IH]; intros i w seen Hle Hfuel.
  - simpl. unfold done. rewrite bool_decide_eq_true_2 by lia.
    rewrite drop_ge by lia. by rewrite app_nil_r.
  - simpl. unfold done. case_bool_decide as Hd.
    + rewrite drop_ge by lia. by rewrite app_nil_r.
    + unfold dst.
      destruct (cc_transitions i !! it_ i) as [t|] eqn:Ht.
      * simpl. rewrite IH; simpl; [|lia|lia].
        rewrite (drop_S _ _ _ Ht). simpl. by rewrite <- app_assoc.
      * apply lookup_ge_None in Ht. lia.
Qed.

(** X8.  A traversal by [first], [done], [dst] and [next] returns the handles
    of the batch, each once and in order, and takes one reference on each;
    as many turns as the batch is long are enough.  [first] answers false
    exactly when the batch is empty. *)
Theorem traverse_visits_batch (fuel : nat) (i : tcltl_succ_iterator)
    (w : world) :
  (length (cc_transitions i) ≤ fuel)%nat →
  traverse fuel i w = (cc_transitions i, clone_all (cc_transitions i) w) ∧
  ((first i).1 = false ↔ cc_transitions i = []).
Proof.
  intros Hfuel. split.
  - unfold traverse. rewrite visit_spec; simpl; [done|lia|lia].
  - unfold first. simpl. rewrite negb_false_iff.
    by rewrite bool_decide_eq_true.
Qed.

Lemma new_tcltl_state_set_iter_cache (c : option tcltl_succ_iterator)
    (z : shared_state_ptr_t) (w : world) :
  new_tcltl_state hash_value z (set_iter_cache c w)
  = ((new_tcltl_state hash_value z w).1,
     set_iter_cache c (new_tcltl_state hash_value z w).2).
Proof.
  unfold new_tcltl_state, pool_allocate. simpl.
  by destruct (free_list w).
Qed.

Lemma succ_iter_loop_set_iter_cache (c : option tcltl_succ_iterator)
    (range : list shared_state_ptr_t) (acc : list nat) (w : world) :
  succ_iter_loop hash_value range acc (set_iter_cache c w)
  = ((succ_iter_loop hash_value range acc w).1,
     set_iter_cache c (succ_iter_loop hash_value range acc w).2).
Proof.
  revert acc w. induction range as [|z range IH]; intros acc w; [done|].
  simpl. rewrite new_tcltl_state_set_iter_cache.
  destruct (new_tcltl_state hash_value z w) as [a w0]. simpl. apply IH.
Qed.

Lemma destroy_set_iter_cache (c : option tcltl_succ_iterator) (a : nat)
    (w : world) :
  destroy a (set_iter_cache c w) = set_iter_cache c (destroy a w).
Proof.
  unfold destroy. simpl. destruct (cells w !! a); [|done].
  by case_decide.
Qed.

Lemma delete_cc_set_iter_cache (c : option tcltl_succ_iterator)
    (ts : list nat) (w : world) :
  delete_cc ts (set_iter_cache c w) = set_iter_cache c (delete_cc ts w).
Proof.
  revert w. induction ts as [|t ts IH]; intros w; [done|].
  simpl. rewrite destroy_set_iter_cache. apply IH.
Qed.

Lemma delete_cc_iter_cache (ts : list nat) (w : world) :
  iter_cache_ (delete_cc ts w) = iter_cache_ w.
Proof.
  revert w. induction ts as [|t ts IH]; intros w; [done|].
  simpl. rewrite IH. unfold destroy. destruct (cells w !! t); [|done].
  by case_decide.
Qed.

Lemma succ_iter_loop_iter_cache (range : list shared_state_ptr_t)
    (acc : list nat) (w : world) :
  iter_cache_ (succ_iter_loop hash_value range acc w).2 = iter_cache_ w.
Proof.
  revert acc w. induction range as [|z range IH]; intros acc w; [done|].
  simpl. pose proof (new_tcltl_state_iter_cache z w) as H.
  destruct (new_tcltl_state hash_value z w) as [a w0]. simpl in *.
  by rewrite IH.
Qed.

Lemma set_iter_cache_id (c : option tcltl_succ_iterator) (w : world) :
  iter_cache_ w = c → set_iter_cache c w = w.
Proof. destruct w. simpl. by intros ->. Qed.

Lemma set_iter_cache_twice (c c' : option tcltl_succ_iterator) (w : world) :
  set_iter_cache c (set_iter_cache c' w) = set_iter_cache c w.
Proof. done. Qed.

(** X9.  Recycling changes nothing to what [succ_iter] returns: with an
    iterator in the cache, the batch and the condition are those of a new
    iterator; in addition the handles of the old batch are released, after
    the new batch was built, and the cache is emptied. *)
Theorem succ_iter_recycles (k : tcltl_kripke) (st : nat) (w w' : world)
    (it old : tcltl_succ_iterator) :
  iter_cache_ w = None →
  succ_iter hash_value k st w = Some (it, w') →
  succ_iter hash_value k st (set_iter_cache (Some old) w)
  = Some ({| cc_transitions := cc_transitions it; cond_ := cond_ it;
             it_ := it_ old |},
          delete_cc (cc_transitions old) w') ∧
  iter_cache_ (delete_cc (cc_transitions old) w') = None ∧
  iter_cache_ w' = None.
Proof.
  intros Hic. unfold succ_iter. simpl.
  destruct (cells w !! st) as [zs|]; [|done]. cbn [mbind option_bind].
  rewrite succ_iter_loop_set_iter_cache.
  pose proof (succ_iter_loop_iter_cache
                (outgoing (ts_ k) (zg_obj (zg_state_ zs))) [] w) as Hc1.
  rewrite Hic in Hc1.
  destruct (succ_iter_loop hash_value _ [] w) as [tr w1]. simpl in Hc1.
  cbn [fst snd].
  assert (∀ sc tr2 w2,
            iter_cache_ w2 = None →
            match iter_cache_ w2 with
            | Some it0 =>
                Some ({| cc_transitions := tr2; cond_ := sc;
                         it_ := it_ it0 |},
                      set_iter_cache None
                        (delete_cc (cc_transitions it0) w2))
            | None =>
                Some ({| cc_transitions := tr2; cond_ := sc; it_ := 0%nat |},
                      w2)
            end = Some (it, w') →
            match iter_cache_ (set_iter_cache (Some old) w2) with
            | Some it0 =>
                Some ({| cc_transitions := tr2; cond_ := sc;
                         it_ := it_ it0 |},
                      set_iter_cache None
                        (delete_cc (cc_transitions it0)
                           (set_iter_cache (Some old) w2)))
            | None =>
                Some ({| cc_transitions := tr2; cond_ := sc; it_ := 0%nat |},
                      set_iter_cache (Some old) w2)
            end
            = Some ({| cc_transitions := cc_transitions it;
                       cond_ := cond_ it; it_ := it_ old |},
                    delete_cc (cc_transitions old) w') ∧
            iter_cache_ (delete_cc (cc_transitions old) w') = None ∧
            iter_cache_ w' = None) as Hend.
  { intros sc tr2 w2 H2. rewrite H2. intros [= <- <-]. simpl.
    rewrite delete_cc_set_iter_cache, set_iter_cache_twice.
    rewrite set_iter_cache_id by by rewrite delete_cc_iter_cache.
    by rewrite delete_cc_iter_cache. }
  destruct (negb (bool_decide (tr = []))); [by apply Hend|].
  case_decide; [|by apply Hend].
  unfold clone. by apply Hend.
Qed.

End MoreAdapter.

(** * More on labels *)

Lemma bdd_eval_lit (rho : nat → bool) (v : nat) (b : bool) :
  bdd_eval rho (Some {[ v := b ]}) = Bool.eqb (rho v) b.
Proof.
  simpl. destruct (Bool.eqb (rho v) b) eqn:E.
  - apply eqb_prop in E. apply bool_decide_eq_true.
    by apply map_Forall_singleton.
  - apply bool_decide_eq_false. rewrite map_Forall_singleton.
    intros H. rewrite H, eqb_reflx in E. done.
Qed.

Lemma bdd_eval_fold_labels (zs : zg_state) (rho : nat → bool)
    (ps : prop_list) (acc : bdd) :
  bdd_eval rho
    (fold_left
       (λ cond prop,
          bdd_and cond
            ((if prop_holds zs prop then bdd_ithvar else bdd_nithvar)
               (bddvar prop)))
       ps acc)
  = bdd_eval rho acc
    && forallb (λ p, Bool.eqb (rho (bddvar p)) (prop_holds zs p)) ps.
Proof.
  revert acc. induction ps as [|p ps IH]; intros acc.
  - simpl. by rewrite andb_true_r.
  - cbn [fold_left forallb]. rewrite IH, bdd_eval_and.
    assert ((if prop_holds zs p then bdd_ithvar else bdd_nithvar)
              (bddvar p) = Some {[ bddvar p := prop_holds zs p ]}) as ->
      by by destruct (prop_holds zs p).
    by rewrite bdd_eval_lit, andb_assoc.
Qed.

Lemma bdd_eval_true (rho : nat → bool) : bdd_eval rho bddtrue = true.
Proof.
  unfold bddtrue. simpl. rewrite bool_decide_eq_true_2; [done|].
  apply map_Forall_empty.
Qed.

Lemma prop_holds_meaning (zs : zg_state) (p : one_prop) :
  rule_in_range zs p → (prop_holds zs p = true ↔ rule_true zs p).
Proof.
  unfold rule_in_range, rule_true, prop_holds.
  destruct (op p) eqn:Hop.
  all: try (intros Hr; apply lookup_lt_is_Some_2 in Hr as [x Hx];
            rewrite Hx; simpl; rewrite bool_decide_eq_true; split;
            [intros H; by exists x
            |by intros (x' & [= <-] & H)]).
  intros [Hr Hv]. apply lookup_lt_is_Some_2 in Hr as [id Hid].
  rewrite Hid. unfold wrap32. rewrite Z.mod_small by lia.
  rewrite bool_decide_eq_true. split.
  - intros H. by exists id.
  - by intros (id' & [= <-] & H).
Qed.

(** X10.  The label of a state says what is true in the state: it is true
    under an assignment exactly when, for every compiled proposition, the
    assignment makes the variable of the proposition true if and only if
    the process is at the location, resp. the value of the variable
    compares with the constant as the comparator says. *)
Theorem state_condition_eval (k : tcltl_kripke) (zs : zg_state)
    (rho : nat → bool) :
  Forall (rule_in_range zs) (ps_ k) →
  (bdd_eval rho (state_condition k zs) = true ↔
   ∀ p, p ∈ ps_ k → (rho (bddvar p) = true ↔ rule_true zs p)).
Proof.
  intros Hrange. unfold state_condition.
  rewrite bdd_eval_fold_labels, bdd_eval_true, andb_true_l.
  rewrite forallb_forall. rewrite Forall_forall in Hrange.
  split.
  - intros H p Hp. rewrite <- (prop_holds_meaning zs p (Hrange p Hp)).
    specialize (H p (proj1 (list_elem_of_In _ _) Hp)).
    apply eqb_prop in H. by rewrite H.
  - intros H p Hp%list_elem_of_In.
    specialize (H p Hp).
    rewrite <- (prop_holds_meaning zs p (Hrange p Hp)) in H.
    destruct (rho (bddvar p)), (prop_holds zs p); try done.
    + discriminate (proj1 H eq_refl).
    + discriminate (proj2 H eq_refl).
Qed.

(** X11.  In an adapter built by [tc_model::kripke] the label of a state is
    never false, nor is the condition of the edges that leave a state with
    successors: the assignment that gives every compiled proposition its
    truth value in the state, and makes the dead proposition false,
    satisfies both. *)
Theorem built_labels_satisfiable (model : model_t)
    (to_observe : list string) (d d' : bdd_dict) (dead : formula)
    (ps this : nat) (k : tcltl_kripke) (zs : zg_state) :
  dict_wf d →
  tc_model_kripke model to_observe d dead ps this = (d', Ok k) →
  state_condition k zs ≠ bddfalse ∧
  bdd_and (state_condition k zs) (alive_prop k) ≠ bddfalse ∧
  ∃ rho,
    bdd_eval rho (state_condition k zs) = true ∧
    bdd_eval rho (bdd_and (state_condition k zs) (alive_prop k)) = true ∧
    ∀ p, p ∈ ps_ k → rho (bddvar p) = prop_holds zs p.
Proof.
  intros Hwf Hk. apply tc_model_kripke_wf in Hk as [Hkwf _]; [|done].
  pose proof (alive_label_not_false dead k zs Hkwf) as Ha.
  destruct (state_condition_cube dead k zs Hkwf) as (m & Hm & Hspec).
  split; [by rewrite Hm|]. split; [done|].
  destruct (bdd_and (state_condition k zs) (alive_prop k)) as [ma|] eqn:E;
    [|done].
  exists (λ v, default false (ma !! v)).
  assert (bdd_eval (λ v, default false (ma !! v)) (Some ma) = true) as Hma
    by apply bdd_eval_self.
  pose proof Hma as Hboth. rewrite <- E, bdd_eval_and in Hboth.
  apply andb_true_iff in Hboth as [Hs _].
  split; [done|]. split; [done|].
  intros p Hp. unfold state_condition in Hs.
  rewrite bdd_eval_fold_labels, bdd_eval_true, andb_true_l in Hs.
  rewrite forallb_forall in Hs.
  specialize (Hs p (proj1 (list_elem_of_In _ _) Hp)). by apply eqb_prop in Hs.
Qed.

(** * More on the proposition compiler *)

Lemma to_int_range (x : Z) : - 2 ^ 31 <= to_int x < 2 ^ 31.
Proof.
  unfold to_int.
  pose proof (Z.mod_pos_bound (x + 2 ^ 31) (2 ^ 32) ltac:(lia)). lia.
Qed.

(** X12.  A compiled rule refers to what the model has, and its operand fits
    the [int] it is stored in: a comparison is on the id of a known
    variable, with any of the six comparators and an operand within
    [-2^31, 2^31); an at-location rule is on the id of a known process
    with the id of one of its locations. *)
Theorem convert_ap_rule_sound (model : model_t) (str : string)
    (vn : nat) (o : relop) (v : Z) :
  convert_ap model str = Rule vn o v →
  (o ≠ OP_AT ∧ - 2 ^ 31 <= v < 2 ^ 31 ∧
   ∃ name, intvars_index model !! name = Some vn) ∨
  (o = OP_AT ∧
   ∃ P L lid, processes model !! P = Some vn ∧
              locations model !! (P, L) = Some lid ∧ v = Z.of_nat lid).
Proof.
  unfold convert_ap.
  destruct (is_empty (skip_blanks (c_str str))); [done|].
  destruct (scan_name _ EmptyString None) as [[name lastdot] s].
  destruct (is_empty name); [done|].
  destruct (intvars_index model !! name) as [varid|] eqn:Hv.
  - destruct (is_empty s).
    + intros [= <- <- <-]. left. split; [done|]. split; [done|]. eauto.
    + destruct (parse_relop s) as [[o' s']|] eqn:Hp; [|done].
      destruct (strtol (skip_blanks s')) as [val s_end].
      case_decide; [done|].
      destruct (negb (is_empty (skip_blanks s_end))); [done|].
      intros [= <- <- <-]. left.
      split; [|split; [apply to_int_range|eauto]].
      revert Hp. unfold parse_relop. destruct s as [|c s1]; [done|].
      repeat match goal with
             | |- context [if ?b then _ else _] => destruct b
             end; by intros [= <- _].
  - destruct lastdot as [i|]; [|done].
    destruct (processes model !! substring 0 i name) as [procid|] eqn:Hp;
      [|done].
    destruct (locations model !! _) as [lid|] eqn:Hl; [|done].
    destruct (negb (is_empty s)); [done|].
    intros [= <- <- <-]. right. split; [done|]. eauto 10.
Qed.

Lemma ends_with_nl_app (a b : string) :
  (∃ body, b = body +:+ nl) → ∃ body, a +:+ b = body +:+ nl.
Proof.
  intros [body ->]. exists (a +:+ body). by rewrite append_assoc.
Qed.

(** X13.  Every message of the compiler is a line: it ends with a newline, so
    that the text of the aggregated error has one line per proposition
    that does not compile (as long as no name holds a newline). *)
Theorem diagnostic_is_a_line (model : model_t) (ap msg : string) :
  diagnostic model ap = Some msg → ∃ body, msg = body +:+ nl.
Proof.
  assert (∃ body, nl = body +:+ nl) as Hnl by (by exists EmptyString).
  unfold diagnostic. destruct (convert_ap model ap) as [| m] eqn:Hc; [done|].
  intros [= <-]. revert Hc. unfold convert_ap.
  destruct (is_empty (skip_blanks (c_str ap)));
    [intros [= <-]; repeat apply ends_with_nl_app; exact Hnl|].
  destruct (scan_name _ EmptyString None) as [[name lastdot] s].
  destruct (is_empty name);
    [intros [= <-]; repeat apply ends_with_nl_app; exact Hnl|].
  destruct (intvars_index model !! name) as [varid|].
  - destruct (is_empty s); [done|].
    destruct (parse_relop s) as [[o' s']|];
      [|intros [= <-]; repeat apply ends_with_nl_app; exact Hnl].
    destruct (strtol (skip_blanks s')) as [val s_end].
    case_decide;
      [intros [= <-]; repeat apply ends_with_nl_app; exact Hnl|].
    destruct (negb (is_empty (skip_blanks s_end))); [|done].
    intros [= <-]; repeat apply ends_with_nl_app; exact Hnl.
  - destruct lastdot as [i|];
      [|intros [= <-]; repeat apply ends_with_nl_app; exact Hnl].
    destruct (processes model !! substring 0 i name) as [procid|];
      [|intros [= <-]; repeat apply ends_with_nl_app; exact Hnl].
    destruct (locations model !! _) as [lid|];
      [|intros [= <-]; repeat apply ends_with_nl_app; exact Hnl].
    destruct (negb (is_empty s)); [|done].
    intros [= <-]; repeat apply ends_with_nl_app; exact Hnl.
Qed.

Lemma well_formed_props_all (model : model_t) (dead : formula)
    (aps : list string) :
  diagnostics model dead aps = [] →
  well_formed_props model dead aps = attempted dead aps.
Proof.
  unfold diagnostics, well_formed_props.
  induction (attempted dead aps) as [|ap l IH]; [done|].
  simpl. destruct (diagnostic model ap) eqn:E; [done|].
  intros H. rewrite filter_cons, decide_True by done. by rewrite IH.
Qed.

Lemma register_all_owns (o : nat) (aps : list string) (d : bdd_dict)
    (ap : string) :
  ap ∈ aps → ∃ v, owns_var o (register_all o aps d) (f_ap ap) v.
Proof.
  revert d. induction aps as [|a aps IH]; intros d Hin.
  - by apply elem_of_nil in Hin.
  - change (register_all o (a :: aps) d)
      with (register_all o aps (register_proposition (f_ap a) o d).2).
    apply elem_of_cons in Hin as [Heq|Hin].
    + rewrite Heq. eexists.
      apply register_all_owns_var_keep, register_owns_var_new.
    + by apply IH.
Qed.

Lemma tc_model_kripke_built (model : model_t)
    (to_observe : list string) (d : bdd_dict) (dead : formula)
    (ps this : nat) :
  diagnostics model dead to_observe = [] →
  ∃ d' k,
    tc_model_kripke model to_observe d dead ps this = (d', Ok k) ∧
    ts_ k = model_ts model ∧
    Forall2 (entry_of model ps d') (attempted dead to_observe) (ps_ k) ∧
    length (ps_ k) = length (attempted dead to_observe) ∧
    (∀ ap, ap ∈ to_observe → ∃ v, owns_var this d' (f_ap ap) v) ∧
    (dead ≠ f_ff → dead ≠ f_tt →
     ∃ v, owns_var this d' dead v ∧ dead_prop k = bdd_ithvar v ∧
          alive_prop k = bdd_nithvar v).
Proof.
  destruct (convert_aps_loop_spec model dead ps to_observe d [] 0 EmptyString)
    as (out & Hloop & Hout).
  rewrite append_nil_l in Hloop. simpl in Hloop.
  intros Hnone. rewrite Hnone in Hloop. simpl in Hloop.
    rewrite (well_formed_props_all _ _ _ Hnone) in Hloop, Hout.
    set (d1 := register_all ps (attempted dead to_observe) d) in *.
    unfold tc_model_kripke, convert_aps. rewrite Hloop.
    rewrite decide_False by (intros H; by apply H).
    destruct dead as [| |name|id].
    - simpl. eexists _, _. split; [done|]. simpl. split; [done|].
      split; [|split; [by symmetry; eapply Forall2_length|split]].
      + eapply Forall2_impl; [exact Hout|].
        intros ap p [Hr Ho]. split; [done|].
        by apply (register_all_owns_var_keep ps this).
      + intros ap Hap. by apply register_all_owns.
      + done.
    - simpl. eexists _, _. split; [done|]. simpl. split; [done|].
      split; [|split; [by symmetry; eapply Forall2_length|split]].
      + eapply Forall2_impl; [exact Hout|].
        intros ap p [Hr Ho]. split; [done|].
        by apply (register_all_owns_var_keep ps this).
      + intros ap Hap. by apply register_all_owns.
      + done.
    - cbn [new_tcltl_kripke].
      pose proof (register_owns_var_new this d1 (f_ap name)) as Hnew.
      destruct (register_proposition (f_ap name) this d1) as [var d2] eqn:Hr.
      simpl in Hnew.
      eexists _, _. split; [done|]. simpl. split; [done|].
      split; [|split; [by symmetry; eapply Forall2_length|split]].
      + eapply Forall2_impl; [exact Hout|].
        intros ap p [Hrule Ho]. split; [done|].
        apply register_owns_var_keep.
        apply (register_all_owns_var_keep ps this).
        assert (d2 = (register_proposition (f_ap name) this d1).2) as ->
          by by rewrite Hr.
        by apply register_owns_var_keep.
      + intros ap Hap.
        destruct (register_all_owns this to_observe d2 ap Hap) as [v Hv].
        exists v. by apply register_owns_var_keep.
      + intros _ _. exists var. split; [|done].
        apply register_owns_var_keep.
        by apply (register_all_owns_var_keep this this).
    - cbn [new_tcltl_kripke].
      pose proof (register_owns_var_new this d1 (f_other id)) as Hnew.
      destruct (register_proposition (f_other id) this d1) as [var d2] eqn:Hr.
      simpl in Hnew.
      eexists _, _. split; [done|]. simpl. split; [done|].
      split; [|split; [by symmetry; eapply Forall2_length|split]].
      + eapply Forall2_impl; [exact Hout|].
        intros ap p [Hrule Ho]. split; [done|].
        apply (register_all_owns_var_keep ps this).
        assert (d2 = (register_proposition (f_other id) this d1).2) as ->
          by by rewrite Hr.
        by apply register_owns_var_keep.
      + intros ap Hap. by apply register_all_owns.
      + intros _ _. exists var. split; [|done].
        by apply (register_all_owns_var_keep this this).
Qed.

Lemma tc_model_kripke_ok_clean (model : model_t)
    (to_observe : list string) (d : bdd_dict) (dead : formula)
    (ps this : nat) (k : tcltl_kripke) :
  (tc_model_kripke model to_observe d dead ps this).2 = Ok k →
  diagnostics model dead to_observe = [].
Proof.
  destruct (convert_aps_loop_spec model dead ps to_observe d [] 0 EmptyString)
    as (out & Hloop & Hout).
  rewrite append_nil_l in Hloop. simpl in Hloop.
  intros Hk.
  destruct (diagnostics model dead to_observe) as [|msg msgs] eqn:E;
    [done|].
  revert Hk. unfold tc_model_kripke, convert_aps. rewrite Hloop.
  rewrite decide_True by (simpl; lia). done.
Qed.

(** X14.  [tc_model::kripke] succeeds exactly when every proposition other
    than the dead one compiles.  The adapter then has one entry per such
    proposition, in the order of the set, each with the rule of its
    proposition and the variable that the list owns for it in the
    dictionary; the adapter itself owns every observed proposition, and the
    dead proposition. *)
Theorem tc_model_kripke_succeeds (model : model_t)
    (to_observe : list string) (d : bdd_dict) (dead : formula)
    (ps this : nat) :
  (diagnostics model dead to_observe = [] ↔
   ∃ k, (tc_model_kripke model to_observe d dead ps this).2 = Ok k) ∧
  (diagnostics model dead to_observe = [] →
   ∃ d' k,
     tc_model_kripke model to_observe d dead ps this = (d', Ok k) ∧
     ts_ k = model_ts model ∧
     Forall2 (entry_of model ps d') (attempted dead to_observe) (ps_ k) ∧
     length (ps_ k) = length (attempted dead to_observe) ∧
     (∀ ap, ap ∈ to_observe → ∃ v, owns_var this d' (f_ap ap) v) ∧
     (dead ≠ f_ff → dead ≠ f_tt →
      ∃ v, owns_var this d' dead v ∧ dead_prop k = bdd_ithvar v ∧
           alive_prop k = bdd_nithvar v)).
Proof.
  split; [|apply tc_model_kripke_built]. split.
  - intros Hnone.
    destruct (tc_model_kripke_built model to_observe d dead ps this Hnone)
      as (d' & k & -> & _).
    eauto.
  - intros [k Hk]. by eapply tc_model_kripke_ok_clean.
Qed.

(** X15.  An observed proposition, from its text to the label: once
    [tc_model::kripke] has built the adapter, the proposition has in the
    dictionary the variable of its entry in the list, owned by the list and
    by the adapter; the entry is the rule that its text compiles to; and
    under any assignment that satisfies the label of a state, that variable
    has the truth value of the rule in the state. *)
Theorem label_reflects_rule (model : model_t) (to_observe : list string)
    (d d' : bdd_dict) (dead : formula) (ps this : nat) (k : tcltl_kripke)
    (ap : string) :
  tc_model_kripke model to_observe d dead ps this = (d', Ok k) →
  ap ∈ to_observe → f_ap ap ≠ dead →
  ∃ p r,
    p ∈ ps_ k ∧
    convert_ap model ap = Rule (var_num p) (op p) (val p) ∧
    d' !! f_ap ap = Some (bddvar p, r) ∧ ps ∈ r ∧ this ∈ r ∧
    ∀ zs rho,
      bdd_eval rho (state_condition k zs) = true →
      rho (bddvar p) = prop_holds zs p.
Proof.
  intros Hk Hin Hdead.
  assert (diagnostics model dead to_observe = []) as Hnone.
  { apply (tc_model_kripke_ok_clean model to_observe d dead ps this k).
    by rewrite Hk. }
  destruct (tc_model_kripke_built model to_observe d dead ps this Hnone)
    as (d'' & k' & Hk' & _ & Hall & _ & Hthis & _).
  rewrite Hk in Hk'. injection Hk' as <- <-.
  assert (ap ∈ attempted dead to_observe) as Hatt
    by by apply list_elem_of_filter.
  apply list_elem_of_lookup in Hatt as [i Hi].
  destruct (Forall2_lookup_l _ _ _ _ _ Hall Hi)
    as (p & Hp & Hrule & r & Hr & Hps).
  destruct (Hthis ap Hin) as (v & r' & Hr' & Hthis').
  rewrite Hr in Hr'. injection Hr' as <- <-.
  exists p, r. split; [by eapply list_elem_of_lookup_2|].
  split; [done|]. split; [done|]. split; [done|]. split; [done|].
  intros zs rho Hs. unfold state_condition in Hs.
  rewrite bdd_eval_fold_labels, bdd_eval_true, andb_true_l in Hs.
  rewrite forallb_forall in Hs.
  apply eqb_prop, Hs, list_elem_of_In. by eapply list_elem_of_lookup_2.
Qed.

(** X16.  What [convert_aps] does to the shared dictionary, whether it throws
    or not: distinct formulas keep distinct variables, no formula loses or
    changes its variable, the dead proposition is not touched, and a
    formula is new in the dictionary only if it is a proposition of the
    batch that compiles -- it is then owned by the list alone. *)
Theorem convert_aps_dictionary (model : model_t) (aps : list string)
    (d : bdd_dict) (dead : formula) (ps : nat) :
  dict_wf d →
  let d1 := (convert_aps aps model d dead ps []).1.1 in
  dict_wf d1 ∧ dict_le d d1 ∧
  d1 !! dead = d !! dead ∧
  (∀ f v r,
     d1 !! f = Some (v, r) → d !! f = None →
     r = {[ ps ]} ∧
     ∃ ap, f = f_ap ap ∧ ap ∈ attempted dead aps ∧
           diagnostic model ap = None).
Proof.
  intros Hwf d1.
  pose proof (convert_aps_loop_inv model dead ps aps d [] 0 EmptyString Hwf
                (List.Forall_nil _)) as Hinv.
  destruct (convert_aps_loop_spec model dead ps aps d [] 0 EmptyString)
    as (out & Hloop & _).
  assert (d1 = register_all ps (well_formed_props model dead aps) d) as Hd1.
  { unfold d1, convert_aps. rewrite Hloop. by case_decide. }
  rewrite Hloop in Hinv. simpl in Hinv. destruct Hinv as (Hwf1 & Hle & _).
  rewrite Hd1. split; [done|]. split; [done|]. split.
  - apply register_all_other.
    intros ap [_ [Hne _]%list_elem_of_filter]%list_elem_of_filter. done.
  - intros f v r Hf Hnone.
    destruct (register_all_shape ps (well_formed_props model dead aps) d f)
      as [E|[(v' & r' & Hd & _)|(v' & _ & E)]].
    + by rewrite E, Hnone in Hf.
    + by rewrite Hnone in Hd.
    + rewrite E in Hf. injection Hf as <- <-. split; [done|].
      destruct (decide (f ∈ f_ap <$> well_formed_props model dead aps))
        as [Hin|Hnin].
      * apply list_elem_of_fmap in Hin as (ap & -> & Hin).
        apply list_elem_of_filter in Hin as [Hdiag Hin]. eauto.
      * rewrite register_all_other in E; [by rewrite Hnone in E|].
        intros ap Hap <-. apply Hnin. by apply list_elem_of_fmap_2.
Qed.

(** * Texts that compile *)

Lemma digit_char_facts (d : nat) :
  (d < 10)%nat →
  is_blank (digit_char d) = false ∧ isspace (digit_char d) = false ∧
  is_relop_start (digit_char d) = false ∧
  (digit_char d =? "-")%char = false ∧ (digit_char d =? "+")%char = false ∧
  (digit_char d =? "000")%char = false ∧
  digit_val (digit_char d) = Some (Z.of_nat d).
Proof.
  intros H.
  do 10 (destruct d as [|d]; [by repeat split|]). lia.
Qed.

Lemma is_blank_facts (c : ascii) :
  is_blank c = true →
  is_relop_start c = false ∧ (c =? "000")%char = false ∧
  digit_val c = None.
Proof.
  unfold is_blank. intros [H|H]%orb_true_iff;
    apply Ascii.eqb_eq in H; by subst c.
Qed.

Lemma c_str_no_nul (s : string) : no_nul s = true → c_str s = s.
Proof.
  induction s as [|c s IH]; [done|]. simpl.
  intros [Hc Hs]%andb_true_iff. apply negb_true_iff in Hc. rewrite Hc.
  by rewrite IH.
Qed.

Lemma no_nul_app (s t : string) :
  no_nul s = true → no_nul t = true → no_nul (s +:+ t) = true.
Proof.
  induction s as [|c s IH]; [done|]. rewrite append_cons. simpl.
  intros [Hc Hs]%andb_true_iff Ht. rewrite Hc. simpl. by apply IH.
Qed.

Lemma no_nul_digits (ds : list nat) :
  Forall (λ d, (d < 10)%nat) ds → no_nul (digits_string ds) = true.
Proof.
  induction 1 as [|d ds Hd _ IH]; [done|]. cbn [digits_string no_nul].
  destruct (digit_char_facts d Hd) as (_ & _ & _ & _ & _ & -> & _).
  exact IH.
Qed.

Lemma no_nul_plain (s : string) : plain s = true → no_nul s = true.
Proof.
  induction s as [|c s IH]; [done|].
  intros (_ & _ & Hz & Hs)%plain_cons. cbn [no_nul]. rewrite Hz.
  by apply IH.
Qed.

Lemma no_nul_blanks (s : string) : blanks s = true → no_nul s = true.
Proof.
  induction s as [|c s IH]; [done|]. cbn [blanks no_nul].
  intros [Hc Hs]%andb_true_iff.
  destruct (is_blank_facts c Hc) as (_ & -> & _). by apply IH.
Qed.

Lemma skip_blanks_blanks (b s : string) :
  blanks b = true → skip_blanks (b +:+ s) = skip_blanks s.
Proof.
  induction b as [|c b IH]; [by rewrite append_nil_l|].
  cbn [blanks]. intros [Hc Hb]%andb_true_iff.
  rewrite append_cons. cbn [skip_blanks]. rewrite Hc. by apply IH.
Qed.

Lemma scan_name_blanks (b t name : string) (ld : option nat) :
  blanks b = true → scan_name (b +:+ t) name ld = scan_name t name ld.
Proof.
  induction b as [|c b IH]; [by rewrite append_nil_l|].
  cbn [blanks]. intros [Hc Hb]%andb_true_iff.
  rewrite append_cons. cbn [scan_name].
  destruct (is_blank_facts c Hc) as (-> & _). rewrite Hc. by apply IH.
Qed.

Lemma string_length_app (s t : string) :
  String.length (s +:+ t) = (String.length s + String.length t)%nat.
Proof.
  induction s as [|c s IH]; [by rewrite append_nil_l|].
  rewrite append_cons. cbn [String.length]. by rewrite IH.
Qed.

Lemma horner_ge (acc : Z) (ds : list nat) : 0 <= acc → acc <= horner acc ds.
Proof.
  revert acc. induction ds as [|d ds IH]; intros acc Hacc; [done|].
  unfold horner in *. cbn [fold_left]. etrans; [|apply IH]; lia.
Qed.

(** The digits are read as the decimal number they write, as long as it
    fits a [long], up to the first character that is not a digit. *)
Lemma strtol_digits_spec (neg : bool) (ds : list nat) (acc : Z)
    (t : string) :
  Forall (λ d, (d < 10)%nat) ds → 0 <= acc → horner acc ds <= LONG_MAX →
  match t with
  | String c _ => digit_val c = None
  | EmptyString => True
  end →
  strtol_digits (digits_string ds +:+ t) neg (if neg then - acc else acc)
  = (if neg then - horner acc ds else horner acc ds, t).
Proof.
  intros Hds. revert acc. induction Hds as [|d ds Hd _ IH];
    intros acc Hacc Hmax Ht.
  - cbn [digits_string]. rewrite append_nil_l.
    destruct t as [|c t]; [done|]. cbn [strtol_digits]. by rewrite Ht.
  - cbn [digits_string]. rewrite append_cons. cbn [strtol_digits].
    destruct (digit_char_facts d Hd) as (_ & _ & _ & _ & _ & _ & ->).
    assert (0 <= acc * 10 + Z.of_nat d <= LONG_MAX) as Hstep.
    { split; [lia|]. etrans; [|exact Hmax].
      unfold horner. cbn [fold_left]. apply (horner_ge _ ds). lia. }
    assert (clamp_long (if neg then (if neg then - acc else acc) * 10
                                    - Z.of_nat d
                        else (if neg then - acc else acc) * 10 + Z.of_nat d)
            = if neg then - (acc * 10 + Z.of_nat d)
              else acc * 10 + Z.of_nat d) as ->.
    { unfold clamp_long, LONG_MIN, LONG_MAX in *. destruct neg; lia. }
    change (horner acc (d :: ds)) with (horner (acc * 10 + Z.of_nat d) ds).
    apply IH; [lia | exact Hmax | exact Ht].
Qed.

Lemma to_int_small (x : Z) : - 2 ^ 31 <= x < 2 ^ 31 → to_int x = x.
Proof. intros H. unfold to_int. rewrite Z.mod_small; lia. Qed.

(** X17.  A comparison written as a variable, a comparator and a decimal
    integer, with blanks before, between and after them, compiles to the
    rule it writes: the id of the variable, the comparator, and the
    integer -- converted from [long] to [int], hence itself when it fits
    an [int]. *)
Theorem convert_ap_comparison_round_trip (model : model_t) (V : string)
    (v : nat) (o : relop) (neg : bool) (ds : list nat)
    (b0 b1 b2 b3 : string) :
  plain V = true → V ≠ EmptyString →
  intvars_index model !! V = Some v →
  o ≠ OP_AT → ds ≠ [] → Forall (λ d, (d < 10)%nat) ds →
  digits_value ds <= LONG_MAX →
  blanks b0 = true → blanks b1 = true → blanks b2 = true →
  blanks b3 = true →
  let n := if neg then - digits_value ds else digits_value ds in
  let text := b0 +:+ V +:+ b1 +:+ relop_text o +:+ b2 +:+ sign_text neg
              +:+ digits_string ds +:+ b3 in
  convert_ap model text = Rule v o (to_int n) ∧
  (- 2 ^ 31 <= n < 2 ^ 31 → convert_ap model text = Rule v o n).
Proof.
  intros Hp Hne Hv Ho Hds Hall Hmax Hb0 Hb1 Hb2 Hb3 n text.
  assert (convert_ap model text = Rule v o (to_int n)) as Hmain.
  { destruct ds as [|d ds]; [done|]. clear Hds.
    pose proof Hall as Hall'. apply Forall_cons in Hall' as [Hd Hrest].
    destruct (digit_char_facts d Hd)
      as (Hblank & Hspace & Hrel & Hminus & Hplus & Hnul & Hval).
    assert (match b3 with
            | String c _ => digit_val c = None
            | EmptyString => True
            end) as Hb3'.
    { destruct b3 as [|c b3]; [done|]. cbn [blanks] in Hb3.
      apply andb_true_iff in Hb3 as [Hc _].
      by destruct (is_blank_facts c Hc) as (_ & _ & ?). }
    pose proof (strtol_digits_spec neg (d :: ds) 0 b3 Hall ltac:(lia) Hmax
                  Hb3') as Hdig.
    replace (if neg then - 0 else 0) with 0 in Hdig by by destruct neg.
    fold (digits_value (d :: ds)) in Hdig. fold n in Hdig.
    pose proof (no_nul_digits ds Hrest) as Hnr.
    unfold text. clear text.
    cbn [digits_string] in *. rewrite append_cons in Hdig.
    rewrite (append_cons (digit_char d)).
    set (dc := digit_char d) in *.
    set (rest := digits_string ds +:+ b3) in *.
    assert (no_nul rest = true) as Hnrest
      by (apply no_nul_app; [done|by apply no_nul_blanks]).
    assert (String.length b3 ≤ String.length rest)%nat as Hlen
      by (unfold rest; rewrite string_length_app; lia).
    clearbody n dc rest.
    set (num := sign_text neg +:+ String dc rest).
    set (tail := relop_text o +:+ b2 +:+ num).
    assert (no_nul num = true) as Hnn.
    { unfold num. apply no_nul_app; [by destruct neg|].
      cbn [no_nul]. by rewrite Hnul. }
    assert (no_nul tail = true) as Hnt.
    { unfold tail. apply no_nul_app; [by destruct o|].
      apply no_nul_app; [by apply no_nul_blanks|done]. }
    assert (∃ c t, tail = String c t ∧ is_relop_start c = true)
      as (c & t & Htail & Hc).
    { unfold tail. destruct o; try (by exfalso; apply Ho);
        cbn [relop_text]; rewrite append_cons; eexists _, _;
        (split; [reflexivity|]); reflexivity. }
    assert (∃ c' t', num = String c' t' ∧ is_relop_start c' = false ∧
                     is_blank c' = false)
      as (c' & t' & Hnum & Hc' & Hbl').
    { unfold num. destruct neg; cbn [sign_text].
      - rewrite append_cons. by eexists _, _.
      - rewrite append_nil_l. by eexists _, _. }
    assert (∃ c'' t'', b2 +:+ num = String c'' t'' ∧
                       is_relop_start c'' = false)
      as (c'' & t'' & Hbnum & Hc'').
    { destruct b2 as [|cb b2].
      - rewrite append_nil_l, Hnum. by eexists _, _.
      - rewrite append_cons. eexists _, _. split; [done|].
        cbn [blanks] in Hb2. apply andb_true_iff in Hb2 as [Hcb _].
        by destruct (is_blank_facts cb Hcb) as (? & _). }
    assert (parse_relop tail = Some (o, b2 +:+ num)) as Hparse.
    { unfold tail. rewrite Hbnum.
      unfold is_relop_start in Hc''.
      apply orb_false_iff in Hc'' as [Hc'' _].
      apply orb_false_iff in Hc'' as [Hc'' _].
      apply orb_false_iff in Hc'' as [Hc'' _].
      destruct o; try (by exfalso; apply Ho);
        cbn [relop_text];
        rewrite !append_cons, ?append_nil_l; cbn [parse_relop];
        cbv beta iota; rewrite ?Hc''; reflexivity. }
    assert (skip_blanks (b2 +:+ num) = num) as Hsb.
    { rewrite skip_blanks_blanks by done. rewrite Hnum.
      cbn [skip_blanks]. by rewrite Hbl'. }
    assert (strtol num = (n, b3)) as Hstrtol.
    { unfold strtol, num. destruct neg; cbn [sign_text].
      - rewrite append_cons, append_nil_l.
        change (skip_space (String "-" (String dc rest)))
          with (String "-" (String dc rest)).
        cbv beta iota zeta.
        change ("-" =? "-")%char with true. cbv beta iota.
        rewrite Hval. exact Hdig.
      - rewrite append_nil_l. cbn [skip_space].
        rewrite Hspace. cbv beta iota zeta.
        rewrite Hminus, Hplus, Hval. exact Hdig. }
    assert (num ≠ b3) as Hneq.
    { intros Heq. apply (f_equal String.length) in Heq. revert Heq.
      unfold num. rewrite string_length_app. cbn [String.length]. lia. }
    assert (skip_blanks b3 = EmptyString) as Hsb3.
    { pose proof (skip_blanks_blanks b3 EmptyString Hb3) as H.
      by rewrite append_nil_r in H. }
    destruct (scan_name_plain V (b1 +:+ tail) EmptyString None Hp)
      as [ld Hscan].
    rewrite append_nil_l, (scan_name_blanks b1) in Hscan by done.
    rewrite (convert_ap_scanned model _ V tail ld); [| |done].
    - rewrite Hv, Htail. cbn [is_empty]. rewrite <- Htail, Hparse.
      rewrite Hsb, Hstrtol. cbv beta iota.
      rewrite decide_False by done. cbn [snd]. by rewrite Hsb3.
    - fold num. fold tail.
      rewrite c_str_no_nul.
      + rewrite skip_blanks_blanks, skip_blanks_plain by done.
        rewrite Hscan, Htail. cbn [scan_name]. by rewrite Hc.
      + apply no_nul_app; [by apply no_nul_blanks|].
        apply no_nul_app; [by apply no_nul_plain|].
        apply no_nul_app; [by apply no_nul_blanks|done]. }
  split; [done|]. intros Hn. by rewrite Hmain, to_int_small.
Qed.

Lemma plain_app (s t : string) :
  plain s = true → plain t = true → plain (s +:+ t) = true.
Proof.
  induction s as [|c s IH]; [by rewrite append_nil_l|].
  intros Hs Ht. rewrite append_cons.
  pose proof Hs as (Hb & Hr & Hz & Hs')%plain_cons.
  cbn [plain]. rewrite Hb, Hr, Hz. by apply IH.
Qed.

Lemma scan_name_no_dot (s t name : string) (ld : option nat) :
  plain s = true → no_dot s = true →
  scan_name (s +:+ t) name ld = scan_name t (name +:+ s) ld.
Proof.
  revert name. induction s as [|c s IH]; intros name.
  - intros _ _. by rewrite append_nil_l, append_nil_r.
  - intros (Hb & Hr & _ & Hs)%plain_cons [Hd Hn]%andb_true_iff.
    apply negb_true_iff in Hd. rewrite append_cons.
    cbn [scan_name]. rewrite Hr, Hb, Hd, (IH _ Hs Hn).
    by rewrite append_assoc, append_cons, append_nil_l.
Qed.

Lemma substring_prefix (s t : string) :
  substring 0 (String.length s) (s +:+ t) = s.
Proof.
  induction s as [|c s IH].
  - rewrite append_nil_l. by destruct t.
  - rewrite append_cons. cbn [String.length substring]. by rewrite IH.
Qed.

Lemma substring_skip (s t : string) (k m : nat) :
  substring (String.length s + k) m (s +:+ t) = substring k m t.
Proof.
  induction s as [|c s IH]; [by rewrite append_nil_l|].
  rewrite append_cons. cbn [String.length Nat.add substring]. exact IH.
Qed.

(** X18.  A name is split at its last dot: for the text [P.L] where [L] has no
    dot (and [P] may have some), possibly between blanks, the process
    looked up is [P] and the location [L]; when they are a process of the
    model and one of its locations, and [P.L] is not the name of a
    variable, the proposition compiles to the at-location rule of the two
    ids. *)
Theorem convert_ap_location_round_trip (model : model_t) (P L : string)
    (pid lid : nat) (b0 b1 : string) :
  plain P = true → plain L = true → no_dot L = true →
  blanks b0 = true → blanks b1 = true →
  intvars_index model !! (P +:+ "." +:+ L) = None →
  processes model !! P = Some pid →
  locations model !! (P, L) = Some lid →
  convert_ap model (b0 +:+ P +:+ "." +:+ L +:+ b1)
  = Rule pid OP_AT (Z.of_nat lid).
Proof.
  intros HP HL Hnd Hb0 Hb1 Hvar Hproc Hloc.
  set (name := P +:+ "." +:+ L) in *.
  assert (plain ("." +:+ L) = true) as HdL by by apply (plain_app "." L).
  assert (scan_name (skip_blanks (c_str (b0 +:+ P +:+ "." +:+ L +:+ b1)))
            EmptyString None
          = (name, Some (String.length P), EmptyString)) as Hscan.
  { rewrite c_str_no_nul.
    2:{ apply no_nul_app; [by apply no_nul_blanks|].
        apply no_nul_app; [by apply no_nul_plain|].
        apply (no_nul_app "."); [done|].
        apply no_nul_app; [by apply no_nul_plain|by apply no_nul_blanks]. }
    rewrite skip_blanks_blanks by done.
    assert (skip_blanks (P +:+ "." +:+ L +:+ b1)
            = P +:+ "." +:+ L +:+ b1) as ->.
    { destruct P as [|c P].
      - by rewrite append_nil_l, append_cons.
      - by apply skip_blanks_plain. }
    destruct (scan_name_plain P ("." +:+ L +:+ b1) EmptyString None HP)
      as [ld ->].
    rewrite append_nil_l, append_cons, append_nil_l.
    cbn [scan_name].
    change (is_relop_start ".") with false.
    change (is_blank ".") with false.
    change ("." =? ".")%char with true. cbv beta iota.
    rewrite (scan_name_no_dot L b1 _ _ HL Hnd).
    rewrite <- (append_nil_r b1), (scan_name_blanks b1) by done.
    cbn [scan_name]. unfold name.
    by rewrite append_assoc, (append_cons "." EmptyString L), append_nil_l. }
  assert (name ≠ EmptyString) as Hne.
  { unfold name. destruct P; [by rewrite append_nil_l|by rewrite append_cons]. }
  rewrite (convert_ap_scanned model _ name EmptyString _ Hscan Hne).
  rewrite Hvar.
  assert (process_part name (Some (String.length P)) = P) as ->
    by apply substring_prefix.
  assert (location_part name (Some (String.length P)) = Some L) as ->.
  { unfold location_part, name. f_equal.
    rewrite string_length_app, append_cons, append_nil_l.
    cbn [String.length].
    replace (String.length P + S (String.length L) - S (String.length P))%nat
      with (String.length L) by lia.
    replace (S (String.length P)) with (String.length P + 1)%nat by lia.
    rewrite substring_skip. cbn [substring].
    rewrite <- (append_nil_r L) at 2. apply substring_prefix. }
  by rewrite Hproc, Hloc.
Qed.

(** * More on the driver *)


(** X20.  With [-D] and no formula the driver consults neither the formula
    parser nor the emptiness check: it loads the model, builds the adapter
    without propositions -- which cannot fail -- and prints it; the exit
    code is 0, or 2 when loading or printing throws.  When [-D] is the
    only argument it is also taken as the name of the file. *)
Theorem main_structure_dot (env : driver_env) (prog file : string) :
  main env [prog; file; "-D"%string]
  = match load env file with
    | Throw what => (2, [LogError what])
    | Ok m =>
        match print_dot env
                (new_tcltl_kripke (model_ts m) ∅ [] (default_dead env)
                   kripke_owner).2 with
        | Throw what => (2, [LogError what])
        | Ok _ => (0, [StructureDot])
        end
    end ∧
  main env [prog; "-D"%string] = main env [prog; "-D"; "-D"]%string.
Proof.
  split.
  - unfold main.
    change (Z.of_nat (length [prog; file; "-D"%string])) with 3.
    destruct (decide (3 < 2 ∨ 3 > 4)) as [?|_]; [lia|].
    rewrite (bool_decide_eq_true_2 (3 > 1 ∧ _)) by (split; [lia|done]).
    destruct (decide (3 - 1 >= 3)) as [?|_]; [lia|].
    cbn [lookup list_lookup default id]. unfold main_body.
    destruct (load env file) as [m|what]; [|done].
    unfold tc_model_kripke, convert_aps. cbn [convert_aps_loop].
    rewrite decide_False by (intros H; by apply H).
    destruct (new_tcltl_kripke (model_ts m) ∅ [] (default_dead env)
                kripke_owner) as [d2 k] eqn:Hk.
    cbn [fold_left snd].
    destruct (default_dead env); by destruct (print_dot env k).
  - unfold main.
    change (Z.of_nat (length [prog; "-D"%string])) with 2.
    change (Z.of_nat (length [prog; "-D"%string; "-D"%string])) with 3.
    destruct (decide (2 < 2 ∨ 2 > 4)) as [?|_]; [lia|].
    destruct (decide (3 < 2 ∨ 3 > 4)) as [?|_]; [lia|].
    rewrite (bool_decide_eq_true_2 (2 > 1 ∧ _)) by (split; [lia|done]).
    rewrite (bool_decide_eq_true_2 (3 > 1 ∧ _)) by (split; [lia|done]).
    destruct (decide (2 - 1 >= 3)) as [?|_]; [lia|].
    destruct (decide (3 - 1 >= 3)) as [?|_]; [lia|].
    reflexivity.
Qed.

(** * The name of a proposition *)

Lemma no_dot_app (s t : string) :
  no_dot s = true → no_dot t = true → no_dot (s +:+ t) = true.
Proof.
  induction s as [|c s IH]; [by rewrite append_nil_l|].
  rewrite append_cons. cbn [no_dot].
  intros [Hc Hs]%andb_true_iff Ht. rewrite Hc. by apply IH.
Qed.

(** The scan of the source returns the name and the rest of the words of
    the specification, and the position of the last dot of the name. *)
Lemma scan_name_words (s acc : string) (ld : option nat) :
  dot_at acc ld →
  ∃ ld',
    scan_name s acc ld
    = (acc +:+ remove_blanks (before_comparator s), ld', from_comparator s) ∧
    dot_at (acc +:+ remove_blanks (before_comparator s)) ld'.
Proof.
  revert acc ld. induction s as [|c s IH]; intros acc ld Hdot.
  - exists ld. cbn [scan_name before_comparator remove_blanks from_comparator].
    by rewrite append_nil_r.
  - cbn [scan_name before_comparator from_comparator].
    destruct (is_relop_start c) eqn:Hr.
    + exists ld. cbn [remove_blanks]. by rewrite append_nil_r.
    + cbn [remove_blanks]. destruct (is_blank c) eqn:Hb; [by apply IH|].
      assert (dot_at (acc +:+ String c EmptyString)
                (if (c =? ".")%char then Some (String.length acc) else ld))
        as Hdot'.
      { destruct (c =? ".")%char eqn:Hc.
        - apply Ascii.eqb_eq in Hc as ->. by exists acc, EmptyString.
        - destruct ld as [i|]; simpl in *.
          + destruct Hdot as (p & l & -> & Hl & Hi).
            exists p, (l +:+ String c EmptyString).
            split; [by rewrite !append_assoc|]. split; [|done].
            apply no_dot_app; [done|]. simpl. by rewrite Hc.
          + apply no_dot_app; [done|]. simpl. by rewrite Hc. }
      destruct (IH _ _ Hdot') as (ld' & -> & Hdot'').
      exists ld'.
      by rewrite append_assoc, append_cons, append_nil_l in *.
Qed.

Lemma words_skip_blanks (s : string) :
  remove_blanks (before_comparator (skip_blanks s))
  = remove_blanks (before_comparator s) ∧
  from_comparator (skip_blanks s) = from_comparator s.
Proof.
  induction s as [|c s IH]; [done|]. cbn [skip_blanks].
  destruct (is_blank c) eqn:Hb; [|done].
  destruct (is_blank_facts c Hb) as (Hr & _).
  cbn [before_comparator from_comparator]. rewrite Hr.
  cbn [remove_blanks]. by rewrite Hb.
Qed.

Lemma split_last_dot_no_dot (s : string) :
  no_dot s = true → split_last_dot s = None.
Proof.
  induction s as [|c s IH]; [done|]. cbn [no_dot split_last_dot].
  intros [Hc Hs]%andb_true_iff. apply negb_true_iff in Hc.
  by rewrite (IH Hs), Hc.
Qed.

Lemma split_last_dot_app (p l : string) :
  no_dot l = true → split_last_dot (p +:+ "." +:+ l) = Some (p, l).
Proof.
  intros Hl. induction p as [|c p IH].
  - rewrite append_nil_l, append_cons, append_nil_l. cbn [split_last_dot].
    by rewrite (split_last_dot_no_dot l Hl).
  - rewrite append_cons. cbn [split_last_dot]. by rewrite IH.
Qed.

(** The process and the location that the source cuts out of the name
    with the position of its last dot are the two sides of the split. *)
Lemma parts_split (name : string) (ld : option nat) :
  dot_at name ld →
  match split_last_dot name with
  | Some (p, l) =>
      process_part name ld = p ∧ location_part name ld = Some l
  | None => process_part name ld = name ∧ location_part name ld = None
  end.
Proof.
  destruct ld as [i|]; simpl.
  - intros (p & l & -> & Hl & <-). rewrite (split_last_dot_app p l Hl).
    split; [apply substring_prefix|]. f_equal.
    rewrite string_length_app, append_cons, append_nil_l.
    cbn [String.length].
    replace (String.length p + S (String.length l) - S (String.length p))%nat
      with (String.length l) by lia.
    replace (S (String.length p)) with (String.length p + 1)%nat by lia.
    rewrite substring_skip. cbn [substring].
    rewrite <- (append_nil_r l) at 2. apply substring_prefix.
  - intros Hn. by rewrite (split_last_dot_no_dot name Hn).
Qed.

Lemma scan_proposition (str : string) :
  ∃ ld,
    scan_name (skip_blanks (c_str str)) EmptyString None
    = (proposition_name str, ld, proposition_rest str) ∧
    dot_at (proposition_name str) ld.
Proof.
  destruct (scan_name_words (skip_blanks (c_str str)) EmptyString None)
    as (ld & Hs & Hd); [done|].
  destruct (words_skip_blanks (c_str str)) as [Hn Hr].
  rewrite append_nil_l, Hn, Hr in Hs. rewrite append_nil_l, Hn in Hd.
  by exists ld.
Qed.

Lemma convert_ap_no_name (model : model_t) (str : string) :
  proposition_name str = EmptyString →
  convert_ap model str
  = Error ("Proposition `" +:+ str +:+ "' cannot be parsed." +:+ nl).
Proof.
  intros Hname. destruct (scan_proposition str) as (ld & Hs & _).
  unfold convert_ap. destruct (is_empty (skip_blanks (c_str str))); [done|].
  by rewrite Hs, Hname.
Qed.

(** C6 (as amended).  Let the name of a proposition be what precedes its
    first comparator character, blanks removed.  Without name the
    proposition fails as one that cannot be parsed.  When the name is a
    known integer variable [V], the proposition compiles to [(V, NE, 0)] if
    nothing follows the name and to [(V, EQ, 3)] if [==3] follows; so do
    the texts [V] and [V==3] for an identifier [V].  When the name is not a
    known variable, it is split at its last dot into a process [P] and a
    location [L], and the proposition compiles to an at-location rule
    exactly when [P] is a known process, [L] one of its locations, and
    nothing follows the name.  Otherwise it fails with one message: a name
    without dot is reported as such, with the text of the proposition; an
    unknown process with [P] and the text of the proposition; an unknown
    location with [L] and [P]; what follows the name as trailing
    garbage. *)
Theorem convert_ap_rules (model : model_t) (str : string) :
  let NAME := proposition_name str in
  let REST := proposition_rest str in
  (NAME = EmptyString →
   convert_ap model str
   = Error ("Proposition `" +:+ str +:+ "' cannot be parsed." +:+ nl)) ∧
  (NAME ≠ EmptyString →
   (∀ V, intvars_index model !! NAME = Some V →
      (REST = EmptyString → convert_ap model str = Rule V OP_NE 0) ∧
      (REST = "==3"%string → convert_ap model str = Rule V OP_EQ 3)) ∧
   (intvars_index model !! NAME = None →
      (∀ pid o v,
         convert_ap model str = Rule pid o v ↔
         o = OP_AT ∧ REST = EmptyString ∧
         ∃ P L lid,
           split_last_dot NAME = Some (P, L) ∧
           processes model !! P = Some pid ∧
           locations model !! (P, L) = Some lid ∧ v = Z.of_nat lid) ∧
      (split_last_dot NAME = None →
       convert_ap model str
       = Error ("No variable or process `" +:+ NAME
                +:+ "' found in model (for proposition `" +:+ str
                +:+ "')." +:+ nl)) ∧
      (∀ P L, split_last_dot NAME = Some (P, L) →
         (processes model !! P = None →
          convert_ap model str
          = Error ("No variable or process `" +:+ P
                   +:+ "' found in model (for proposition `" +:+ str
                   +:+ "')." +:+ nl)) ∧
         (is_Some (processes model !! P) →
          locations model !! (P, L) = None →
          convert_ap model str
          = Error ("No location `" +:+ L +:+ "' known for process `"
                   +:+ P +:+ "'." +:+ nl)) ∧
         (is_Some (processes model !! P) →
          is_Some (locations model !! (P, L)) → REST ≠ EmptyString →
          convert_ap model str
          = Error ("Trailing garbage `" +:+ REST
                   +:+ "' at end of proposition `" +:+ str
                   +:+ "'." +:+ nl))))) ∧
  (plain str = true → str ≠ EmptyString →
   ∀ V, intvars_index model !! str = Some V →
        convert_ap model str = Rule V OP_NE 0 ∧
        convert_ap model (str +:+ "==3") = Rule V OP_EQ 3).
Proof.
  intros NAME REST.
  split; [apply convert_ap_no_name|].
  split; [|intros Hp Hne V HV; by apply convert_ap_variable_texts].
  intros Hname.
  destruct (scan_proposition str) as (ld & Hscan & Hdot).
  fold NAME REST in Hscan, Hdot.
  rewrite (convert_ap_scanned model str NAME REST ld Hscan Hname).
  pose proof (parts_split NAME ld Hdot) as Hparts.
  split.
  - intros V ->. split; intros ->; reflexivity.
  - intros ->.
    destruct (split_last_dot NAME) as [[P L]|] eqn:Hsplit.
    + destruct Hparts as [-> ->].
      split; [|split; [done|]].
      * intros pid o v.
        destruct (processes model !! P) as [procid|] eqn:Hproc.
        -- destruct (locations model !! (P, L)) as [lid|] eqn:Hloc.
           ++ destruct REST; simpl.
              ** split.
                 --- intros [= <- <- <-]. eauto 10.
                 --- intros (-> & _ & P' & L' & lid' & [= <- <-] & Hp' & Hl'
                             & ->).
                     rewrite Hproc in Hp'. rewrite Hloc in Hl'.
                     by injection Hp' as <-; injection Hl' as <-.
              ** split; [done|]. by intros (_ & ? & _).
           ++ split; [done|].
              intros (_ & _ & P' & L' & lid' & [= <- <-] & _ & Hl' & _).
              by rewrite Hloc in Hl'.
        -- split; [done|].
           intros (_ & _ & P' & L' & lid' & [= <- <-] & Hp' & _).
           by rewrite Hproc in Hp'.
      * intros P' L' [= <- <-]. split; [by intros ->|]. split.
        -- intros [procid ->] ->. done.
        -- intros [procid ->] [lid ->] Hrest. by destruct REST.
    + destruct Hparts as [-> ->].
      split; [|split; [|done]].
      * intros pid o v. split.
        -- by destruct (processes model !! NAME).
        -- by intros (_ & _ & P' & L' & lid' & ? & _).
      * intros _. by destruct (processes model !! NAME).
Qed.

(** * The text of the aggregated error *)

Lemma no_nul_c_str (s : string) : no_nul (c_str s) = true.
Proof.
  induction s as [|c s IH]; [done|]. cbn [c_str].
  destruct (c =? "000")%char eqn:Hc; [done|]. cbn [no_nul]. by rewrite Hc.
Qed.

Lemma no_nul_cons (c : ascii) (s : string) :
  no_nul (String c s) = true → (c =? "000")%char = false ∧ no_nul s = true.
Proof.
  cbn [no_nul]. intros [Hc Hs]%andb_true_iff.
  apply negb_true_iff in Hc. by split.
Qed.

Lemma no_nul_skip_blanks (s : string) :
  no_nul s = true → no_nul (skip_blanks s) = true.
Proof.
  induction s as [|c s IH]; [done|]. intros Hs. cbn [skip_blanks].
  destruct (is_blank c); [|done]. apply IH. exact (proj2 (no_nul_cons c s Hs)).
Qed.

Lemma no_nul_skip_space (s : string) :
  no_nul s = true → no_nul (skip_space s) = true.
Proof.
  induction s as [|c s IH]; [done|]. intros Hs. cbn [skip_space].
  destruct (isspace c); [|done]. apply IH. exact (proj2 (no_nul_cons c s Hs)).
Qed.

Lemma no_nul_scan_name (s acc : string) (ld : option nat) :
  no_nul s = true → no_nul acc = true →
  no_nul (scan_name s acc ld).1.1 = true ∧
  no_nul (scan_name s acc ld).2 = true.
Proof.
  revert acc ld. induction s as [|c s IH]; intros acc ld Hs Hacc; [done|].
  cbn [scan_name]. destruct (no_nul_cons c s Hs) as [Hc Hs'].
  destruct (is_relop_start c); [done|].
  destruct (is_blank c); [by apply IH|].
  apply IH; [done|]. apply no_nul_app; [done|]. cbn [no_nul]. by rewrite Hc.
Qed.

Lemma no_nul_substring (s : string) (n m : nat) :
  no_nul s = true → no_nul (substring n m s) = true.
Proof.
  revert n m. induction s as [|c s IH]; intros n m Hs.
  - by destruct n, m.
  - destruct (no_nul_cons c s Hs) as [Hc Hs'].
    destruct n as [|n]; [|by apply IH].
    destruct m as [|m]; [done|]. cbn [substring no_nul].
    rewrite Hc. by apply IH.
Qed.

Lemma no_nul_parse_relop (s s' : string) (o : relop) :
  no_nul s = true → parse_relop s = Some (o, s') → no_nul s' = true.
Proof.
  destruct s as [|c s1]; [done|]. intros [_ Hs1]%no_nul_cons.
  assert (no_nul match s1 with String _ r => r | EmptyString => s1 end
          = true) as Hs2.
  { destruct s1 as [|c1 s2]; [done|]. exact (proj2 (no_nul_cons _ _ Hs1)). }
  cbn [parse_relop]. cbv zeta.
  repeat match goal with
         | |- context [if ?b then _ else _] => destruct b
         end; intros [= <- <-] || done; done.
Qed.

Lemma no_nul_strtol_digits (s : string) (neg : bool) (acc : Z) :
  no_nul s = true → no_nul (strtol_digits s neg acc).2 = true.
Proof.
  revert acc. induction s as [|c s IH]; intros acc Hs; [done|].
  cbn [strtol_digits]. destruct (digit_val c); [|done].
  apply IH. exact (proj2 (no_nul_cons c s Hs)).
Qed.

Lemma no_nul_strtol (s : string) :
  no_nul s = true → no_nul (strtol s).2 = true.
Proof.
  intros Hs. unfold strtol.
  pose proof (no_nul_skip_space s Hs) as Hs1.
  destruct (skip_space s) as [|c r] eqn:E; [done|].
  destruct (no_nul_cons c r Hs1) as [_ Hr].
  destruct (c =? "-")%char.
  - destruct r as [|c' r']; [done|].
    destruct (digit_val c'); [|done]. by apply no_nul_strtol_digits.
  - destruct (c =? "+")%char.
    + destruct r as [|c' r']; [done|].
      destruct (digit_val c'); [|done]. by apply no_nul_strtol_digits.
    + destruct (digit_val c); [|done]. by apply no_nul_strtol_digits.
Qed.

(** The message for a proposition without NUL holds no NUL. *)
Lemma no_nul_diagnostic (model : model_t) (ap msg : string) :
  no_nul ap = true → diagnostic model ap = Some msg → no_nul msg = true.
Proof.
  intros Hap. unfold diagnostic.
  destruct (convert_ap model ap) as [| m] eqn:Hc; [done|].
  intros [= <-]. revert Hc. unfold convert_ap.
  pose proof (no_nul_skip_blanks _ (no_nul_c_str ap)) as Hs0.
  destruct (is_empty (skip_blanks (c_str ap)));
    [intros [= <-]; by repeat apply no_nul_app|].
  pose proof (no_nul_scan_name (skip_blanks (c_str ap)) EmptyString None
                Hs0 eq_refl) as [Hname Hs].
  destruct (scan_name _ EmptyString None) as [[name lastdot] s].
  simpl in Hname, Hs.
  destruct (is_empty name);
    [intros [= <-]; by repeat apply no_nul_app|].
  destruct (intvars_index model !! name) as [varid|].
  - destruct (is_empty s); [done|].
    destruct (parse_relop s) as [[o' s']|] eqn:Hp;
      [|intros [= <-]; by repeat apply no_nul_app].
    pose proof (no_nul_skip_blanks _ (no_nul_parse_relop _ _ _ Hs Hp)) as Hs'.
    pose proof (no_nul_strtol _ Hs') as Hend.
    destruct (strtol (skip_blanks s')) as [val s_end]. simpl in Hend.
    case_decide; [intros [= <-]; by repeat apply no_nul_app|].
    destruct (negb (is_empty (skip_blanks s_end))); [|done].
    intros [= <-]. repeat apply no_nul_app; try done.
    by apply no_nul_skip_blanks.
  - destruct lastdot as [i|];
      [|intros [= <-]; by repeat apply no_nul_app].
    destruct (processes model !! substring 0 i name) as [procid|];
      [|intros [= <-]; repeat apply no_nul_app; try done;
        by apply no_nul_substring].
    destruct (locations model !! _) as [lid|];
      [|intros [= <-]; repeat apply no_nul_app; try done;
        by apply no_nul_substring].
    destruct (negb (is_empty s)); [|done].
    intros [= <-]; by repeat apply no_nul_app.
Qed.

Lemma no_nul_diagnostics (model : model_t) (dead : formula)
    (aps : list string) :
  Forall (λ ap, no_nul ap = true) aps →
  no_nul (concat_messages (diagnostics model dead aps)) = true.
Proof.
  intros Haps. unfold diagnostics, attempted.
  induction Haps as [|ap aps Hap _ IH]; [done|].
  rewrite filter_cons. case_decide; [|done].
  cbn [omap list_omap]. destruct (diagnostic model ap) as [msg|] eqn:E;
    [|exact IH].
  cbn [concat_messages foldr]. apply no_nul_app; [|exact IH].
  by apply (no_nul_diagnostic model ap).
Qed.

(** C7 (as amended).  When at least one of the propositions that a batch
    submits to the compiler (all but the dead one) does not compile,
    [convert_aps] still goes through the whole batch: it throws an error
    whose text is the concatenation of one message per proposition that
    does not compile, up to its first NUL -- hence the whole concatenation
    when no proposition of the batch holds a NUL; it has registered in the
    dictionary the propositions that compile and only them, the entry of a
    proposition that does not compile is as it was before the call; and
    [tc_model::kripke] returns no adapter and no list: it throws the same
    error after unregistering everything the list owned, which restores
    the dictionary when the list did not own anything before. *)
Theorem convert_aps_batch_failure (model : model_t) (aps : list string)
    (d : bdd_dict) (dead : formula) (ps this : nat) :
  let msgs := diagnostics model dead aps in
  let d1 := register_all ps (well_formed_props model dead aps) d in
  msgs ≠ [] →
  (∃ out,
     convert_aps aps model d dead ps []
     = (d1, out, Throw (c_str (concat_messages msgs))) ∧
     Forall2 (entry_of model ps d1) (well_formed_props model dead aps) out) ∧
  (Forall (λ ap, no_nul ap = true) aps →
   c_str (concat_messages msgs) = concat_messages msgs) ∧
  (length msgs + length (well_formed_props model dead aps)
   = length (attempted dead aps))%nat ∧
  (∀ ap, ap ∈ attempted dead aps → diagnostic model ap ≠ None →
         d1 !! f_ap ap = d !! f_ap ap) ∧
  tc_model_kripke model aps d dead ps this
  = (unregister_all_my_variables ps d1,
     Throw (c_str (concat_messages msgs))) ∧
  (∀ f v r, unregister_all_my_variables ps d1 !! f = Some (v, r) → ps ∉ r) ∧
  ((∀ f v r, d !! f = Some (v, r) → (ps ∉ r) ∧ (r ≠ ∅)) →
   unregister_all_my_variables ps d1 = d).
Proof.
  intros msgs d1 Hk.
  destruct (convert_aps_loop_spec model dead ps aps d [] 0 EmptyString)
    as (out & Hloop & Hout).
  fold msgs d1 in Hloop, Hout. rewrite append_nil_l in Hloop. simpl in Hloop.
  assert (convert_aps aps model d dead ps []
          = (d1, out, Throw (c_str (concat_messages msgs)))) as Hconv.
  { unfold convert_aps. rewrite Hloop. rewrite decide_True; [done|].
    destruct msgs; [done|simpl; lia]. }
  split; [by exists out|]. split; [|split; [|split; [|split; [|split]]]].
  - intros Haps. apply c_str_no_nul. by apply no_nul_diagnostics.
  - unfold msgs, diagnostics, well_formed_props.
    induction (attempted dead aps) as [|ap l IH]; [done|].
    rewrite filter_cons. simpl. destruct (diagnostic model ap) eqn:E.
    + rewrite decide_False by done. simpl. f_equal. exact IH.
    + rewrite decide_True by done. simpl. rewrite Nat.add_succ_r.
      f_equal. exact IH.
  - intros ap Hap Hdiag. apply register_all_other.
    intros a [Ha Hin]%list_elem_of_filter [= ->]. done.
  - unfold tc_model_kripke. by rewrite Hconv.
  - intros f v r. apply unregister_not_owner.
  - apply unregister_register_all.
Qed.

(** * The driver on a command line *)

Lemma command_line_total (argv : list string) :
  (2 ≤ length argv ≤ 4)%nat → ∃ file fo dot, command_line argv file fo dot.
Proof.
  destruct argv as [|prog [|file [|f [|x [|y argv]]]]]; simpl;
    intros Hlen; try lia.
  - destruct (decide (file = "-D"%string)) as [->|Hne].
    + eexists _, _, _. apply cl_dot_alone.
    + eexists _, _, _. by apply cl_file.
  - destruct (decide (f = "-D"%string)) as [->|Hne].
    + eexists _, _, _. apply cl_file_dot.
    + eexists _, _, _. by apply cl_formula.
  - destruct (decide (x = "-D"%string)) as [->|Hne].
    + eexists _, _, _. apply cl_formula_dot.
    + eexists _, _, _. by apply cl_formula_more.
Qed.

(** What the arithmetic on [argc] makes of a command line. *)
Lemma main_command_line (env : driver_env) (argv : list string)
    (file : string) (fo : option string) (dot : bool) :
  command_line argv file fo dot →
  main env argv
  = match fo with
    | Some f =>
        if format_errors env f then (1, [FormulaErrors])
        else match main_body env file (Some f) dot with
             | Throw what => (2, [LogError what])
             | Ok r => r
             end
    | None =>
        match main_body env file None dot with
        | Throw what => (2, [LogError what])
        | Ok r => r
        end
    end.
Proof.
  intros Hcl. unfold main.
  destruct Hcl as [prog file Hne|prog|prog file|prog file f Hne|prog file f
                  |prog file f x Hne].
  - change (Z.of_nat (length [prog; file])) with 2.
    destruct (decide (2 < 2 ∨ 2 > 4)) as [?|_]; [lia|].
    rewrite (bool_decide_eq_false_2 (2 > 1 ∧ _));
      [|intros [_ [= H]]; by apply Hne].
    destruct (decide (2 >= 3)) as [?|_]; [lia|]. reflexivity.
  - change (Z.of_nat (length [prog; "-D"%string])) with 2.
    destruct (decide (2 < 2 ∨ 2 > 4)) as [?|_]; [lia|].
    rewrite (bool_decide_eq_true_2 (2 > 1 ∧ _)) by (split; [lia|done]).
    destruct (decide (2 - 1 >= 3)) as [?|_]; [lia|]. reflexivity.
  - change (Z.of_nat (length [prog; file; "-D"%string])) with 3.
    destruct (decide (3 < 2 ∨ 3 > 4)) as [?|_]; [lia|].
    rewrite (bool_decide_eq_true_2 (3 > 1 ∧ _)) by (split; [lia|done]).
    destruct (decide (3 - 1 >= 3)) as [?|_]; [lia|]. reflexivity.
  - change (Z.of_nat (length [prog; file; f])) with 3.
    destruct (decide (3 < 2 ∨ 3 > 4)) as [?|_]; [lia|].
    rewrite (bool_decide_eq_false_2 (3 > 1 ∧ _));
      [|intros [_ [= H]]; by apply Hne].
    destruct (decide (3 >= 3)) as [_|?]; [|lia].
    cbn [lookup list_lookup default id].
    by destruct (format_errors env f).
  - change (Z.of_nat (length [prog; file; f; "-D"%string])) with 4.
    destruct (decide (4 < 2 ∨ 4 > 4)) as [?|_]; [lia|].
    rewrite (bool_decide_eq_true_2 (4 > 1 ∧ _)) by (split; [lia|done]).
    destruct (decide (4 - 1 >= 3)) as [_|?]; [|lia].
    cbn [lookup list_lookup default id].
    by destruct (format_errors env f).
  - change (Z.of_nat (length [prog; file; f; x])) with 4.
    destruct (decide (4 < 2 ∨ 4 > 4)) as [?|_]; [lia|].
    rewrite (bool_decide_eq_false_2 (4 > 1 ∧ _));
      [|intros [_ [= H]]; by apply Hne].
    destruct (decide (4 >= 3)) as [_|?]; [|lia].
    cbn [lookup list_lookup default id].
    by destruct (format_errors env f).
Qed.

Lemma tc_model_kripke_throws (model : model_t) (aps : list string)
    (d : bdd_dict) (dead : formula) (ps this : nat) :
  diagnostics model dead aps ≠ [] →
  (tc_model_kripke model aps d dead ps this).2
  = Throw (c_str (concat_messages (diagnostics model dead aps))).
Proof.
  intros Hk.
  destruct (convert_aps_loop_spec model dead ps aps d [] 0 EmptyString)
    as (out & Hloop & _).
  rewrite append_nil_l in Hloop. simpl in Hloop.
  unfold tc_model_kripke, convert_aps. rewrite Hloop.
  rewrite decide_True; [done|].
  destruct (diagnostics model dead aps); [done|simpl; lia].
Qed.

(** C8 (as amended).  The driver exits with 1 on a usage error, on a
    formula that does not parse, and when the formula is violated; with 2
    exactly when an exception was caught and logged (a model that does not
    load, propositions that do not compile, an exploration or a printing
    that throws); and with 0 otherwise (formula verified, structure
    printed, or model information listed).  Every command line of two to
    four arguments is one of those of the usage message, and on each of
    them what the driver writes and returns is determined by what the
    parser, the loader, the compiler of propositions and the exploration
    answer, as follows. *)
Theorem main_exit_code (env : driver_env) (argv : list string) :
  let r := main env argv in
  (r.1 = 1 ↔
     r.2 = [Usage] ∨ r.2 = [FormulaErrors] ∨ r.2 = [Violated] ∨
     r.2 = [CounterexampleDot]) ∧
  (r.1 = 2 ↔ ∃ what, r.2 = [LogError what]) ∧
  (r.1 = 0 ↔
     r.2 = [Verified] ∨ r.2 = [StructureDot] ∨ r.2 = [ModelInfo]) ∧
  (r.1 = 0 ∨ r.1 = 1 ∨ r.1 = 2) ∧
  ((length argv < 2 ∨ length argv > 4)%nat → r = (1, [Usage])) ∧
  ((2 ≤ length argv ≤ 4)%nat →
   ∃ file fo dot, command_line argv file fo dot) ∧
  (∀ file fo dot,
     command_line argv file fo dot →
     (∀ f, fo = Some f → format_errors env f = true →
           r = (1, [FormulaErrors])) ∧
     ((∀ f, fo = Some f → format_errors env f = false) →
      (∀ what, load env file = Throw what → r = (2, [LogError what])) ∧
      (∀ m,
         load env file = Ok m →
         (fo = None → dot = false → r = (0, [ModelInfo])) ∧
         (fo = None → dot = true →
          let k := (new_tcltl_kripke (model_ts m) ∅ [] (default_dead env)
                      kripke_owner).2 in
          (∀ what, print_dot env k = Throw what →
                   r = (2, [LogError what])) ∧
          (print_dot env k = Ok tt → r = (0, [StructureDot]))) ∧
         (∀ f,
            fo = Some f →
            let ap := atomic_prop_collect env f in
            let built :=
              tc_model_kripke m ap (register_all af_owner ap ∅)
                (default_dead env) ps_owner kripke_owner in
            (diagnostics m (default_dead env) ap ≠ [] →
             r = (2, [LogError
                        (c_str (concat_messages
                                  (diagnostics m (default_dead env) ap)))])) ∧
            (∀ what, built.2 = Throw what → r = (2, [LogError what])) ∧
            (∀ k,
               built.2 = Ok k →
               (dot = true →
                ∀ what, make_twa_graph env k = Throw what →
                        r = (2, [LogError what])) ∧
               (dot = false ∨ make_twa_graph env k = Ok tt →
                (∀ what, intersecting_run env k f = Throw what →
                         r = (2, [LogError what])) ∧
                (intersecting_run env k f = Ok false →
                 r = (0, [Verified])) ∧
                (intersecting_run env k f = Ok true →
                 (dot = false → r = (1, [Violated])) ∧
                 (dot = true →
                  (∀ what, print_dot env k = Throw what →
                           r = (2, [LogError what])) ∧
                  (print_dot env k = Ok tt →
                   r = (1, [CounterexampleDot])))))))))).
Proof.
  intros r.
  assert ((r.1 = 1 ∧ (r.2 = [Usage] ∨ r.2 = [FormulaErrors] ∨
                      r.2 = [Violated] ∨ r.2 = [CounterexampleDot])) ∨
          (r.1 = 2 ∧ ∃ what, r.2 = [LogError what]) ∨
          (r.1 = 0 ∧ (r.2 = [Verified] ∨ r.2 = [StructureDot] ∨
                      r.2 = [ModelInfo]))) as Hcases.
  { unfold r, main. case_decide; [left; simpl; auto|].
    destruct (if decide _ then _ else _) as [f|]; [|left; simpl; auto].
    destruct (main_body env _ f _) as [[code out]|what] eqn:E;
      [|right; left; simpl; eauto].
    apply main_body_outputs in E. simpl. intuition. }
  split; [|split; [|split; [|split; [|split; [|split]]]]].
  - destruct Hcases as [[-> H]|[[-> [what H]]|[-> H]]]; rewrite ?H;
      (split; [intros ?|intros ?]); try done; intuition congruence.
  - destruct Hcases as [[-> H]|[[-> [what H]]|[-> H]]]; rewrite ?H;
      (split; [intros ?|intros [? ?]]); try done; eauto;
      intuition congruence.
  - destruct Hcases as [[-> H]|[[-> [what H]]|[-> H]]]; rewrite ?H;
      (split; [intros ?|intros ?]); try done; intuition congruence.
  - destruct Hcases as [[-> _]|[[-> _]|[-> _]]]; auto.
  - intros Hlen. unfold r, main. cbv zeta. case_decide as H; [done|].
    exfalso. clear -Hlen H. lia.
  - apply command_line_total.
  - clear Hcases. intros file fo dot Hcl.
    pose proof (main_command_line env argv file fo dot Hcl) as Hmain.
    fold r in Hmain. clearbody r. clear Hcl argv.
    split.
    { intros f -> Hf. by rewrite Hf in Hmain. }
    intros Hparse.
    assert (r = match main_body env file fo dot with
                | Throw what => (2, [LogError what])
                | Ok r => r
                end) as Hr.
    { destruct fo as [f|]; [|done]. by rewrite (Hparse f eq_refl) in Hmain. }
    clear Hmain Hparse. unfold main_body in Hr.
    split.
    { intros what Hl. by rewrite Hl in Hr. }
    intros m Hl. rewrite Hl in Hr.
    split; [by intros -> ->|]. split.
    { intros -> -> k. revert Hr.
      unfold tc_model_kripke, convert_aps. cbn [convert_aps_loop].
      rewrite decide_False by (intros H; by apply H).
      fold k.
      destruct (new_tcltl_kripke (model_ts m) ∅ [] (default_dead env)
                  kripke_owner) as [d2 k'] eqn:Hk.
      simpl in k. subst k. cbn [fold_left].
      intros Hr. split.
      - intros what Hp. rewrite Hp in Hr.
        by destruct (default_dead env).
      - intros Hp. rewrite Hp in Hr. by destruct (default_dead env). }
    intros f -> ap built.
    change (fold_left
              (λ d a, (register_proposition (f_ap a) af_owner d).2)
              (atomic_prop_collect env f) ∅)
      with (register_all af_owner ap ∅) in Hr.
    fold ap built in Hr.
    assert (∀ what, built.2 = Throw what → r = (2, [LogError what]))
      as Hthrow.
    { intros what Hb. destruct built as [d' [k|what']]; simpl in Hb; [done|].
      by injection Hb as ->. }
    split.
    { intros Hdiag. apply Hthrow. by apply tc_model_kripke_throws. }
    split; [exact Hthrow|].
    intros k Hb. destruct built as [d' [k'|what']]; simpl in Hb; [|done].
    injection Hb as ->.
    split.
    { intros -> what Hg. by rewrite Hg in Hr. }
    intros Hg.
    assert (r = match intersecting_run env k f with
                | Ok true =>
                    if negb dot then (1, [Violated])
                    else match print_dot env k with
                         | Ok _ => (1, [CounterexampleDot])
                         | Throw what => (2, [LogError what])
                         end
                | Ok false => (0, [Verified])
                | Throw what => (2, [LogError what])
                end) as Hr'.
    { destruct Hg as [-> | Hg].
      - rewrite Hr. by destruct (intersecting_run env k f) as [[|]|].
      - rewrite Hr. destruct dot.
        + rewrite Hg. destruct (intersecting_run env k f) as [[|]|];
            try done. simpl. by destruct (print_dot env k).
        + destruct (intersecting_run env k f) as [[|]|]; done. }
    clear Hr. split; [intros what Hi; by rewrite Hi in Hr'|].
    split; [intros Hi; by rewrite Hi in Hr'|].
    intros Hi. rewrite Hi in Hr'. split; [by intros ->|].
    intros ->. simpl in Hr'. split.
    + intros what Hp. by rewrite Hp in Hr'.
    + intros Hp. by rewrite Hp in Hr'.
Qed.

(** X19.  A fourth argument other than [-D] is ignored: the third argument
    is the formula, whatever it is.  When it is not [-D] the driver behaves
    as with the first three; the formula [-D] cannot be given with three
    arguments, where [-D] is the option and nothing is parsed. *)
Theorem main_ignores_fourth_argument (env : driver_env)
    (prog file f x y : string) :
  x ≠ "-D"%string →
  (y ≠ "-D"%string →
   main env [prog; file; f; x] = main env [prog; file; f; y]) ∧
  (f ≠ "-D"%string →
   main env [prog; file; f; x] = main env [prog; file; f]) ∧
  (format_errors env f = true →
   main env [prog; file; f; x] = (1, [FormulaErrors])) ∧
  main env [prog; file; "-D"%string] ≠ (1, [FormulaErrors]).
Proof.
  intros Hx.
  rewrite (main_command_line env _ file (Some f) false
             (cl_formula_more prog file f x Hx)).
  split; [|split; [|split]].
  - intros Hy.
    by rewrite (main_command_line env _ file (Some f) false
                  (cl_formula_more prog file f y Hy)).
  - intros Hf.
    by rewrite (main_command_line env _ file (Some f) false
                  (cl_formula prog file f Hf)).
  - by intros ->.
  - rewrite (main_command_line env _ file None true
               (cl_file_dot prog file)).
    destruct (main_body env file None true) as [[code out]|what] eqn:E;
      [|done].
    apply main_body_outputs in E. intros [= -> ->].
    intuition congruence.
Qed.
(** * The properties at sample inputs *)

Lemma compare_hash_then_equality_witness :
  cells world_abc !! 0%nat
  = Some {| hash_val_ := 3; count_ := 1; zg_state_ := zg_a |} ∧
  cells world_abc !! 1%nat
  = Some {| hash_val_ := 3; count_ := 1; zg_state_ := zg_b |} ∧
  compare 0 1 world_abc = Some 1 ∧ compare 1 0 world_abc = Some 1.
Proof.
  assert (cells world_abc !! 0%nat
          = Some {| hash_val_ := 3; count_ := 1; zg_state_ := zg_a |})
    as Ha by reflexivity.
  assert (cells world_abc !! 1%nat
          = Some {| hash_val_ := 3; count_ := 1; zg_state_ := zg_b |})
    as Hb by reflexivity.
  split; [exact Ha|split; [exact Hb|]].
  destruct (compare_hash_then_equality world_abc 0 1 _ _ Ha Hb)
    as (_ & _ & _ & _ & H).
  apply H; [lia|reflexivity|discriminate].
Defined.

Lemma pool_wf_empty : pool_wf empty_world.
Proof.
  unfold pool_wf. simpl. split; [constructor|].
  split; [intros a Ha; by apply elem_of_nil in Ha|].
  split; [intros a _; apply lookup_empty|].
  intros a Ha. by apply elem_of_nil in Ha.
Defined.

Lemma hash_cached_and_structural_witness :
  pool_wf empty_world ∧
  hash 0 (new_tcltl_state sum_hash zg_a empty_world).2 = Some 3 ∧
  hash 0 (run_ops sum_hash [op_clone 0; op_new zg_b; op_destroy 0]
            (new_tcltl_state sum_hash zg_a empty_world).2)
  = Some 3.
Proof.
  split; [exact pool_wf_empty|].
  destruct (hash_cached_and_structural sum_hash empty_world zg_a zg_a
              [op_clone 0; op_new zg_b; op_destroy 0] pool_wf_empty)
    as (H1 & H2 & _).
  split; [exact H1|].
  refine (eq_trans (H2 _) H1).
  simpl. repeat split; vm_compute; eauto.
Defined.

Lemma refcount_release_after_clones_witness :
  (2 < 2 ^ 32)%N ∧
  is_Some (cells (destroy_n 0 2
                    (clone_n 0 2 (new_tcltl_state sum_hash zg_a empty_world).2))
             !! 0%nat) ∧
  cells (destroy_n 0 3
           (clone_n 0 2 (new_tcltl_state sum_hash zg_a empty_world).2))
    !! 0%nat = None.
Proof.
  assert (2 < 2 ^ 32)%N as Hk by reflexivity.
  split; [exact Hk|].
  destruct (refcount_release_after_clones sum_hash zg_a empty_world 2 Hk)
    as (_ & Hlive & (_ & Hlast & _) & _).
  split.
  - destruct (Hlive 2%N) as ((s & Hs & _) & _); [reflexivity|].
    exists s. exact Hs.
  - exact Hlast.
Defined.

(** C5, as stated, fails when the counter wraps around: after 2^32
    clones the counter is back to 1 and the first call of [destroy]
    destructs the handle. *)
Lemma refcount_wraps_counterexample :
  ¬ survives_releases sum_hash zg_a empty_world (2 ^ 32).
Proof.
  intros [Hlive _]. specialize (Hlive 1%N).
  assert (1 <= 2 ^ 32)%N as H1 by (intros E; discriminate E).
  specialize (Hlive H1). revert Hlive.
  set (a := (new_tcltl_state sum_hash zg_a empty_world).1).
  set (w0 := (new_tcltl_state sum_hash zg_a empty_world).2).
  pose proof (new_tcltl_state_lookup sum_hash zg_a empty_world) as Hs.
  fold a w0 in Hs.
  rewrite (clone_n_spec a _ (2 ^ 32) w0 Hs) by (simpl; lia).
  unfold destroy_n. simpl N.iter.
  erewrite destroy_last; [|apply lookup_insert_eq|reflexivity].
  simpl. rewrite lookup_delete_eq. intros [x Hx]. discriminate Hx.
Qed.

Lemma get_init_state_multiple_witness :
  initial (ts_ kripke_two_init) = [zg_a; zg_b] ∧
  get_init_state sum_hash kripke_two_init empty_world
  = ((new_tcltl_state sum_hash zg_a empty_world).2,
     Throw "multiple initial states not supported"%string) ∧
  cells (get_init_state sum_hash kripke_two_init empty_world).1 !! 0%nat
  = Some {| hash_val_ := 3; count_ := 1; zg_state_ := zg_a |}.
Proof.
  assert (initial (ts_ kripke_two_init) = [zg_a; zg_b]) as Hi by reflexivity.
  split; [exact Hi|].
  destruct (get_init_state_multiple sum_hash kripke_two_init empty_world
              zg_a zg_b [] Hi) as (H1 & H2 & _).
  split; [exact H1|]. rewrite H1. exact H2.
Defined.

Lemma get_init_state_empty_witness :
  initial (ts_ kripke_no_init) = [] ∧
  get_init_state sum_hash kripke_no_init world_abc = (world_abc, Ok None).
Proof.
  assert (initial (ts_ kripke_no_init) = []) as Hi by reflexivity.
  split; [exact Hi|].
  exact (get_init_state_empty sum_hash kripke_no_init world_abc Hi).
Defined.

Lemma dict_wf_empty : dict_wf ∅.
Proof. intros f1 f2 v r1 r2 H. by rewrite lookup_empty in H. Defined.

Lemma kripke_fork_dead_built :
  tc_model_kripke model_fork observed ∅ (f_ap "dead") ps_owner kripke_owner
  = ((tc_model_kripke model_fork observed ∅ (f_ap "dead")
        ps_owner kripke_owner).1, Ok kripke_fork_dead).
Proof. vm_compute. reflexivity. Defined.

Lemma kripke_fork_tt_built :
  tc_model_kripke model_fork [ "P.idle"; "x" ]%string ∅ f_tt
    ps_owner kripke_owner
  = ((tc_model_kripke model_fork [ "P.idle"; "x" ]%string ∅ f_tt
        ps_owner kripke_owner).1, Ok kripke_fork_tt).
Proof. vm_compute. reflexivity. Defined.

Lemma succ_iter_dead_state_witness :
  dict_wf ∅ ∧
  cells world_abc !! 1%nat
  = Some {| hash_val_ := 3; count_ := 1; zg_state_ := zg_b |} ∧
  outgoing (ts_ kripke_fork_dead) (zg_obj zg_b) = [] ∧
  dead_prop kripke_fork_dead ≠ bddfalse ∧
  ∃ it w',
    succ_iter sum_hash kripke_fork_dead 1 world_abc = Some (it, w') ∧
    cc_transitions it = [1%nat] ∧
    cond_ it = bdd_and (state_condition kripke_fork_dead (zg_obj zg_b))
                 (dead_prop kripke_fork_dead).
Proof.
  assert (cells world_abc !! 1%nat
          = Some {| hash_val_ := 3; count_ := 1; zg_state_ := zg_b |})
    as Hst by reflexivity.
  assert (outgoing (ts_ kripke_fork_dead) (zg_obj zg_b) = [])
    as Hout by reflexivity.
  assert (dead_prop kripke_fork_dead ≠ bddfalse) as Hd by (vm_compute; discriminate).
  split; [exact dict_wf_empty|]. split; [exact Hst|].
  split; [exact Hout|]. split; [exact Hd|].
  destruct (succ_iter_dead_state sum_hash _ _ _ _ _ _ _ _ world_abc 1 _
              dict_wf_empty kripke_fork_dead_built Hst Hout Hd)
    as (it & w' & H1 & H2 & H3 & _).
  exists it, w'. split; [exact H1|]. split; [exact H2|exact H3].
Defined.

(** C2, as stated, fails for the dead formula [true]: both markers are
    the constant true, and the condition of the edges that leave the live
    state [zg_a] includes both. *)
Lemma marker_both_true_counterexample :
  tc_model_kripke model_fork [ "P.idle"; "x" ]%string ∅ f_tt
    ps_owner kripke_owner
  = ((tc_model_kripke model_fork [ "P.idle"; "x" ]%string ∅ f_tt
        ps_owner kripke_owner).1, Ok kripke_fork_tt) ∧
  outgoing (ts_ kripke_fork_tt) (zg_obj zg_a) = [zg_b; zg_c] ∧
  alive_prop kripke_fork_tt = bddtrue ∧
  dead_prop kripke_fork_tt = bddtrue ∧
  (∀ rho, bdd_eval rho (alive_prop kripke_fork_tt) = true ∧
          bdd_eval rho (dead_prop kripke_fork_tt) = true) ∧
  ∃ it w',
    succ_iter sum_hash kripke_fork_tt 0 world_abc = Some (it, w') ∧
    cc_transitions it = [3%nat; 4%nat] ∧
    bdd_implies (cond_ it) (alive_prop kripke_fork_tt) ∧
    bdd_implies (cond_ it) (dead_prop kripke_fork_tt) ∧
    ¬ exactly_one_marker kripke_fork_tt (cond_ it).
Proof.
  split; [exact kripke_fork_tt_built|]. split; [reflexivity|].
  assert (alive_prop kripke_fork_tt = bddtrue) as Ha by reflexivity.
  assert (dead_prop kripke_fork_tt = bddtrue) as Hd by reflexivity.
  split; [exact Ha|]. split; [exact Hd|].
  split; [intros rho; rewrite Ha, Hd; split; reflexivity|].
  destruct (succ_iter sum_hash kripke_fork_tt 0 world_abc)
    as [[it w']|] eqn:E; [|by vm_compute in E].
  exists it, w'. split; [done|].
  assert (cc_transitions it = [3%nat; 4%nat]) as Ht.
  { assert (cc_transitions ∘ fst
              <$> succ_iter sum_hash kripke_fork_tt 0 world_abc
            = Some [3%nat; 4%nat]) as H by (vm_compute; reflexivity).
    rewrite E in H. by injection H. }
  split; [exact Ht|].
  assert (bdd_implies (cond_ it) bddtrue) as Hi
    by (unfold bdd_implies; apply bdd_and_true_r).
  rewrite Ha, Hd. split; [done|split; [done|]].
  unfold exactly_one_marker. rewrite Ha, Hd. intros [[_ H]|[H _]]; by apply H.
Qed.

Lemma edge_label_marker_witness :
  dict_wf ∅ ∧
  cells world_abc !! 0%nat
  = Some {| hash_val_ := 3; count_ := 1; zg_state_ := zg_a |} ∧
  ∃ it w',
    succ_iter sum_hash kripke_fork_dead 0 world_abc = Some (it, w') ∧
    cc_transitions it ≠ [] ∧
    exactly_one_marker kripke_fork_dead (cond_ it) ∧
    ¬ bdd_implies (cond_ it) (dead_prop kripke_fork_dead).
Proof.
  assert (cells world_abc !! 0%nat
          = Some {| hash_val_ := 3; count_ := 1; zg_state_ := zg_a |})
    as Hst by reflexivity.
  split; [exact dict_wf_empty|]. split; [exact Hst|].
  destruct (succ_iter sum_hash kripke_fork_dead 0 world_abc)
    as [[it w']|] eqn:E; [|by vm_compute in E].
  assert (cc_transitions it ≠ []) as Hne.
  { assert (cc_transitions ∘ fst
              <$> succ_iter sum_hash kripke_fork_dead 0 world_abc
            = Some [3%nat; 4%nat]) as H by (vm_compute; reflexivity).
    rewrite E in H. injection H as H. simpl in H. rewrite H. discriminate. }
  exists it, w'. split; [reflexivity|]. split; [exact Hne|].
  destruct (edge_label_marker sum_hash _ _ _ _ _ _ _ _ world_abc w' 0 _ it
              dict_wf_empty kripke_fork_dead_built Hst E Hne)
    as (_ & _ & H & _).
  destruct H as [H1 H2]; [discriminate|].
  split; [exact H1|]. apply H2. discriminate.
Defined.

(** C8, as stated, fails on a usage error and on a formula that does not
    parse: the driver exits with 1, not 2. *)
Lemma usage_exit_code_counterexample :
  main sample_env [ "tcltl" ]%string = (1, [Usage]) ∧
  format_errors sample_env "G(" = true ∧
  main sample_env [ "tcltl"; "fork"; "G(" ]%string = (1, [FormulaErrors]) ∧
  (main sample_env [ "tcltl" ]%string).1 ≠ 2 ∧
  (main sample_env [ "tcltl"; "fork"; "G(" ]%string).1 ≠ 2.
Proof. repeat split; vm_compute; discriminate. Qed.

(** C6, as stated, fails when something follows the name of a location:
    [P] is a known process and [idle] one of its locations, yet [P.idle==3]
    does not compile.  And the message for an unknown process names the
    process and the text of the proposition, not the location: for [Q.l c]
    the location [lc] does not occur in it. *)
Lemma trailing_comparator_counterexample :
  scan_name (skip_blanks (c_str "P.idle==3")) EmptyString None
  = ("P.idle"%string, Some 1%nat, "==3"%string) ∧
  intvars_index model_fork !! "P.idle"%string = None ∧
  processes model_fork !! "P"%string = Some 0%nat ∧
  locations model_fork !! ("P"%string, "idle"%string) = Some 0%nat ∧
  convert_ap model_fork "P.idle==3"
  = Error ("Trailing garbage `==3' at end of proposition `P.idle==3'."
           +:+ nl) ∧
  scan_name (skip_blanks (c_str "Q.l c")) EmptyString None
  = ("Q.lc"%string, Some 1%nat, EmptyString) ∧
  location_part "Q.lc" (Some 1%nat) = Some "lc"%string ∧
  convert_ap model_fork "Q.l c"
  = Error ("No variable or process `Q' found in model (for proposition `Q.l c')."
           +:+ nl) ∧
  ¬ occurs_in "lc"
      ("No variable or process `Q' found in model (for proposition `Q.l c')."
       +:+ nl).
Proof.
  repeat split; try (vm_compute; reflexivity).
  intros H%occurs_in_contains. vm_compute in H. discriminate H.
Qed.


Lemma convert_ap_rules_witness :
  proposition_name "P.idle" = "P.idle"%string ∧
  split_last_dot "P.idle" = Some ("P"%string, "idle"%string) ∧
  convert_ap model_fork "P.idle" = Rule 0 OP_AT 0 ∧
  convert_ap model_fork "P.work"
  = Error ("No location `work' known for process `P'." +:+ nl) ∧
  convert_ap model_fork "==3"
  = Error ("Proposition `==3' cannot be parsed." +:+ nl).
Proof.
  split; [reflexivity|]. split; [reflexivity|].
  destruct (convert_ap_rules model_fork "P.idle") as (_ & H1 & _).
  destruct (convert_ap_rules model_fork "P.work") as (_ & H2 & _).
  destruct (convert_ap_rules model_fork "==3") as (H3 & _).
  split; [|split].
  - destruct H1 as [_ H]; [intros E; vm_compute in E; discriminate E|].
    destruct H as (H & _); [vm_compute; reflexivity|].
    apply H. split; [reflexivity|]. split; [reflexivity|].
    exists "P"%string, "idle"%string, 0%nat.
    repeat split; vm_compute; reflexivity.
  - destruct H2 as [_ H]; [intros E; vm_compute in E; discriminate E|].
    destruct H as (_ & _ & H); [vm_compute; reflexivity|].
    destruct (H "P"%string "work"%string eq_refl) as (_ & H' & _).
    apply H'; [exists 0%nat|]; vm_compute; reflexivity.
  - apply H3. reflexivity.
Defined.

Lemma convert_aps_batch_failure_witness :
  diagnostics model_fork (f_ap "dead") batch
  = [ "No variable or process `foo' found in model (for proposition `foo')."
      +:+ nl;
      "Failed to parse `' as an integer." +:+ nl ] ∧
  Forall (λ ap, no_nul ap = true) batch ∧
  well_formed_props model_fork (f_ap "dead") batch
  = [ "x"; "P.idle" ]%string ∧
  tc_model_kripke model_fork batch ∅ (f_ap "dead") ps_owner kripke_owner
  = (∅,
     Throw
       (("No variable or process `foo' found in model (for proposition `foo')."
         +:+ nl)
        +:+ ("Failed to parse `' as an integer." +:+ nl))).
Proof.
  assert (diagnostics model_fork (f_ap "dead") batch
          = [ "No variable or process `foo' found in model (for proposition `foo')."
              +:+ nl;
              "Failed to parse `' as an integer." +:+ nl ]) as Hd
    by (vm_compute; reflexivity).
  assert (Forall (λ ap, no_nul ap = true) batch) as Hnul
    by (unfold batch; repeat (apply Forall_cons_2; [reflexivity|]);
        apply Forall_nil_2).
  split; [exact Hd|]. split; [exact Hnul|].
  split; [vm_compute; reflexivity|].
  destruct (convert_aps_batch_failure model_fork batch ∅ (f_ap "dead")
              ps_owner kripke_owner)
    as (_ & Hn & _ & _ & Hk & _ & Hrestore).
  - rewrite Hd. discriminate.
  - rewrite Hk, Hrestore, (Hn Hnul), Hd; [reflexivity|].
    intros f v r H. by rewrite lookup_empty in H.
Defined.

(** C7, as stated, fails for a proposition with a NUL in its name: the
    text of the error ends at that NUL, within the first of the two
    messages. *)
Lemma nul_name_counterexample :
  length (diagnostics model_fork f_tt batch_nul) = 2%nat ∧
  (convert_aps batch_nul model_fork ∅ f_tt ps_owner []).2
  = Throw "Proposition `" ∧
  (convert_aps batch_nul model_fork ∅ f_tt ps_owner []).2
  ≠ Throw (concat_messages (diagnostics model_fork f_tt batch_nul)).
Proof.
  split; [vm_compute; reflexivity|]. split; [vm_compute; reflexivity|].
  intros H. vm_compute in H. discriminate H.
Qed.

Lemma main_exit_code_witness :
  command_line [ "tcltl"; "fork"; "G(P.idle)" ]%string "fork"
    (Some "G(P.idle)"%string) false ∧
  main sample_env [ "tcltl"; "fork"; "G(P.idle)" ]%string = (1, [Violated]) ∧
  main sample_env [ "tcltl"; "nofile"; "G(P.idle)" ]%string
  = (2, [LogError "system declaration could not be built"]) ∧
  main sample_env [ "tcltl"; "fork" ]%string = (0, [ModelInfo]).
Proof.
  assert ("G(P.idle)"%string ≠ "-D"%string) as Hf by discriminate.
  assert ("fork"%string ≠ "-D"%string) as Hfile by discriminate.
  pose proof (cl_formula "tcltl" "fork" "G(P.idle)" Hf) as Hcl1.
  pose proof (cl_formula "tcltl" "nofile" "G(P.idle)" Hf) as Hcl2.
  pose proof (cl_file "tcltl" "fork" Hfile) as Hcl3.
  assert (∀ f0, Some "G(P.idle)"%string = Some f0 →
                format_errors sample_env f0 = false) as Hparse
    by (by intros f0 [= <-]).
  assert (∀ f0 : string, None = Some f0 →
                format_errors sample_env f0 = false) as Hnone
    by (by intros f0 [=]).
  split; [exact Hcl1|].
  destruct (main_exit_code sample_env [ "tcltl"; "fork"; "G(P.idle)" ]%string)
    as (_ & _ & _ & _ & _ & _ & H1).
  destruct (main_exit_code sample_env
              [ "tcltl"; "nofile"; "G(P.idle)" ]%string)
    as (_ & _ & _ & _ & _ & _ & H2).
  destruct (main_exit_code sample_env [ "tcltl"; "fork" ]%string)
    as (_ & _ & _ & _ & _ & _ & H3).
  destruct (H1 _ _ _ Hcl1) as [_ H1'].
  destruct (H2 _ _ _ Hcl2) as [_ H2'].
  destruct (H3 _ _ _ Hcl3) as [_ H3'].
  destruct (H1' Hparse) as [_ Hm1].
  destruct (H2' Hparse) as [Hl2 _].
  destruct (H3' Hnone) as [_ Hm3].
  split; [|split].
  - destruct (Hm1 model_fork eq_refl) as (_ & _ & Hform).
    pose proof (Hform _ eq_refl) as Hform'. cbv zeta in Hform'.
    destruct Hform' as (_ & _ & Hk).
    destruct (Hk (kripke_or
                    (tc_model_kripke model_fork [ "P.idle"%string ]
                       (register_all af_owner [ "P.idle"%string ] ∅)
                       f_tt ps_owner kripke_owner).2))
      as [_ Hrun]; [vm_compute; reflexivity|].
    destruct (Hrun (or_introl eq_refl)) as (_ & _ & Hv).
    destruct (Hv eq_refl) as [Hviol _]. exact (Hviol eq_refl).
  - exact (Hl2 _ eq_refl).
  - destruct (Hm3 model_fork eq_refl) as (Hinfo & _).
    exact (Hinfo eq_refl eq_refl).
Defined.

(** * More properties at sample inputs *)

Lemma pool_wf_world_abc : pool_wf world_abc.
Proof.
  unfold world_abc. do 3 apply new_tcltl_state_wf. exact pool_wf_empty.
Defined.

Lemma clone_destroy_round_trip_witness :
  cells world_abc !! 0%nat
  = Some {| hash_val_ := 3; count_ := 1; zg_state_ := zg_a |} ∧
  destroy 0 (clone 0 world_abc).2 = world_abc.
Proof.
  assert (cells world_abc !! 0%nat
          = Some {| hash_val_ := 3; count_ := 1; zg_state_ := zg_a |})
    as Ha by reflexivity.
  split; [exact Ha|].
  apply (clone_destroy_round_trip 0 _ world_abc Ha). simpl. lia.
Defined.

Lemma compare_agrees_with_hash_witness :
  cells world_abc !! 1%nat
  = Some {| hash_val_ := 3; count_ := 1; zg_state_ := zg_b |} ∧
  cells world_abc !! 2%nat
  = Some {| hash_val_ := 5; count_ := 1; zg_state_ := zg_c |} ∧
  ∃ c, (c = 1 ∨ c = -1) ∧ compare 1 2 world_abc = Some c ∧
       compare 2 1 world_abc = Some (- c).
Proof.
  assert (cells world_abc !! 1%nat
          = Some {| hash_val_ := 3; count_ := 1; zg_state_ := zg_b |})
    as Hb by reflexivity.
  assert (cells world_abc !! 2%nat
          = Some {| hash_val_ := 5; count_ := 1; zg_state_ := zg_c |})
    as Hc by reflexivity.
  split; [exact Hb|]. split; [exact Hc|].
  destruct (compare_agrees_with_hash world_abc 1 2 _ _ Hb Hc)
    as (_ & _ & _ & H).
  apply H. simpl. lia.
Defined.

Lemma adapter_keeps_pool_wf_witness :
  pool_wf world_abc ∧ live_batch [1; 2]%nat world_abc ∧
  pool_wf (delete_cc [1; 2]%nat world_abc) ∧
  pool_wf (get_init_state sum_hash kripke_two_init empty_world).1.
Proof.
  assert (live_batch [1; 2]%nat world_abc) as Hl.
  { split.
    { apply NoDup_cons_2; [|apply NoDup_singleton].
      intros H. apply elem_of_cons in H as [H|H]; [discriminate H|].
      by apply elem_of_nil in H. }
    intros t Ht. apply elem_of_cons in Ht as [->|Ht]; [by eexists|].
    apply elem_of_cons in Ht as [->|Ht]; [by eexists|].
    by apply elem_of_nil in Ht. }
  split; [exact pool_wf_world_abc|]. split; [exact Hl|].
  destruct (adapter_keeps_pool_wf sum_hash kripke_two_init world_abc
              pool_wf_world_abc) as (_ & _ & _ & H).
  split; [exact (H _ Hl)|].
  exact (proj1 (adapter_keeps_pool_wf sum_hash kripke_two_init empty_world
                  pool_wf_empty)).
Defined.

Lemma succ_iter_allocates_successors_witness :
  pool_wf world_abc ∧
  cells world_abc !! 0%nat
  = Some {| hash_val_ := 3; count_ := 1; zg_state_ := zg_a |} ∧
  iter_cache_ world_abc = None ∧
  outgoing (ts_ kripke_fork_tt) (zg_obj zg_a) ≠ [] ∧
  ∃ it w',
    succ_iter sum_hash kripke_fork_tt 0 world_abc = Some (it, w') ∧
    Forall2 (fresh_handle_for sum_hash w') [zg_b; zg_c] (cc_transitions it) ∧
    NoDup (cc_transitions it).
Proof.
  assert (cells world_abc !! 0%nat
          = Some {| hash_val_ := 3; count_ := 1; zg_state_ := zg_a |})
    as Ha by reflexivity.
  assert (iter_cache_ world_abc = None) as Hc by reflexivity.
  assert (outgoing (ts_ kripke_fork_tt) (zg_obj zg_a) = [zg_b; zg_c])
    as Hout by reflexivity.
  assert (outgoing (ts_ kripke_fork_tt) (zg_obj zg_a) ≠ []) as Hne
    by (rewrite Hout; discriminate).
  split; [exact pool_wf_world_abc|]. split; [exact Ha|].
  split; [exact Hc|]. split; [exact Hne|].
  destruct (succ_iter_allocates_successors sum_hash kripke_fork_tt 0 _
              world_abc pool_wf_world_abc Ha Hc Hne)
    as (it & w' & H1 & H2 & H3 & _).
  exists it, w'. split; [exact H1|]. split; [|exact H3].
  simpl zg_state_ in H2. rewrite Hout in H2. exact H2.
Defined.

Lemma succ_iter_dead_state_ignored_witness :
  cells world_abc !! 1%nat
  = Some {| hash_val_ := 3; count_ := 1; zg_state_ := zg_b |} ∧
  outgoing (ts_ (new_tcltl_kripke ts_fork ∅ [] f_ff kripke_owner).2)
    (zg_obj zg_b) = [] ∧
  dead_prop (new_tcltl_kripke ts_fork ∅ [] f_ff kripke_owner).2 = bddfalse ∧
  ∃ it,
    succ_iter sum_hash (new_tcltl_kripke ts_fork ∅ [] f_ff kripke_owner).2
      1 world_abc = Some (it, world_abc) ∧
    cc_transitions it = [] ∧ cond_ it = bddfalse.
Proof.
  assert (cells world_abc !! 1%nat
          = Some {| hash_val_ := 3; count_ := 1; zg_state_ := zg_b |})
    as Hb by reflexivity.
  assert (outgoing (ts_ (new_tcltl_kripke ts_fork ∅ [] f_ff kripke_owner).2)
            (zg_obj zg_b) = []) as Hout by reflexivity.
  assert (dead_prop (new_tcltl_kripke ts_fork ∅ [] f_ff kripke_owner).2
          = bddfalse) as Hd by reflexivity.
  split; [exact Hb|]. split; [exact Hout|]. split; [exact Hd|].
  destruct (succ_iter_dead_state_ignored sum_hash _ 1 _ world_abc
              Hb Hout Hd)
    as (it & w' & H1 & H2 & H3 & _ & _ & Hw).
  exists it. rewrite (Hw eq_refl) in H1. split; [exact H1|].
  split; [exact H2|exact H3].
Defined.

Lemma fresh_batch_is_released_witness :
  pool_wf empty_world ∧
  length (succ_iter_loop sum_hash [zg_b; zg_c] [] empty_world).1 = 2%nat ∧
  cells (delete_cc (succ_iter_loop sum_hash [zg_b; zg_c] [] empty_world).1
           (succ_iter_loop sum_hash [zg_b; zg_c] [] empty_world).2)
  = cells empty_world.
Proof.
  split; [exact pool_wf_empty|].
  destruct (fresh_batch_is_released sum_hash [zg_b; zg_c] empty_world
              pool_wf_empty) as (H1 & H2 & _).
  split; [exact H1|exact H2].
Defined.

Lemma get_init_state_twice_witness :
  pool_wf empty_world ∧
  initial (ts_ kripke_fork_tt) = [zg_a] ∧
  ∃ a1 a2 w1 w2,
    get_init_state sum_hash kripke_fork_tt empty_world = (w1, Ok (Some a1)) ∧
    get_init_state sum_hash kripke_fork_tt w1 = (w2, Ok (Some a2)) ∧
    a1 ≠ a2 ∧ compare a1 a2 w2 = Some 0.
Proof.
  assert (initial (ts_ kripke_fork_tt) = [zg_a]) as Hi by reflexivity.
  split; [exact pool_wf_empty|]. split; [exact Hi|].
  destruct (get_init_state_twice sum_hash kripke_fork_tt kripke_fork_tt
              zg_a zg_a empty_world pool_wf_empty Hi Hi eq_refl)
    as (a1 & a2 & w1 & w2 & H1 & H2 & _ & _ & _ & H3 & H4 & _).
  exists a1, a2, w1, w2. repeat split; assumption.
Defined.

Lemma traverse_visits_batch_witness :
  (length [1; 2]%nat ≤ 2)%nat ∧
  traverse 2 {| cc_transitions := [1; 2]%nat; cond_ := bddtrue; it_ := 0 |}
    world_abc
  = ([1; 2]%nat, clone_all [1; 2]%nat world_abc).
Proof.
  assert (length [1; 2]%nat ≤ 2)%nat as Hl by (simpl; lia).
  split; [exact Hl|].
  exact (proj1 (traverse_visits_batch 2
                  {| cc_transitions := [1; 2]%nat; cond_ := bddtrue;
                     it_ := 0 |} world_abc Hl)).
Defined.

Lemma succ_iter_recycles_witness :
  iter_cache_ world_abc = None ∧
  ∃ it w',
    succ_iter sum_hash kripke_fork_tt 0 world_abc = Some (it, w') ∧
    succ_iter sum_hash kripke_fork_tt 0
      (set_iter_cache
         (Some {| cc_transitions := [1%nat]; cond_ := bddtrue; it_ := 1 |})
         world_abc)
    = Some ({| cc_transitions := cc_transitions it; cond_ := cond_ it;
               it_ := 1 |},
            delete_cc [1%nat] w').
Proof.
  assert (iter_cache_ world_abc = None) as Hc by reflexivity.
  split; [exact Hc|].
  destruct (succ_iter sum_hash kripke_fork_tt 0 world_abc)
    as [[it w']|] eqn:E; [|exfalso; vm_compute in E; discriminate E].
  exists it, w'. split; [reflexivity|].
  exact (proj1 (succ_iter_recycles sum_hash kripke_fork_tt 0 world_abc w'
                  it {| cc_transitions := [1%nat]; cond_ := bddtrue;
                        it_ := 1 |} Hc E)).
Defined.

Lemma state_condition_eval_witness :
  Forall (rule_in_range (zg_obj zg_a)) (ps_ kripke_fork_dead) ∧
  (bdd_eval (λ _, true) (state_condition kripke_fork_dead (zg_obj zg_a))
   = true ↔
   ∀ p, p ∈ ps_ kripke_fork_dead → (true = true ↔ rule_true (zg_obj zg_a) p)).
Proof.
  assert (Forall (rule_in_range (zg_obj zg_a)) (ps_ kripke_fork_dead)) as Hr.
  { assert (ps_ kripke_fork_dead
            = [ {| var_num := 0; op := OP_AT; val := 0; bddvar := 0 |};
                {| var_num := 0; op := OP_NE; val := 0; bddvar := 1 |};
                {| var_num := 1; op := OP_LT; val := 2; bddvar := 2 |} ])
      as -> by (vm_compute; reflexivity).
    repeat (apply Forall_cons_2; [unfold rule_in_range; simpl; lia|]).
    apply Forall_nil_2. }
  split; [exact Hr|].
  exact (state_condition_eval kripke_fork_dead (zg_obj zg_a) (λ _, true) Hr).
Defined.

Lemma built_labels_satisfiable_witness :
  dict_wf ∅ ∧
  state_condition kripke_fork_dead (zg_obj zg_a) ≠ bddfalse ∧
  bdd_and (state_condition kripke_fork_dead (zg_obj zg_a))
    (alive_prop kripke_fork_dead) ≠ bddfalse.
Proof.
  split; [exact dict_wf_empty|].
  destruct (built_labels_satisfiable _ _ _ _ _ _ _ _ (zg_obj zg_a)
              dict_wf_empty kripke_fork_dead_built) as (H1 & H2 & _).
  split; [exact H1|exact H2].
Defined.

Lemma convert_ap_rule_sound_witness :
  convert_ap model_fork "y<2" = Rule 1 OP_LT 2 ∧
  ((OP_LT ≠ OP_AT ∧ - 2 ^ 31 <= 2 < 2 ^ 31 ∧
    ∃ name, intvars_index model_fork !! name = Some 1%nat) ∨
   (OP_LT = OP_AT ∧
    ∃ P L lid, processes model_fork !! P = Some 1%nat ∧
               locations model_fork !! (P, L) = Some lid ∧
               2 = Z.of_nat lid)).
Proof.
  assert (convert_ap model_fork "y<2" = Rule 1 OP_LT 2) as H
    by (vm_compute; reflexivity).
  split; [exact H|].
  exact (convert_ap_rule_sound model_fork "y<2" 1 OP_LT 2 H).
Defined.

Lemma diagnostic_is_a_line_witness :
  diagnostic model_fork "y<"
  = Some ("Failed to parse `' as an integer." +:+ nl) ∧
  ∃ body, "Failed to parse `' as an integer." +:+ nl = body +:+ nl.
Proof.
  assert (diagnostic model_fork "y<"
          = Some ("Failed to parse `' as an integer." +:+ nl)) as H
    by (vm_compute; reflexivity).
  split; [exact H|].
  exact (diagnostic_is_a_line model_fork "y<" _ H).
Defined.

Lemma tc_model_kripke_succeeds_witness :
  diagnostics model_fork (f_ap "dead") observed = [] ∧
  ∃ d' k,
    tc_model_kripke model_fork observed ∅ (f_ap "dead") ps_owner kripke_owner
    = (d', Ok k) ∧
    ts_ k = ts_fork ∧ length (ps_ k) = 3%nat.
Proof.
  assert (diagnostics model_fork (f_ap "dead") observed = []) as H
    by (vm_compute; reflexivity).
  split; [exact H|].
  destruct (proj2 (tc_model_kripke_succeeds model_fork observed ∅
                     (f_ap "dead") ps_owner kripke_owner) H)
    as (d' & k & H1 & H2 & _ & H3 & _).
  exists d', k. split; [exact H1|]. split; [exact H2|exact H3].
Defined.

Lemma label_reflects_rule_witness :
  "y<2"%string ∈ observed ∧ f_ap "y<2" ≠ f_ap "dead" ∧
  ∃ p,
    p ∈ ps_ kripke_fork_dead ∧
    convert_ap model_fork "y<2" = Rule (var_num p) (op p) (val p) ∧
    ∀ zs rho,
      bdd_eval rho (state_condition kripke_fork_dead zs) = true →
      rho (bddvar p) = prop_holds zs p.
Proof.
  assert ("y<2"%string ∈ observed) as Hin by (unfold observed; set_solver).
  assert (f_ap "y<2" ≠ f_ap "dead") as Hne by discriminate.
  split; [exact Hin|]. split; [exact Hne|].
  destruct (label_reflects_rule _ _ _ _ _ _ _ _ _
              kripke_fork_dead_built Hin Hne)
    as (p & r & H1 & H2 & _ & _ & _ & H3).
  exists p. split; [exact H1|]. split; [exact H2|exact H3].
Defined.

Lemma convert_aps_dictionary_witness :
  dict_wf ∅ ∧
  dict_wf (convert_aps batch model_fork ∅ (f_ap "dead") ps_owner []).1.1 ∧
  (convert_aps batch model_fork ∅ (f_ap "dead") ps_owner []).1.1
    !! f_ap "dead" = None.
Proof.
  split; [exact dict_wf_empty|].
  destruct (convert_aps_dictionary model_fork batch ∅ (f_ap "dead")
              ps_owner dict_wf_empty) as (H1 & _ & H2 & _).
  split; [exact H1|exact H2].
Defined.

Lemma convert_ap_comparison_round_trip_witness :
  plain "y" = true ∧ intvars_index model_fork !! "y"%string = Some 1%nat ∧
  digits_value [4; 2]%nat <= LONG_MAX ∧
  convert_ap model_fork
    (" " +:+ "y" +:+ EmptyString +:+ relop_text OP_LE +:+ "  " +:+ sign_text true
     +:+ digits_string [4; 2]%nat +:+ " ")
  = Rule 1 OP_LE (- 42).
Proof.
  assert (plain "y" = true) as Hp by reflexivity.
  assert ("y"%string ≠ EmptyString) as Hne by discriminate.
  assert (intvars_index model_fork !! "y"%string = Some 1%nat) as Hv
    by (vm_compute; reflexivity).
  assert (OP_LE ≠ OP_AT) as Ho by discriminate.
  assert ([4; 2]%nat ≠ []) as Hds by discriminate.
  assert (Forall (λ d, (d < 10)%nat) [4; 2]%nat) as Hall
    by (repeat (apply Forall_cons_2; [lia|]); apply Forall_nil_2).
  assert (digits_value [4; 2]%nat <= LONG_MAX) as Hmax
    by (vm_compute; discriminate).
  split; [exact Hp|]. split; [exact Hv|]. split; [exact Hmax|].
  destruct (convert_ap_comparison_round_trip model_fork "y" 1 OP_LE true
              [4; 2]%nat " " EmptyString "  " " " Hp Hne Hv Ho Hds Hall Hmax
              eq_refl eq_refl eq_refl eq_refl) as [_ H].
  apply H. vm_compute. split; [intros E; discriminate E|reflexivity].
Defined.

Lemma convert_ap_location_round_trip_witness :
  plain "P" = true ∧ plain "busy" = true ∧ no_dot "busy" = true ∧
  processes model_fork !! "P"%string = Some 0%nat ∧
  locations model_fork !! ("P"%string, "busy"%string) = Some 1%nat ∧
  convert_ap model_fork (" " +:+ "P" +:+ "." +:+ "busy" +:+ "  ")
  = Rule 0 OP_AT 1.
Proof.
  assert (plain "P" = true) as HP by reflexivity.
  assert (plain "busy" = true) as HL by reflexivity.
  assert (no_dot "busy" = true) as Hnd by reflexivity.
  assert (intvars_index model_fork !! ("P" +:+ "." +:+ "busy") = None)
    as Hvar by (vm_compute; reflexivity).
  assert (processes model_fork !! "P"%string = Some 0%nat) as Hproc
    by (vm_compute; reflexivity).
  assert (locations model_fork !! ("P"%string, "busy"%string) = Some 1%nat)
    as Hloc by (vm_compute; reflexivity).
  split; [exact HP|]. split; [exact HL|]. split; [exact Hnd|].
  split; [exact Hproc|]. split; [exact Hloc|].
  exact (convert_ap_location_round_trip model_fork "P" "busy" 0 1 " " "  "
           HP HL Hnd eq_refl eq_refl Hvar Hproc Hloc).
Defined.

Lemma main_ignores_fourth_argument_witness :
  "x"%string ≠ "-D"%string ∧ "G(P.idle)"%string ≠ "-D"%string ∧
  main sample_env [ "tcltl"; "fork"; "G(P.idle)"; "x" ]%string
  = main sample_env [ "tcltl"; "fork"; "G(P.idle)" ]%string.
Proof.
  assert ("x"%string ≠ "-D"%string) as Hx by discriminate.
  assert ("G(P.idle)"%string ≠ "-D"%string) as Hf by discriminate.
  split; [exact Hx|]. split; [exact Hf|].
  destruct (main_ignores_fourth_argument sample_env "tcltl" "fork"
              "G(P.idle)" "x" "y" Hx) as (_ & H & _).
  exact (H Hf).
Defined.
